(** * shared/base.js: yen formatting and the count-up animation

    A shallow embedding of the numeric helpers of [shared/base.js]
    ([clamp], [fmtYenParts], [fmtYen], [fmtAxisYen], [animateNum]) and of
    the part of the host they talk to (the frame-callback queue and the
    text sink), followed by the properties of the specification.

    Numbers.  A JavaScript number is modelled by [number]: the IEEE special
    values are explicit ([NaN], the two infinities, negative zero) and a
    finite value is a rational, [Fin q] standing for the real number [q].
    The operations of [JS] are those of the reals on finite values; the
    operations of [B64] round their result to binary64, with overflow and
    underflow.  Both are used: a property that holds whatever the rounding
    is stated on the first, a property whose values depend on the rounding
    on the second.

    Frames.  [requestAnimationFrame] and [cancelAnimationFrame] act on a
    queue of callback ids; a frame of the host empties the queue and calls
    each entry with the frame's timestamp.  The element is a sink that
    records every text assigned to it. *)

From Stdlib Require Import ZArith QArith Qround Qabs Qminmax Qpower Bool List String Ascii.
From Stdlib Require Import DecimalString Lia Lqa Sorted.
Import ListNotations.

Open Scope string_scope.
Open Scope Z_scope.

(** ** JavaScript numbers *)

Module JS.

Inductive number : Type :=
| NaN
| Infinity (neg : bool)
| NegZero
| Fin (q : Q).

(** [Fin q] with [q == 0] is positive zero. *)
Definition zero (neg : bool) : number := if neg then NegZero else Fin 0.

Definition of_Z (z : Z) : number := Fin (inject_Z z).

Definition Qltb (a b : Q) : bool := negb (Qle_bool b a).

Definition signbit (x : number) : bool :=
  match x with
  | NaN => false
  | Infinity s => s
  | NegZero => true
  | Fin q => Qltb q 0
  end.

(** The rational value of a finite number (0 for the others). *)
Definition val (x : number) : Q :=
  match x with
  | Fin q => q
  | _ => 0%Q
  end.

Definition is_zero (x : number) : bool :=
  match x with
  | NegZero => true
  | Fin q => Qeq_bool q 0
  | _ => false
  end.

(** A finite result [q] whose sign, when it is a zero, is [s]. *)
Definition fin (s : bool) (q : Q) : number :=
  if Qeq_bool q 0 then zero s else Fin q.

(** Unary minus. *)
Definition neg (x : number) : number :=
  match x with
  | NaN => NaN
  | Infinity s => Infinity (negb s)
  | NegZero => Fin 0
  | Fin q => if Qeq_bool q 0 then NegZero else Fin (- q)
  end.

(** [x + y] *)
Definition add (x y : number) : number :=
  match x, y with
  | NaN, _ | _, NaN => NaN
  | Infinity s, Infinity t => if Bool.eqb s t then Infinity s else NaN
  | Infinity s, _ | _, Infinity s => Infinity s
  | NegZero, NegZero => NegZero
  | NegZero, Fin q | Fin q, NegZero => Fin q
  | Fin a, Fin b => Fin (a + b)
  end.

(** [x - y] *)
Definition sub (x y : number) : number := add x (neg y).

(** [x * y] *)
Definition mul (x y : number) : number :=
  match x, y with
  | NaN, _ | _, NaN => NaN
  | Infinity s, Infinity t => Infinity (xorb s t)
  | Infinity s, o | o, Infinity s =>
      if is_zero o then NaN else Infinity (xorb s (signbit o))
  | _, _ => fin (xorb (signbit x) (signbit y)) (val x * val y)
  end.

(** [x / y] *)
Definition div (x y : number) : number :=
  match x, y with
  | NaN, _ | _, NaN => NaN
  | Infinity _, Infinity _ => NaN
  | Infinity s, _ => Infinity (xorb s (signbit y))
  | _, Infinity t => zero (xorb (signbit x) t)
  | _, _ =>
      if is_zero y then
        if is_zero x then NaN else Infinity (xorb (signbit x) (signbit y))
      else fin (xorb (signbit x) (signbit y)) (val x / val y)
  end.

(** Rounding a rational toward zero. *)
Definition Qtrunc (q : Q) : Z := if Qltb q 0 then Qceiling q else Qfloor q.

(** [x % y]: the remainder has the sign of the dividend. *)
Definition rem (x y : number) : number :=
  match x, y with
  | NaN, _ | _, NaN => NaN
  | Infinity _, _ => NaN
  | _, Infinity _ => x
  | _, _ =>
      if is_zero y then NaN
      else if is_zero x then x
      else fin (signbit x) (val x - val y * inject_Z (Qtrunc (val x / val y)))
  end.

(** [x < y] *)
Definition lt (x y : number) : bool :=
  match x, y with
  | NaN, _ | _, NaN => false
  | Infinity s, Infinity t => s && negb t
  | Infinity s, _ => s
  | _, Infinity t => negb t
  | _, _ => Qltb (val x) (val y)
  end.

(** [x >= y] *)
Definition ge (x y : number) : bool :=
  match x, y with
  | NaN, _ | _, NaN => false
  | _, _ => negb (lt x y)
  end.

(** [x <= y] *)
Definition le (x y : number) : bool := ge y x.

(** [x === y] on numbers *)
Definition strict_eq (x y : number) : bool :=
  match x, y with
  | NaN, _ | _, NaN => false
  | _, _ => negb (lt x y) && negb (lt y x)
  end.

(** [Math.min(x, y)]: NaN is contagious and -0 is below +0. *)
Definition Math_min (x y : number) : number :=
  match x, y with
  | NaN, _ | _, NaN => NaN
  | _, _ =>
      if lt x y then x
      else if lt y x then y
      else if signbit x then x else y
  end.

(** [Math.max(x, y)] *)
Definition Math_max (x y : number) : number :=
  match x, y with
  | NaN, _ | _, NaN => NaN
  | _, _ =>
      if lt x y then y
      else if lt y x then x
      else if signbit x then y else x
  end.

(** [Math.round(x)]: the nearest integer, ties toward +Infinity; a result
    of zero keeps the sign of [x]. *)
Definition Math_round (x : number) : number :=
  match x with
  | Fin q => fin (Qltb q 0) (inject_Z (Qfloor (q + (1 # 2))))
  | _ => x
  end.

(** [Math.floor(x)] *)
Definition Math_floor (x : number) : number :=
  match x with
  | Fin q => Fin (inject_Z (Qfloor q))
  | _ => x
  end.

Definition odd (n : positive) : bool :=
  match n with
  | xO _ => false
  | _ => true
  end.

(** [Math.pow(x, n)] for a positive integer exponent [n]. *)
Definition Math_pow (x : number) (n : positive) : number :=
  match x with
  | NaN => NaN
  | Infinity s => Infinity (s && odd n)
  | NegZero => zero (odd n)
  | Fin q => Fin (Qpower_positive q n)
  end.

(** *** Printing *)

Definition decimal (n : Z) : string :=
  NilEmpty.string_of_uint (N.to_uint (Z.to_N n)).

(** A comma after every third digit of the reversed digit list, while
    digits remain. *)
Fixpoint commas (rev_digits : list ascii) : list ascii :=
  match rev_digits with
  | a :: b :: c :: ((_ :: _) as more) => a :: b :: c :: ","%char :: commas more
  | short => short
  end.

(** Thousands grouping of a non-negative integer, as the ja-JP locale
    prints it. *)
Definition grouped (n : Z) : string :=
  string_of_list_ascii
    (rev (commas (rev (list_ascii_of_string (decimal n))))).

(** Rounding a non-negative rational to the nearest integer, ties up. *)
Definition Qround_half_up (q : Q) : Z := Qfloor (q + (1 # 2)).

(** The digits after the decimal point for [m] thousandths ([0 <= m < 1000]):
    none for zero, otherwise the three digits without trailing zeros. *)
Definition fraction (m : Z) : string :=
  if Z.eqb m 0 then ""
  else if Z.eqb (m mod 100) 0 then "." ++ decimal (m / 100)
  else if Z.eqb (m mod 10) 0 then
    "." ++ decimal (m / 100) ++ decimal (m / 10 mod 10)
  else "." ++ decimal (m / 100) ++ decimal (m / 10 mod 10) ++ decimal (m mod 10).

(** [x.toLocaleString('ja-JP')]: grouping by three, at most three fraction
    digits, a minus sign for negative values and for negative zero. *)
Definition toLocaleString (x : number) : string :=
  match x with
  | NaN => "NaN"
  | Infinity false => "∞"
  | Infinity true => "-∞"
  | NegZero => "-0"
  | Fin q =>
      let m := Qround_half_up (Qabs q * 1000) in
      (if Qltb q 0 then "-" else "") ++ grouped (m / 1000) ++ fraction (m mod 1000)
  end.

(** [s.replace(/\.0$/, '')]: a final ".0" is removed, anything else is
    left as it is. *)
Fixpoint replace_dot0_end (s : string) : string :=
  if String.eqb s ".0" then ""
  else match s with
       | EmptyString => EmptyString
       | String c rest => String c (replace_dot0_end rest)
       end.

Section ToFixed.

(** [Number::toString] on a finite value of magnitude at least 10^21 prints
    the shortest digits that identify the binary64 value, in exponent
    notation.  That depends on the binary representation, which the rational
    model leaves out, so the printer for that range is a parameter. *)
Variable exponent_notation : Q -> string.

(** [x.toFixed(1)] *)
Definition toFixed1 (x : number) : string :=
  match x with
  | NaN => "NaN"
  | Infinity false => "Infinity"
  | Infinity true => "-Infinity"
  | NegZero => "0.0"
  | Fin q =>
      if Qle_bool (inject_Z (10 ^ 21)) (Qabs q) then exponent_notation q
      else
        let n := Qround_half_up (Qabs q * 10) in
        (if Qltb q 0 then "-" else "") ++ decimal (n / 10) ++ "." ++ decimal (n mod 10)
  end.

End ToFixed.

End JS.

Import JS.

(** ** shared/base.js *)

Module Base.

(** [clamp(v, min, max)] *)
Definition clamp (v min max : number) : number :=
  Math_min max (Math_max min v).

(** The object [{ num, unit }] returned by [fmtYenParts]. *)
Record Parts : Type := { num : string; unit : string }.

(** [fmtYenParts(n)] *)
Definition fmtYenParts (n : number) : Parts :=
  let n := Math_round n in
  if ge n (of_Z 100000000) then
    let oku := Math_floor (div n (of_Z 100000000)) in
    let man := Math_round (div (rem n (of_Z 100000000)) (of_Z 10000)) in
    if strict_eq man (of_Z 0) then
      {| num := toLocaleString oku; unit := "億円" |}
    else
      {| num := toLocaleString oku ++ "億" ++ toLocaleString man; unit := "万円" |}
  else
    {| num := toLocaleString (Math_round (div n (of_Z 10000))); unit := "万円" |}.

(** [fmtYen(n)] *)
Definition fmtYen (n : number) : string :=
  let '{| num := num; unit := unit |} := fmtYenParts n in
  num ++ unit.

(** [fmtAxisYen(n)] *)
Definition fmtAxisYen (exponent_notation : Q -> string) (n : number) : string :=
  if ge n (of_Z 100000000) then
    replace_dot0_end (toFixed1 exponent_notation (div n (of_Z 100000000))) ++ "億"
  else
    toLocaleString (Math_round (div n (of_Z 10000))) ++ "万".

End Base.

Import Base.

(** *** Calls and their completion *)

Inductive error : Type := InvalidArgument.

(** How a call ends: with a value, or by throwing. *)
Inductive completion (A : Type) : Type :=
| Normal (v : A)
| Throw (e : error).
Arguments Normal {A} v.
Arguments Throw {A} e.

(** A call of [fmtYenParts]: its body has no [throw] and nothing it calls
    throws on a number, so the call completes with the returned object. *)
Definition call_fmtYenParts (n : number) : completion Parts :=
  Normal (fmtYenParts n).

(** [x < 0], or [x] is NaN. *)
Definition negative_or_NaN (x : number) : Prop :=
  x = NaN \/ lt x (of_Z 0) = true.

(** ** The host: frame callbacks and the text sink *)

Module Host.

(** What [animateNum] can see or change outside itself, for one run: the
    host's queue of frame callbacks (every queued entry is the run's [step]),
    the element's text, and the closure variable [rafId]. *)
Record state : Type := {
  last_handle : nat;       (* the last id [requestAnimationFrame] returned *)
  callbacks : list nat;    (* ids of the callbacks waiting for a frame *)
  textContent : list string; (* every value assigned to [el.textContent],
                                oldest first *)
  rafId : nat              (* the variable [rafId] of the closure *)
}.

Definition initial (k : nat) : state :=
  {| last_handle := k; callbacks := []; textContent := []; rafId := 0 |}.

(** [requestAnimationFrame(step)]: a fresh id, queued for the next frame. *)
Definition requestAnimationFrame (s : state) : nat * state :=
  let id := S (last_handle s) in
  (id, {| last_handle := id; callbacks := (callbacks s ++ [id])%list;
          textContent := textContent s; rafId := rafId s |}).

(** [cancelAnimationFrame(id)]: the entry is dropped if it is still queued. *)
Definition cancelAnimationFrame (id : nat) (s : state) : state :=
  {| last_handle := last_handle s;
     callbacks := filter (fun h => negb (Nat.eqb h id)) (callbacks s);
     textContent := textContent s; rafId := rafId s |}.

(** [el.textContent = text] *)
Definition set_textContent (text : string) (s : state) : state :=
  {| last_handle := last_handle s; callbacks := callbacks s;
     textContent := (textContent s ++ [text])%list; rafId := rafId s |}.

(** [rafId = id] *)
Definition set_rafId (id : nat) (s : state) : state :=
  {| last_handle := last_handle s; callbacks := callbacks s;
     textContent := textContent s; rafId := id |}.

End Host.

Import Host.

(** ** animateNum *)

Module Animation.

(** What the closure [step] captures: the arguments of [animateNum] (with
    [ms] already defaulted) and [t0].  The formatter is taken to be a pure
    function of its argument. *)
Record run : Type := {
  from : number;
  to : number;
  ms : number;
  fmt : option (number -> string);
  t0 : number
}.

Section Step.

Variable r : run.

(** [const p = Math.min((now - t0) / ms, 1)] *)
Definition p (now : number) : number :=
  Math_min (div (sub now (t0 r)) (ms r)) (of_Z 1).

(** [const ease = 1 - Math.pow(1 - p, 4)] *)
Definition ease (now : number) : number :=
  sub (of_Z 1) (Math_pow (sub (of_Z 1) (p now)) 4).

(** [const cur = Math.round(from + (to - from) * ease)] *)
Definition cur (now : number) : number :=
  Math_round (add (from r) (mul (sub (to r) (from r)) (ease now))).

(** [fmt ? fmt(cur) : cur.toLocaleString('ja-JP')] *)
Definition text (now : number) : string :=
  match fmt r with
  | Some f => f (cur now)
  | None => toLocaleString (cur now)
  end.

(** [step(now)] *)
Definition step (now : number) (s : state) : state :=
  let s := set_textContent (text now) s in
  if lt (p now) (of_Z 1) then
    let '(id, s) := requestAnimationFrame s in
    set_rafId id s
  else s.

(** One frame of the host at time [now]: the callbacks queued so far are
    taken off the queue and each is called with [now]; what they queue is
    for the next frame. *)
Definition frame (now : number) (s : state) : state :=
  fold_left (fun s _ => step now s) (callbacks s)
    {| last_handle := last_handle s; callbacks := [];
       textContent := textContent s; rafId := rafId s |}.

(** What happens after [animateNum] returned: the host runs a frame, or the
    caller cancels an id. *)
Inductive event : Type :=
| Frame (now : number)
| Cancel (id : nat).

Definition react (s : state) (e : event) : state :=
  match e with
  | Frame now => frame now s
  | Cancel id => cancelAnimationFrame id s
  end.

Definition exec (s : state) (events : list event) : state :=
  fold_left react events s.

End Step.

(** [animateNum(el, from, to, ms = 700, fmt = null)], called when the clock
    [performance.now()] reads [now]: the returned id, the closure and the
    state it leaves. *)
Definition animateNum (from to : number) (ms : option number)
    (fmt : option (number -> string)) (now : number) (s : state)
  : nat * run * state :=
  let ms := match ms with Some ms => ms | None => of_Z 700 end in
  let t0 := now in
  let r := {| from := from; to := to; ms := ms; fmt := fmt; t0 := t0 |} in
  let '(id, s) := requestAnimationFrame s in
  let s := set_rafId id s in
  (rafId s, r, s).

(** A run whose parameters are all finite. *)
Definition finite_run (f t m z : Q) (fmt : option (number -> string)) : run :=
  {| from := Fin f; to := Fin t; ms := Fin m; fmt := fmt; t0 := Fin z |}.

(** The value of [p] on such a run at the frame time [n]: capped at 1,
    with no lower bound. *)
Definition progress_min (z m n : Q) : Q := Qmin ((n - z) / m) 1.

End Animation.

Import Animation.

(** The ticks of a schedule of frame times that fire: the run takes every
    frame until the first one that does not ask for another. *)
Fixpoint fired (r : run) (schedule : list number) : list number :=
  match schedule with
  | [] => []
  | now :: rest => now :: (if lt (p r now) (of_Z 1) then fired r rest else [])
  end.

(** ** Finite numbers *)

(** [rep x a]: the number [x] is finite and its value is [a]. *)
Inductive rep : number -> Q -> Prop :=
| rep_NegZero (a : Q) : a == 0 -> rep NegZero a
| rep_Fin (q a : Q) : q == a -> rep (Fin q) a.

(** ** The specification's formulas *)

Module Spec.

(** "rounded to the nearest integer, half away from zero" *)
Definition round (a : Q) : Z :=
  if Qltb a 0 then - Qfloor (- a + (1 # 2)) else Qfloor (a + (1 # 2)).

(** "comma every 3 digits from the right": a comma follows a digit when
    the digits to its right make up whole groups of three. *)
Fixpoint separate (digits : list ascii) : list ascii :=
  match digits with
  | [] => []
  | d :: rest =>
      d :: (if negb (Nat.eqb (List.length rest) 0)
               && Nat.eqb (Nat.modulo (List.length rest) 3) 0
            then ","%char :: separate rest
            else separate rest)
  end.

(** "no decimal places for these integer inputs" *)
Definition groupDigits (n : Z) : string :=
  (if n <? 0 then "-" else "") ++
  string_of_list_ascii (separate (list_ascii_of_string (decimal (Z.abs n)))).

(** [decompose(amount)] as section 4.1 words it; the magnitude is the field
    [num] of the source's object. *)
Definition decompose (amount : Q) : Parts :=
  let n := round amount in
  if 100000000 <=? n then
    let oku := n / 100000000 in
    let man := round (inject_Z (n mod 100000000) / inject_Z 10000) in
    if man =? 0 then {| num := groupDigits oku; unit := "億円" |}
    else {| num := groupDigits oku ++ "億" ++ groupDigits man; unit := "万円" |}
  else {| num := groupDigits (round (inject_Z n / inject_Z 10000)); unit := "万円" |}.

(** A non-negative [x] "rounded to 1 decimal place, trailing .0 stripped",
    without grouping: [t] is the rounded number of tenths. *)
Definition one_decimal (x : Q) : string :=
  let t := round (x * 10) in
  if t mod 10 =? 0 then decimal (t / 10)
  else decimal (t / 10) ++ "." ++ decimal (t mod 10).

(** [formatAxisLabel(amount)] as section 4.1 words it. *)
Definition formatAxisLabel (amount : Q) : string :=
  if Qle_bool (inject_Z 100000000) amount then
    one_decimal (amount / inject_Z 100000000) ++ "億"
  else groupDigits (round (amount / inject_Z 10000)) ++ "万".

(** Section 4.2, on exact values.  [clamp(v, lo, hi)] *)
Definition clamp (v lo hi : Q) : Q := Qmin hi (Qmax lo v).

(** "progress = clamp((now - t0) / durationMs, 0, 1)" *)
Definition progress (now t0 durationMs : Q) : Q :=
  clamp ((now - t0) / durationMs) 0 1.

(** "eased = 1 - (1 - progress)^4" *)
Definition eased (progress : Q) : Q := (1 - (1 - progress) ^ 4)%Q.

(** "current = round(from + (to - from) * eased)", with the rounding of
    the platform. *)
Definition current (from to progress : Q) : number :=
  Math_round (Fin (from + (to - from) * eased progress)).

(** "formatter ? formatter(current) : groupDigits(current)" *)
Definition written (formatter : option (number -> string)) (current : number)
  : string :=
  match formatter with
  | Some f => f current
  | None => toLocaleString current
  end.

End Spec.

(** ** Binary64 arithmetic *)

(** The sum, difference, product and quotient of two numbers are the exact
    results rounded to the nearest binary64 value, ties to the even
    significand.  [B64] has this rounding, the four operations on it, and
    the embedding of the code whose results depend on it; [Math.round],
    [Math.floor], [Math.min], [%] and the comparisons are exact on binary64
    values and are those of [JS]. *)
Module B64.

(** [2^k] for an integer [k] of either sign. *)
Definition pow2 (k : Z) : Q := (2 ^ k)%Q.

(** The exponent [e] with [2^e <= q < 2^(e+1)], for [q > 0]. *)
Definition binade (q : Q) : Z :=
  let c := Z.log2 (Qnum q) - Z.log2 (Zpos (Qden q)) in
  if Qle_bool (pow2 c) q then c else c - 1.

(** The nearest integer, a tie going to the even one. *)
Definition nearest_even (x : Q) : Z :=
  let f := Qfloor x in
  match (x - inject_Z f ?= 1 # 2)%Q with
  | Lt => f
  | Gt => f + 1
  | Eq => if Z.even f then f else f + 1
  end.

(** The exponent of the binary64 format at [q]: never below -1022, where
    the subnormal range begins. *)
Definition exponent (q : Q) : Z := Z.max (binade (Qabs q)) (-1022).

(** The spacing of the binary64 values around [q]: 53 significant bits. *)
Definition ulp (q : Q) : Q := pow2 (exponent q - 52).

(** [|q|] in units of that spacing, rounded. *)
Definition significand (q : Q) : Z := nearest_even (Qabs q / ulp q).

(** The rounded [|q|], before the range of the format is looked at. *)
Definition magnitude (q : Q) : Q := (inject_Z (significand q) * ulp q)%Q.

(** The binary64 value nearest to the real [q]: Infinity from 2^1024 on,
    and a zero carrying the sign of [q] when [q] is too small. *)
Definition rnd (q : Q) : number :=
  if Qeq_bool q 0 then Fin 0
  else
    let s := Qltb q 0 in
    if Qle_bool (pow2 1024) (magnitude q) then Infinity s
    else if significand q =? 0 then zero s
    else Fin (Qred (if s then - magnitude q else magnitude q)).

(** An exact result brought to binary64: a finite value is rounded, an
    infinity, a negative zero and NaN stay. *)
Definition round (x : number) : number :=
  match x with
  | Fin q => rnd q
  | other => other
  end.

(** [x + y] *)
Definition add (x y : number) : number := round (JS.add x y).

(** [x - y] *)
Definition sub (x y : number) : number := add x (neg y).

(** [x * y] *)
Definition mul (x y : number) : number := round (JS.mul x y).

(** [x / y] *)
Definition div (x y : number) : number := round (JS.div x y).

(** The binary64 quotient of two reals, as a real (0 past the range). *)
Definition quotient (a b : Q) : Q := val (rnd (a / b)).

(** [fmtYenParts(n)] *)
Definition fmtYenParts (n : number) : Parts :=
  let n := Math_round n in
  if ge n (of_Z 100000000) then
    let oku := Math_floor (div n (of_Z 100000000)) in
    let man := Math_round (div (rem n (of_Z 100000000)) (of_Z 10000)) in
    if strict_eq man (of_Z 0) then
      {| num := toLocaleString oku; unit := "億円" |}
    else
      {| num := toLocaleString oku ++ "億" ++ toLocaleString man; unit := "万円" |}
  else
    {| num := toLocaleString (Math_round (div n (of_Z 10000))); unit := "万円" |}.

(** [fmtAxisYen(n)] *)
Definition fmtAxisYen (exponent_notation : Q -> string) (n : number) : string :=
  if ge n (of_Z 100000000) then
    replace_dot0_end (toFixed1 exponent_notation (div n (of_Z 100000000))) ++ "億"
  else
    toLocaleString (Math_round (div n (of_Z 10000))) ++ "万".

(** One way a platform computes [Math.pow(x, n)] for a small positive
    integer [n]: by repeated squaring, each product rounded. *)
Definition powi (x : number) (n : positive) : number := Pos.iter_op mul n x.

Section Step.

(** [Math.pow] is approximated by the platform: its results are those of
    the parameter [Math_pow], and a property that depends on them says
    what it takes them to be. *)
Variable Math_pow : number -> positive -> number.

Variable r : run.

(** [const p = Math.min((now - t0) / ms, 1)] *)
Definition p (now : number) : number :=
  Math_min (div (sub now (t0 r)) (ms r)) (of_Z 1).

(** [const ease = 1 - Math.pow(1 - p, 4)] *)
Definition ease (now : number) : number :=
  sub (of_Z 1) (Math_pow (sub (of_Z 1) (p now)) 4).

(** [const cur = Math.round(from + (to - from) * ease)] *)
Definition cur (now : number) : number :=
  Math_round (add (from r) (mul (sub (to r) (from r)) (ease now))).

(** [fmt ? fmt(cur) : cur.toLocaleString('ja-JP')] *)
Definition text (now : number) : string :=
  match fmt r with
  | Some f => f (cur now)
  | None => toLocaleString (cur now)
  end.

(** [step(now)] *)
Definition step (now : number) (s : state) : state :=
  let s := set_textContent (text now) s in
  if lt (p now) (of_Z 1) then
    let '(id, s) := requestAnimationFrame s in
    set_rafId id s
  else s.

(** One frame of the host at time [now]. *)
Definition frame (now : number) (s : state) : state :=
  fold_left (fun s _ => step now s) (callbacks s)
    {| last_handle := last_handle s; callbacks := [];
       textContent := textContent s; rafId := rafId s |}.

Definition react (s : state) (e : event) : state :=
  match e with
  | Frame now => frame now s
  | Cancel id => cancelAnimationFrame id s
  end.

Definition exec (s : state) (events : list event) : state :=
  fold_left react events s.

(** The ticks of a schedule of frame times that fire. *)
Fixpoint fired (schedule : list number) : list number :=
  match schedule with
  | [] => []
  | now :: rest => now :: (if lt (p now) (of_Z 1) then fired rest else [])
  end.

End Step.

End B64.

(** ** The specification's formulas in binary64 *)

Module Spec64.

(** [formatAxisLabel(amount)] with the quotients the platform computes:
    the binary64 quotient by 100,000,000 rounded to one decimal (printed by
    [exponent_notation] from 10^21 on), or the rounded binary64 quotient by
    10,000, grouped. *)
Definition formatAxisLabel (exponent_notation : Q -> string) (amount : Q)
  : string :=
  if Qle_bool (inject_Z 100000000) amount then
    let x := B64.quotient amount (inject_Z 100000000) in
    (if Qle_bool (inject_Z (10 ^ 21)) x
     then replace_dot0_end (exponent_notation x)
     else Spec.one_decimal x) ++ "億"
  else
    Spec.groupDigits (Spec.round (B64.quotient amount (inject_Z 10000))) ++ "万".

Section Tick.

Variable Math_pow : number -> positive -> number.

(** "progress = clamp((now - t0) / durationMs, 0, 1)" *)
Definition progress (now t0 durationMs : number) : number :=
  clamp (B64.div (B64.sub now t0) durationMs) (of_Z 0) (of_Z 1).

(** The same without the lower bound: [min((now - t0) / durationMs, 1)]. *)
Definition progress_min (now t0 durationMs : number) : number :=
  Math_min (B64.div (B64.sub now t0) durationMs) (of_Z 1).

(** "eased = 1 - (1 - progress)^4" *)
Definition eased (progress : number) : number :=
  B64.sub (of_Z 1) (Math_pow (B64.sub (of_Z 1) progress) 4).

(** "current = round(from + (to - from) * eased)" *)
Definition current (from to progress : number) : number :=
  Math_round (B64.add from (B64.mul (B64.sub to from) (eased progress))).

End Tick.

End Spec64.

(** ** updateSliderBg *)

Module Slider.

(** The attributes of the range input that [updateSliderBg] reads, as the
    strings the DOM holds, and the declarations of its inline style. *)
Record input : Type := {
  value : string;
  min : string;
  max : string;
  style : list (string * string)
}.

(** [el.style.setProperty(name, v)] for a custom property and a non-empty
    value: the declaration replaces any earlier one of that name. *)
Definition setProperty (name v : string) (el : input) : input :=
  {| value := value el; min := min el; max := max el;
     style := (name, v)
              :: filter (fun d => negb (String.eqb (fst d) name)) (style el) |}.

(** [el.style.getPropertyValue(name)] *)
Definition getPropertyValue (name : string) (el : input) : option string :=
  option_map snd (find (fun d => String.eqb (fst d) name) (style el)).

Section Platform.

(** The platform's [parseFloat], and [Number::toString] as string
    concatenation applies it to [pct]: both depend on the binary64
    representation and are parameters. *)
Variable parseFloat : string -> number.
Variable toString : number -> string.

(** [updateSliderBg(sl)] *)
Definition updateSliderBg (sl : input) : input :=
  let pct :=
    clamp
      (mul (div (sub (parseFloat (value sl)) (parseFloat (min sl)))
                (sub (parseFloat (max sl)) (parseFloat (min sl))))
           (of_Z 100))
      (of_Z 0) (of_Z 100) in
  setProperty "--pct" (toString pct ++ "%") sl.

End Platform.

End Slider.

(** ** updateChipsMask *)

Module Chips.

(** The scroll metrics of the element and the two mask properties of its
    inline style. *)
Record element : Type := {
  scrollWidth : number;
  clientWidth : number;
  scrollLeft : number;
  webkitMaskImage : string;
  maskImage : string
}.

Definition _CHIPS_FADE : string :=
  "linear-gradient(to right, black 0%, black calc(100% - 32px), transparent 100%)".

(** [x > y] *)
Definition gt (x y : number) : bool := lt y x.

(** [updateChipsMask(el)] *)
Definition updateChipsMask (el : element) : element :=
  let overflows := gt (scrollWidth el) (add (clientWidth el) (of_Z 2)) in
  let atEnd :=
    ge (add (scrollLeft el) (clientWidth el)) (sub (scrollWidth el) (of_Z 2)) in
  let mask := if overflows && negb atEnd then _CHIPS_FADE else "" in
  {| scrollWidth := scrollWidth el; clientWidth := clientWidth el;
     scrollLeft := scrollLeft el;
     webkitMaskImage := mask; maskImage := mask |}.

End Chips.

(** ** showToast *)

Module Toast.

(** A DOM element, by identity. *)
Definition element : Type := nat.

(** What [showToast] changes on an element: its text and whether its class
    list holds 'show'. *)
Record node : Type := { text : string; show : bool }.

(** The page as [showToast] sees it: the clock and the pending timeouts of
    the host (id, due time, and the element whose 'show' the callback
    removes), the elements, the element with id 'ds-toast' if there is
    one, and the module variable [_toastTimer]. *)
Record state : Type := {
  now : Z;
  last_timer : nat;
  timers : list (nat * Z * element);
  nodes : element -> node;
  ds_toast : option element;
  _toastTimer : option nat
}.

(** [t.textContent = msg; t.classList.add('show')] *)
Definition show_message (t : element) (msg : string) (s : state) : state :=
  {| now := now s; last_timer := last_timer s; timers := timers s;
     nodes := fun e => if Nat.eqb e t then {| text := msg; show := true |}
                       else nodes s e;
     ds_toast := ds_toast s; _toastTimer := _toastTimer s |}.

(** [t.classList.remove('show')] *)
Definition hide (t : element) (s : state) : state :=
  {| now := now s; last_timer := last_timer s; timers := timers s;
     nodes := fun e => if Nat.eqb e t
                       then {| text := text (nodes s e); show := false |}
                       else nodes s e;
     ds_toast := ds_toast s; _toastTimer := _toastTimer s |}.

(** [clearTimeout(id)]; [null] and ids that are not pending do nothing. *)
Definition clearTimeout (id : option nat) (s : state) : state :=
  match id with
  | None => s
  | Some id =>
      {| now := now s; last_timer := last_timer s;
         timers := filter (fun tm => negb (Nat.eqb (fst (fst tm)) id)) (timers s);
         nodes := nodes s; ds_toast := ds_toast s;
         _toastTimer := _toastTimer s |}
  end.

(** The delay of [setTimeout] is a [long]: an integer is taken modulo 2^32
    into the range from -2^31 up to 2^31. *)
Definition to_long (d : Z) : Z := (d + 2 ^ 31) mod 2 ^ 32 - 2 ^ 31.

(** [setTimeout(() => t.classList.remove('show'), duration)]: a fresh id,
    due after the delay, or at once when the delay is negative. *)
Definition setTimeout (t : element) (duration : Z) (s : state) : nat * state :=
  let id := S (last_timer s) in
  (id, {| now := now s; last_timer := id;
          timers := (timers s ++ [(id, now s + Z.max 0 (to_long duration), t)])%list;
          nodes := nodes s; ds_toast := ds_toast s;
          _toastTimer := _toastTimer s |}).

(** [showToast(msg, duration = 2600, el = null)] *)
Definition showToast (msg : string) (duration : option Z)
    (el : option element) (s : state) : state :=
  let duration := match duration with Some d => d | None => 2600 end in
  let t := match el with Some e => Some e | None => ds_toast s end in
  match t with
  | None => s
  | Some t =>
      let s := show_message t msg s in
      let s := clearTimeout (_toastTimer s) s in
      let '(id, s) := setTimeout t duration s in
      {| now := now s; last_timer := last_timer s; timers := timers s;
         nodes := nodes s; ds_toast := ds_toast s; _toastTimer := Some id |}
  end.

(** The timers due by [to], earliest first. *)
Fixpoint insert_due (tm : nat * Z * element) (l : list (nat * Z * element))
  : list (nat * Z * element) :=
  match l with
  | [] => [tm]
  | x :: rest =>
      if snd (fst tm) <? snd (fst x) then tm :: l else x :: insert_due tm rest
  end.

Definition due_by (to : Z) (s : state) : list (nat * Z * element) :=
  fold_right insert_due []
    (filter (fun tm => snd (fst tm) <=? to) (timers s)).

(** The host lets time pass until [to]: the timeouts due by then run, in
    order, and leave the list. *)
Definition advance (to : Z) (s : state) : state :=
  fold_left (fun s tm => hide (snd tm) s) (due_by to s)
    {| now := Z.max (now s) to; last_timer := last_timer s;
       timers := filter (fun tm => negb (snd (fst tm) <=? to)) (timers s);
       nodes := nodes s; ds_toast := ds_toast s;
       _toastTimer := _toastTimer s |}.

Inductive event : Type :=
| Show (msg : string) (duration : option Z) (el : option element)
| Advance (to : Z).

Definition react (s : state) (e : event) : state :=
  match e with
  | Show msg duration el => showToast msg duration el s
  | Advance to => advance to s
  end.

Definition run (s : state) (events : list event) : state :=
  fold_left react events s.

(** At most one timeout is pending, and it is the one [_toastTimer]
    names. *)
Definition single_timer (s : state) : Prop :=
  timers s = [] \/
  exists id due t, timers s = [(id, due, t)] /\ _toastTimer s = Some id.

End Toast.

(** ** fireConfetti *)

Module Confetti.

Definition colors : list string :=
  ["#a8d5ba"; "#4a8c6f"; "#d4ede3"; "#e8f5f1"; "#7fc49e"; "#2d7a5a"].

(** [colors[x]] for a number [x]: the element at an integer index in range,
    [undefined] otherwise. *)
Definition at_index (x : number) : option string :=
  match x with
  | NegZero => nth_error colors 0
  | Fin q =>
      if Qeq_bool q (inject_Z (Qfloor q)) && (0 <=? Qfloor q)
      then nth_error colors (Z.to_nat (Qfloor q))
      else None
  | _ => None
  end.

(** A created [div]: its class name and the text assigned to
    [style.cssText]. *)
Record piece : Type := { className : string; cssText : string }.

(** The page as [fireConfetti] sees it: the clock and the pending timeouts
    of the host (id, due time, and the node the callback removes), the
    children of [#ds-confetti] with their identities, the last node
    created, and how many numbers [Math.random] has handed out. *)
Record state : Type := {
  now : Z;
  last_timer : nat;
  timers : list (nat * Z * nat);
  children : list (nat * piece);
  last_node : nat;
  draws : nat
}.

Section Platform.

(** [random n] is the value of the [n]-th call of [Math.random]; [toString]
    is [Number::toString], which the template literals apply. *)
Variable random : nat -> number.
Variable toString : number -> string.

(** The array joined into [cssText], the first of its seven draws being
    number [d]. *)
Definition css (d : nat) : string :=
  String.concat ";"
    [ "left:" ++ toString (add (of_Z 10) (mul (random d) (of_Z 80))) ++ "%";
      "top:-10px";
      "width:" ++ toString (add (of_Z 6) (mul (random (d + 1)) (of_Z 8))) ++ "px";
      "height:" ++ toString (add (of_Z 6) (mul (random (d + 2)) (of_Z 8))) ++ "px";
      "background:" ++
        match at_index (Math_floor (mul (random (d + 3))
                                        (of_Z (Z.of_nat (List.length colors)))))
        with
        | Some c => c
        | None => "undefined"
        end;
      "border-radius:" ++
        (if lt (Fin (1 # 2)) (random (d + 4)) then "50%" else "2px");
      "animation-duration:" ++
        toString (add (Fin (12 # 10)) (mul (random (d + 5)) (Fin (13 # 10)))) ++ "s";
      "animation-delay:" ++ toString (mul (random (d + 6)) (Fin (1 # 2))) ++ "s" ].

(** The body of the loop: create the piece, append it, and ask for its
    removal 3000 ms later. *)
Definition body (s : state) : state :=
  let c := S (last_node s) in
  let id := S (last_timer s) in
  {| now := now s; last_timer := id;
     timers := (timers s ++ [(id, now s + 3000, c)])%list;
     children :=
       (children s ++
        [(c, {| className := "ds-confetti-piece"; cssText := css (draws s) |})])%list;
     last_node := c;
     draws := draws s + 7 |}.

(** [for (let i = ...; i < count; i++) body], with a bound on the number of
    iterations: [None] when the bound is reached before the test fails.
    The counter is a number, and [i++] adds 1 to it in binary64. *)
Fixpoint loop (fuel : nat) (i : number) (count : number) (s : state)
  : option state :=
  if lt i count then
    match fuel with
    | O => None
    | S fuel => loop fuel (B64.add i (of_Z 1)) count (body s)
    end
  else Some s.

(** [fireConfetti(count = 60)]; [wrap] tells whether [#ds-confetti]
    exists. *)
Definition fireConfetti (fuel : nat) (count : option number) (wrap : bool)
    (s : state) : option state :=
  let count := match count with Some c => c | None => of_Z 60 end in
  if negb wrap then Some s else loop fuel (of_Z 0) count s.

End Platform.

(** [c.remove()] *)
Definition remove (c : nat) (s : state) : state :=
  {| now := now s; last_timer := last_timer s; timers := timers s;
     children := filter (fun n => negb (Nat.eqb (fst n) c)) (children s);
     last_node := last_node s; draws := draws s |}.

(** The host lets time pass until [to]: the timeouts due by then run and
    leave the list. *)
Definition advance (to : Z) (s : state) : state :=
  fold_left (fun s tm => remove (snd tm) s)
    (filter (fun tm => snd (fst tm) <=? to) (timers s))
    {| now := Z.max (now s) to; last_timer := last_timer s;
       timers := filter (fun tm => negb (snd (fst tm) <=? to)) (timers s);
       children := children s; last_node := last_node s; draws := draws s |}.

End Confetti.

(** * Proofs *)

(** ** Facts about the number model *)

Lemma Qltb_lt (a b : Q) : Qltb a b = true <-> (a < b)%Q.
Proof.
  unfold Qltb. rewrite negb_true_iff. split; intro H.
  - apply Qnot_le_lt. intro L. apply Qle_bool_iff in L. congruence.
  - destruct (Qle_bool b a) eqn:E; [|reflexivity].
    apply Qle_bool_iff in E. exfalso. apply (Qlt_not_le _ _ H E).
Qed.

Lemma Qltb_ge (a b : Q) : Qltb a b = false <-> (b <= a)%Q.
Proof.
  unfold Qltb. rewrite negb_false_iff. apply Qle_bool_iff.
Qed.

Ltac number_cases :=
  repeat match goal with
         | x : number |- _ => destruct x as [|[|]| |?]
         end;
  simpl in *; try discriminate; try congruence; try reflexivity.

Ltac Qltb_cases :=
  repeat match goal with
         | |- context [Qltb ?a ?b] =>
             let E := fresh "E" in
             destruct (Qltb a b) eqn:E;
             [apply Qltb_lt in E | apply Qltb_ge in E]; simpl
         | H : context [Qltb ?a ?b] |- _ =>
             let E := fresh "E" in
             destruct (Qltb a b) eqn:E;
             [apply Qltb_lt in E | apply Qltb_ge in E]; simpl in H
         end;
  try discriminate; try reflexivity; try (exfalso; lra).

Lemma Qltb_inject_Z (n m : Z) : Qltb (inject_Z n) (inject_Z m) = (n <? m).
Proof.
  destruct (n <? m) eqn:E.
  - apply Qltb_lt. rewrite <- Zlt_Qlt. lia.
  - apply Qltb_ge. rewrite <- Zle_Qle. lia.
Qed.

Lemma Qeq_bool_inject_Z (n : Z) : Qeq_bool (inject_Z n) 0 = (n =? 0).
Proof.
  unfold Qeq_bool, inject_Z. simpl. rewrite Z.mul_1_r. reflexivity.
Qed.

Lemma fin_inject_Z (s : bool) (n : Z) :
  fin s (inject_Z n) = if n =? 0 then zero s else of_Z n.
Proof. unfold fin. rewrite Qeq_bool_inject_Z. reflexivity. Qed.

Lemma fin_false_nonneg (n : Z) : fin false (inject_Z n) = of_Z n.
Proof.
  rewrite fin_inject_Z. destruct (n =? 0) eqn:E; [|reflexivity].
  apply Z.eqb_eq in E. subst. reflexivity.
Qed.

Lemma Qfloor_half_inject_Z (n : Z) : Qfloor (inject_Z n + (1 # 2)) = n.
Proof.
  unfold Qfloor, inject_Z, Qplus. simpl.
  replace (n * 2 + 1) with (1 + n * 2) by lia.
  rewrite Z.div_add by lia. reflexivity.
Qed.

Lemma Qfloor_div_inject_Z (n m : Z) :
  0 < m -> Qfloor (inject_Z n / inject_Z m) = n / m.
Proof.
  intro Hm. destruct m as [|p|p]; try lia.
  unfold Qfloor, Qdiv, Qmult, Qinv, inject_Z. simpl.
  rewrite Z.mul_1_r. reflexivity.
Qed.

(** [Math.round] of a finite number: the integer [floor(q + 1/2)], as
    negative zero when that is 0 and [q] is negative. *)
Lemma Math_round_Fin (q : Q) :
  Math_round (Fin q) =
  let z := Qfloor (q + (1 # 2)) in
  if (z =? 0) && Qltb q 0 then NegZero else of_Z z.
Proof.
  cbv zeta. unfold Math_round. rewrite fin_inject_Z.
  destruct (Qfloor (q + (1 # 2)) =? 0) eqn:E; [|reflexivity].
  apply Z.eqb_eq in E. rewrite E. destruct (Qltb q 0); reflexivity.
Qed.

Lemma Math_round_nonneg (q : Q) :
  (0 <= q)%Q -> Math_round (Fin q) = of_Z (Qfloor (q + (1 # 2))).
Proof.
  intro H. rewrite Math_round_Fin. cbv zeta.
  apply Qltb_ge in H. rewrite H, andb_false_r. reflexivity.
Qed.

Lemma Math_round_of_Z (n : Z) : Math_round (of_Z n) = of_Z n.
Proof.
  unfold of_Z. rewrite Math_round_Fin. cbv zeta.
  rewrite Qfloor_half_inject_Z.
  destruct (n =? 0) eqn:E; [|reflexivity].
  apply Z.eqb_eq in E. subst. reflexivity.
Qed.

Lemma ge_of_Z (n m : Z) : ge (of_Z n) (of_Z m) = (m <=? n).
Proof.
  unfold ge, lt, of_Z, val. rewrite Qltb_inject_Z.
  rewrite Z.ltb_antisym, negb_involutive. reflexivity.
Qed.

Lemma strict_eq_of_Z (n m : Z) : strict_eq (of_Z n) (of_Z m) = (n =? m).
Proof.
  unfold strict_eq, lt, of_Z, val. rewrite !Qltb_inject_Z.
  destruct (n =? m) eqn:E.
  - apply Z.eqb_eq in E. subst. rewrite Z.ltb_irrefl. reflexivity.
  - apply Z.eqb_neq in E.
    destruct (n <? m) eqn:E1; [reflexivity|].
    destruct (m <? n) eqn:E2; [reflexivity|]. lia.
Qed.

Lemma signbit_of_Z (n : Z) : signbit (of_Z n) = (n <? 0).
Proof. unfold signbit, of_Z. apply (Qltb_inject_Z n 0). Qed.

Lemma is_zero_of_Z (n : Z) : is_zero (of_Z n) = (n =? 0).
Proof. unfold is_zero, of_Z. apply Qeq_bool_inject_Z. Qed.

(** Division of integer-valued numbers by a positive integer. *)
Lemma div_of_Z (n m : Z) :
  0 < m ->
  div (of_Z n) (of_Z m) = fin (n <? 0) (inject_Z n / inject_Z m).
Proof.
  intro Hm. unfold div.
  change (match of_Z n with NaN => NaN | _ => _ end)
    with (if is_zero (of_Z m)
          then if is_zero (of_Z n) then NaN
               else Infinity (xorb (signbit (of_Z n)) (signbit (of_Z m)))
          else fin (xorb (signbit (of_Z n)) (signbit (of_Z m)))
                 (val (of_Z n) / val (of_Z m))).
  rewrite is_zero_of_Z, !signbit_of_Z.
  replace (m =? 0) with false by (symmetry; apply Z.eqb_neq; lia).
  replace (m <? 0) with false by (symmetry; apply Z.ltb_ge; lia).
  rewrite xorb_false_r. reflexivity.
Qed.

Lemma Math_floor_fin_false (q : Q) :
  Math_floor (fin false q) = of_Z (Qfloor q).
Proof.
  unfold fin. destruct (Qeq_bool q 0) eqn:E; [|reflexivity].
  apply Qeq_bool_iff in E. simpl. unfold of_Z.
  rewrite (Qfloor_comp _ _ E). reflexivity.
Qed.

Lemma Math_round_fin_false (q : Q) :
  (0 <= q)%Q -> Math_round (fin false q) = of_Z (Qfloor (q + (1 # 2))).
Proof.
  intro H. unfold fin. destruct (Qeq_bool q 0) eqn:E.
  - apply Qeq_bool_iff in E. simpl zero. rewrite Math_round_nonneg by lra.
    f_equal. apply Qfloor_comp. rewrite E. reflexivity.
  - apply Math_round_nonneg, H.
Qed.

(** The remainder of non-negative integers is [Z.modulo]. *)
Lemma rem_of_Z (n m : Z) :
  0 <= n -> 0 < m -> rem (of_Z n) (of_Z m) = of_Z (n mod m).
Proof.
  intros Hn Hm. unfold rem.
  change (match of_Z n with NaN => NaN | _ => _ end)
    with (if is_zero (of_Z m) then NaN
          else if is_zero (of_Z n) then of_Z n
          else fin (signbit (of_Z n))
                 (val (of_Z n) -
                  val (of_Z m) * inject_Z (Qtrunc (val (of_Z n) / val (of_Z m))))).
  rewrite !is_zero_of_Z, signbit_of_Z.
  replace (m =? 0) with false by (symmetry; apply Z.eqb_neq; lia).
  replace (n <? 0) with false by (symmetry; apply Z.ltb_ge; lia).
  destruct (n =? 0) eqn:E.
  - apply Z.eqb_eq in E. subst. rewrite Z.mod_0_l by lia. reflexivity.
  - assert (T : Qtrunc (val (of_Z n) / val (of_Z m)) = n / m).
    { unfold Qtrunc, of_Z, val.
      assert (P : (0 <= inject_Z n / inject_Z m)%Q).
      { apply Qle_shift_div_l.
        - change 0%Q with (inject_Z 0). rewrite <- Zlt_Qlt. lia.
        - rewrite Qmult_0_l. change 0%Q with (inject_Z 0).
          rewrite <- Zle_Qle. lia. }
      apply Qltb_ge in P. rewrite P. apply Qfloor_div_inject_Z, Hm. }
    rewrite T. unfold of_Z, val.
    replace (inject_Z n - inject_Z m * inject_Z (n / m))%Q
      with (inject_Z (n mod m)).
    + apply fin_false_nonneg.
    + unfold inject_Z, Qminus, Qplus, Qmult, Qopp. simpl.
      f_equal. rewrite Z.mod_eq by lia. lia.
Qed.

Lemma append_empty_r (s : string) : s ++ "" = s.
Proof. induction s as [|c s IH]; simpl; [reflexivity | now rewrite IH]. Qed.

Lemma Qnonneg_div (n m : Z) : 0 <= n -> 0 < m -> (0 <= inject_Z n / inject_Z m)%Q.
Proof.
  intros Hn Hm. apply Qle_shift_div_l.
  - change 0%Q with (inject_Z 0). rewrite <- Zlt_Qlt. lia.
  - rewrite Qmult_0_l. change 0%Q with (inject_Z 0). rewrite <- Zle_Qle. lia.
Qed.

(** An integer prints as its sign and its grouped magnitude, with no
    fraction digits. *)
Lemma toLocaleString_of_Z (z : Z) :
  toLocaleString (of_Z z) = (if z <? 0 then "-" else "") ++ grouped (Z.abs z).
Proof.
  unfold toLocaleString, of_Z. cbv zeta.
  change (Qltb (inject_Z z) 0) with (Qltb (inject_Z z) (inject_Z 0)).
  rewrite Qltb_inject_Z.
  assert (M : Qround_half_up (Qabs (inject_Z z) * 1000) = Z.abs z * 1000).
  { unfold Qround_half_up.
    replace (Qabs (inject_Z z) * 1000)%Q with (inject_Z (Z.abs z * 1000)).
    - apply Qfloor_half_inject_Z.
    - unfold inject_Z, Qabs, Qmult. simpl. reflexivity. }
  rewrite M, Z.div_mul, Z.mod_mul by lia.
  simpl fraction. rewrite append_empty_r. reflexivity.
Qed.

(** ** Finite numbers and the rationals they stand for *)

#[local] Hint Constructors rep : core.

Lemma rep_refl (q : Q) : rep (Fin q) q.
Proof. constructor. reflexivity. Qed.

Lemma rep_of_Z (z : Z) : rep (of_Z z) (inject_Z z).
Proof. apply rep_refl. Qed.

Lemma rep_val (x : number) (a : Q) : rep x a -> val x == a.
Proof. intros [b H | q b H]; simpl; [symmetry|]; exact H. Qed.

Lemma rep_eq (x : number) (a b : Q) : rep x a -> a == b -> rep x b.
Proof.
  intros [c H | q c H] E; constructor.
  - rewrite <- E. exact H.
  - rewrite H. exact E.
Qed.

Lemma rep_zero (s : bool) (a : Q) : a == 0 -> rep (zero s) a.
Proof. intro H. destruct s; constructor; [|symmetry]; exact H. Qed.

Lemma rep_fin (s : bool) (q a : Q) : q == a -> rep (fin s q) a.
Proof.
  intro H. unfold fin. destruct (Qeq_bool q 0) eqn:E.
  - apply Qeq_bool_iff in E. apply rep_zero. rewrite <- H. exact E.
  - constructor. exact H.
Qed.

Lemma Qltb_comp (a a' b b' : Q) : a == a' -> b == b' -> Qltb a b = Qltb a' b'.
Proof. intros Ha Hb. unfold Qltb. now rewrite Ha, Hb. Qed.

Lemma is_zero_rep (x : number) (a : Q) : rep x a -> is_zero x = Qeq_bool a 0.
Proof.
  intros [b H | q b H]; simpl.
  - symmetry. apply Qeq_bool_iff. exact H.
  - now rewrite H.
Qed.

Lemma lt_rep (x y : number) (a b : Q) :
  rep x a -> rep y b -> lt x y = Qltb a b.
Proof.
  intros Hx Hy. pose proof (rep_val _ _ Hx) as Vx.
  pose proof (rep_val _ _ Hy) as Vy.
  destruct Hx, Hy; simpl in *; apply Qltb_comp; assumption.
Qed.

Lemma rep_neg (x : number) (a : Q) : rep x a -> rep (neg x) (- a).
Proof.
  intros [b H | q b H]; simpl.
  - constructor. rewrite H. reflexivity.
  - destruct (Qeq_bool q 0) eqn:E.
    + apply Qeq_bool_iff in E. constructor. rewrite <- H, E. reflexivity.
    + constructor. now rewrite H.
Qed.

Lemma rep_add (x y : number) (a b : Q) :
  rep x a -> rep y b -> rep (add x y) (a + b).
Proof.
  intros [a' Ha | q a' Ha] [b' Hb | q' b' Hb]; simpl; constructor.
  - rewrite Ha, Hb. reflexivity.
  - rewrite Ha, Hb. ring.
  - rewrite Ha, Hb. ring.
  - now rewrite Ha, Hb.
Qed.

Lemma rep_sub (x y : number) (a b : Q) :
  rep x a -> rep y b -> rep (sub x y) (a - b).
Proof. intros Hx Hy. apply rep_add; [|apply rep_neg]; assumption. Qed.

Lemma rep_mul (x y : number) (a b : Q) :
  rep x a -> rep y b -> rep (mul x y) (a * b).
Proof.
  intros Hx Hy. pose proof (rep_val _ _ Hx) as Vx.
  pose proof (rep_val _ _ Hy) as Vy.
  assert (M : mul x y = fin (xorb (signbit x) (signbit y)) (val x * val y))
    by (destruct Hx, Hy; reflexivity).
  rewrite M. apply rep_fin. now rewrite Vx, Vy.
Qed.

Lemma rep_div (x y : number) (a b : Q) :
  rep x a -> rep y b -> ~ b == 0 -> rep (div x y) (a / b).
Proof.
  intros Hx Hy Nz. pose proof (rep_val _ _ Hx) as Vx.
  pose proof (rep_val _ _ Hy) as Vy.
  pose proof (is_zero_rep _ _ Hy) as Zy.
  assert (Z0 : is_zero y = false).
  { rewrite Zy. destruct (Qeq_bool b 0) eqn:E; [|reflexivity].
    apply Qeq_bool_iff in E. contradiction. }
  assert (M : div x y =
              if is_zero y then
                if is_zero x then NaN
                else Infinity (xorb (signbit x) (signbit y))
              else fin (xorb (signbit x) (signbit y)) (val x / val y))
    by (destruct Hx, Hy; reflexivity).
  rewrite M, Z0. apply rep_fin. now rewrite Vx, Vy.
Qed.

Lemma rep_Math_min (x y : number) (a b : Q) :
  rep x a -> rep y b -> rep (Math_min x y) (Qmin a b).
Proof.
  intros Hx Hy. pose proof (lt_rep _ _ _ _ Hx Hy) as L1.
  pose proof (lt_rep _ _ _ _ Hy Hx) as L2.
  assert (M : Math_min x y =
              if lt x y then x else if lt y x then y
              else if signbit x then x else y)
    by (destruct Hx, Hy; reflexivity).
  rewrite M, L1, L2.
  destruct (Qltb a b) eqn:E1.
  - apply Qltb_lt in E1. apply (rep_eq _ _ _ Hx).
    symmetry. apply Q.min_l. lra.
  - apply Qltb_ge in E1. destruct (Qltb b a) eqn:E2.
    + apply (rep_eq _ _ _ Hy). symmetry. apply Q.min_r. lra.
    + apply Qltb_ge in E2. assert (a == b) by lra.
      destruct (signbit x).
      * apply (rep_eq _ _ _ Hx). symmetry. apply Q.min_l. lra.
      * apply (rep_eq _ _ _ Hy). symmetry. apply Q.min_r. lra.
Qed.

Lemma rep_Math_max (x y : number) (a b : Q) :
  rep x a -> rep y b -> rep (Math_max x y) (Qmax a b).
Proof.
  intros Hx Hy. pose proof (lt_rep _ _ _ _ Hx Hy) as L1.
  pose proof (lt_rep _ _ _ _ Hy Hx) as L2.
  assert (M : Math_max x y =
              if lt x y then y else if lt y x then x
              else if signbit x then y else x)
    by (destruct Hx, Hy; reflexivity).
  rewrite M, L1, L2.
  destruct (Qltb a b) eqn:E1.
  - apply Qltb_lt in E1. apply (rep_eq _ _ _ Hy).
    symmetry. apply Q.max_r. lra.
  - apply Qltb_ge in E1. destruct (Qltb b a) eqn:E2.
    + apply (rep_eq _ _ _ Hx). symmetry. apply Q.max_l. lra.
    + apply Qltb_ge in E2. assert (a == b) by lra.
      destruct (signbit x).
      * apply (rep_eq _ _ _ Hy). symmetry. apply Q.max_r. lra.
      * apply (rep_eq _ _ _ Hx). symmetry. apply Q.max_l. lra.
Qed.

(** The source's [clamp] computes the specification's clamp on finite
    numbers. *)
Lemma rep_clamp (v lo hi : number) (a b c : Q) :
  rep v a -> rep lo b -> rep hi c ->
  rep (clamp v lo hi) (Spec.clamp a b c).
Proof.
  intros Hv Hlo Hhi. unfold clamp, Spec.clamp.
  apply rep_Math_min; [exact Hhi|].
  apply rep_Math_max; assumption.
Qed.

(** [x <= y] between finite numbers is the order of their values. *)
Lemma le_rep (x y : number) (a b : Q) :
  rep x a -> rep y b -> (le x y = true <-> (a <= b)%Q).
Proof.
  intros Hx Hy. unfold le.
  assert (G : ge y x = negb (lt y x)) by (destruct Hx, Hy; reflexivity).
  rewrite G, (lt_rep _ _ _ _ Hy Hx), negb_true_iff. apply Qltb_ge.
Qed.

Lemma Spec_round_nonneg (a : Q) :
  (0 <= a)%Q -> Spec.round a = Qfloor (a + (1 # 2)).
Proof. intro H. unfold Spec.round. apply Qltb_ge in H. now rewrite H. Qed.

Lemma Qfloor_half_nonneg (a : Q) : (0 <= a)%Q -> 0 <= Qfloor (a + (1 # 2)).
Proof.
  intro H. change 0 with (Qfloor 0). apply Qfloor_resp_le. lra.
Qed.

Lemma rep_cases (x : number) (a : Q) :
  rep x a -> (x = NegZero /\ a == 0) \/ exists q, x = Fin q /\ q == a.
Proof.
  intros [b H | q b H]; [left | right; exists q]; split; trivial.
Qed.

Lemma Qfloor_unique (x : Q) (z : Z) :
  (inject_Z z <= x)%Q -> (x < inject_Z (z + 1))%Q -> Qfloor x = z.
Proof.
  intros L U.
  pose proof (Qfloor_le x) as F1. pose proof (Qlt_floor x) as F2.
  assert (A : (inject_Z z < inject_Z (Qfloor x + 1))%Q) by lra.
  assert (B : (inject_Z (Qfloor x) < inject_Z (z + 1))%Q) by lra.
  rewrite <- Zlt_Qlt in A, B. lia.
Qed.

(** ** Binary64 rounding *)

Section Rounding.

Local Open Scope Q_scope.

Lemma pow2_pos (k : Z) : 0 < B64.pow2 k.
Proof. apply Qpower_0_lt. reflexivity. Qed.

Lemma pow2_add (a b : Z) : B64.pow2 (a + b) == B64.pow2 a * B64.pow2 b.
Proof. apply Qpower_plus. discriminate. Qed.

Lemma pow2_le (a b : Z) : (a <= b)%Z -> B64.pow2 a <= B64.pow2 b.
Proof. intro H. apply Qpower_le_compat_l; [exact H | discriminate]. Qed.

Lemma pow2_lt_inv (a b : Z) : B64.pow2 a < B64.pow2 b -> (a < b)%Z.
Proof. intro H. apply (Qpower_lt_compat_l_inv 2); [exact H | reflexivity]. Qed.

Lemma pow2_Z (d : Z) : (0 <= d)%Z -> B64.pow2 d == inject_Z (2 ^ d).
Proof. intro H. unfold B64.pow2. rewrite Zpower_Qpower by exact H. reflexivity. Qed.

(** The exponent found by [binade] brackets its argument. *)
Lemma binade_spec (q : Q) :
  0 < q -> B64.pow2 (B64.binade q) <= q /\ q < B64.pow2 (B64.binade q + 1).
Proof.
  intro Hq. destruct q as [n d]. unfold B64.binade. cbn [Qnum Qden].
  assert (Hn : (0 < n)%Z) by (unfold Qlt in Hq; simpl in Hq; lia).
  pose proof (Z.log2_spec n Hn) as [A1 A2].
  pose proof (Z.log2_spec (Zpos d) (Pos2Z.is_pos d)) as [B1 B2].
  pose proof (Z.log2_nonneg n) as A0.
  pose proof (Z.log2_nonneg (Zpos d)) as B0.
  set (a := Z.log2 n) in *. set (b := Z.log2 (Zpos d)) in *.
  assert (E : n # d == inject_Z n / inject_Z (Zpos d)) by apply Qmake_Qdiv.
  assert (D : 0 < inject_Z (Zpos d)) by reflexivity.
  assert (PA1 : B64.pow2 a <= inject_Z n)
    by (rewrite pow2_Z by lia; rewrite <- Zle_Qle; exact A1).
  assert (PA2 : inject_Z n < B64.pow2 (a + 1))
    by (rewrite pow2_Z by lia; rewrite <- Zlt_Qlt; exact A2).
  assert (PB1 : B64.pow2 b <= inject_Z (Zpos d))
    by (rewrite pow2_Z by lia; rewrite <- Zle_Qle; exact B1).
  assert (PB2 : inject_Z (Zpos d) < B64.pow2 (b + 1))
    by (rewrite pow2_Z by lia; rewrite <- Zlt_Qlt; exact B2).
  destruct (Qle_bool (B64.pow2 (a - b)) (n # d)) eqn:T.
  - apply Qle_bool_iff in T. split; [exact T|].
    rewrite E. apply Qlt_shift_div_r; [exact D|].
    eapply Qlt_le_trans; [exact PA2|].
    replace (a + 1)%Z with ((a - b + 1) + b)%Z by lia.
    rewrite pow2_add. apply Qmult_le_l; [apply pow2_pos | exact PB1].
  - assert (T' : n # d < B64.pow2 (a - b)).
    { apply Qnot_le_lt. intro L. apply Qle_bool_iff in L. congruence. }
    split.
    + rewrite E. apply Qle_shift_div_l; [exact D|].
      eapply Qle_trans; [|exact PA1].
      replace a with ((a - b - 1) + (b + 1))%Z at 2 by lia.
      rewrite pow2_add. apply Qmult_le_l; [apply pow2_pos|].
      apply Qlt_le_weak, PB2.
    + replace (a - b - 1 + 1)%Z with (a - b)%Z by lia. exact T'.
Qed.

Lemma binade_lower (q : Q) (lo : Z) :
  0 < q -> B64.pow2 lo <= q -> (lo <= B64.binade q)%Z.
Proof.
  intros Hq H. destruct (binade_spec q Hq) as [_ U].
  assert (L : B64.pow2 lo < B64.pow2 (B64.binade q + 1)) by lra.
  apply pow2_lt_inv in L. lia.
Qed.

Lemma binade_upper (q : Q) (hi : Z) :
  0 < q -> q < B64.pow2 hi -> (B64.binade q < hi)%Z.
Proof.
  intros Hq H. destruct (binade_spec q Hq) as [L _].
  assert (U : B64.pow2 (B64.binade q) < B64.pow2 hi) by lra.
  apply pow2_lt_inv in U. exact U.
Qed.

(** Rounding to the nearest integer: at most one half away, and never
    across an integer. *)
Lemma nearest_even_cases (x : Q) :
  B64.nearest_even x = Qfloor x \/ B64.nearest_even x = (Qfloor x + 1)%Z.
Proof.
  unfold B64.nearest_even. cbv zeta.
  destruct (x - inject_Z (Qfloor x) ?= 1 # 2); [destruct (Z.even (Qfloor x))| |];
    auto.
Qed.

Lemma nearest_even_error (x : Q) :
  inject_Z (B64.nearest_even x) <= x + (1 # 2) /\
  x - (1 # 2) <= inject_Z (B64.nearest_even x).
Proof.
  pose proof (Qfloor_le x) as F1. pose proof (Qlt_floor x) as F2.
  rewrite inject_Z_plus in F2. change (inject_Z 1) with 1 in F2.
  unfold B64.nearest_even. cbv zeta.
  destruct (x - inject_Z (Qfloor x) ?= 1 # 2) eqn:C.
  - apply Qeq_alt in C.
    destruct (Z.even (Qfloor x)); rewrite ?inject_Z_plus;
      change (inject_Z 1) with 1; lra.
  - apply Qlt_alt in C. lra.
  - apply Qgt_alt in C. rewrite inject_Z_plus. change (inject_Z 1) with 1. lra.
Qed.

Lemma nearest_even_ge (x : Q) (j : Z) :
  inject_Z j <= x -> (j <= B64.nearest_even x)%Z.
Proof.
  intro H. apply Qfloor_resp_le in H. rewrite Qfloor_Z in H.
  destruct (nearest_even_cases x) as [-> | ->]; lia.
Qed.

Lemma nearest_even_le (x : Q) (j : Z) :
  x <= inject_Z j -> (B64.nearest_even x <= j)%Z.
Proof.
  intro H.
  pose proof (Qfloor_le x) as F1.
  assert (F : (Qfloor x <= j)%Z).
  { apply Qfloor_resp_le in H. rewrite Qfloor_Z in H. exact H. }
  destruct (Z.eq_dec (Qfloor x) j) as [E | N].
  - assert (X : x == inject_Z j) by (rewrite <- E in *; lra).
    unfold B64.nearest_even. cbv zeta.
    replace (x - inject_Z (Qfloor x) ?= 1 # 2) with Lt; [cbv iota; lia|].
    symmetry. rewrite <- Qlt_alt, E. lra.
  - destruct (nearest_even_cases x) as [-> | ->]; lia.
Qed.

Lemma Qabs_pos_eq (q : Q) : 0 < q -> Qabs q = q.
Proof.
  destruct q as [[|n|n] d]; intro H; try reflexivity;
    unfold Qlt in H; simpl in H; lia.
Qed.

Lemma Qabs_opp_eq (q : Q) : Qabs (- q) = Qabs q.
Proof. destruct q as [[|n|n] d]; reflexivity. Qed.

Lemma Qopp_opp_eq (q : Q) : - - q = q.
Proof. destruct q as [[|n|n] d]; reflexivity. Qed.

Lemma ulp_pos (q : Q) : 0 < B64.ulp q.
Proof. apply pow2_pos. Qed.

Lemma exponent_ge (q : Q) : (-1022 <= B64.exponent q)%Z.
Proof. unfold B64.exponent. lia. Qed.

(** A positive real lies below the next power of two of its exponent, and,
    outside the subnormal range, at or above the power of its exponent. *)
Lemma exponent_above (q : Q) : 0 < q -> q < B64.pow2 (B64.exponent q + 1).
Proof.
  intro H. unfold B64.exponent. rewrite (Qabs_pos_eq q H).
  destruct (binade_spec q H) as [_ U].
  eapply Qlt_le_trans; [exact U|]. apply pow2_le. lia.
Qed.

Lemma exponent_below (q : Q) :
  0 < q -> (-1022 < B64.exponent q)%Z -> B64.pow2 (B64.exponent q) <= q.
Proof.
  intros H N. unfold B64.exponent in *. rewrite (Qabs_pos_eq q H) in *.
  destruct (binade_spec q H) as [L _].
  replace (Z.max (B64.binade q) (-1022)) with (B64.binade q) by lia.
  exact L.
Qed.

Lemma exponent_mono (a b : Q) :
  0 < a -> a <= b -> (B64.exponent a <= B64.exponent b)%Z.
Proof.
  intros Ha H. assert (Hb : 0 < b) by lra.
  unfold B64.exponent. rewrite (Qabs_pos_eq a Ha), (Qabs_pos_eq b Hb).
  destruct (binade_spec a Ha) as [L _].
  assert (B : (B64.binade a <= B64.binade b)%Z)
    by (apply binade_lower; [exact Hb | lra]).
  lia.
Qed.

Lemma exponent_lower (q : Q) (lo : Z) :
  0 < q -> B64.pow2 lo <= q -> (lo <= B64.exponent q)%Z.
Proof.
  intros H L. unfold B64.exponent. rewrite (Qabs_pos_eq q H).
  pose proof (binade_lower q lo H L). lia.
Qed.

Lemma exponent_upper (q : Q) (hi : Z) :
  0 < q -> q < B64.pow2 hi -> (-1022 < hi)%Z -> (B64.exponent q < hi)%Z.
Proof.
  intros H U N. unfold B64.exponent. rewrite (Qabs_pos_eq q H).
  pose proof (binade_upper q hi H U). lia.
Qed.

(** [2^k] in units of the spacing. *)
Lemma pow2_ulp (q : Q) (k : Z) :
  (B64.exponent q - 52 <= k)%Z ->
  B64.pow2 k == inject_Z (2 ^ (k - (B64.exponent q - 52))) * B64.ulp q.
Proof.
  intro H. unfold B64.ulp. rewrite <- pow2_Z by lia. rewrite <- pow2_add.
  replace (k - (B64.exponent q - 52) + (B64.exponent q - 52))%Z with k by lia.
  reflexivity.
Qed.

Lemma nearest_even_mono (x y : Q) :
  x <= y -> (B64.nearest_even x <= B64.nearest_even y)%Z.
Proof.
  intro H.
  assert (F : (Qfloor x <= Qfloor y)%Z) by (apply Qfloor_resp_le, H).
  destruct (Z.eq_dec (Qfloor x) (Qfloor y)) as [E | N].
  - unfold B64.nearest_even. cbv zeta. rewrite <- E.
    destruct (x - inject_Z (Qfloor x) ?= 1 # 2) eqn:Cx;
      destruct (y - inject_Z (Qfloor x) ?= 1 # 2) eqn:Cy;
      try (destruct (Z.even (Qfloor x))); try lia;
      try rewrite <- Qeq_alt in *; try rewrite <- Qlt_alt in *;
      try rewrite <- Qgt_alt in *; lra.
  - destruct (nearest_even_cases x) as [-> | ->];
      destruct (nearest_even_cases y) as [-> | ->]; lia.
Qed.

Section Magnitude.

Variable q : Q.
Hypothesis q_pos : 0 < q.

Lemma scaled : B64.significand q = B64.nearest_even (q / B64.ulp q).
Proof. unfold B64.significand. rewrite (Qabs_pos_eq q q_pos). reflexivity. Qed.

Lemma magnitude_grid_ge (j : Z) :
  inject_Z j * B64.ulp q <= q -> inject_Z j * B64.ulp q <= B64.magnitude q.
Proof.
  intro H. unfold B64.magnitude. pose proof (ulp_pos q) as U.
  apply Qmult_le_compat_r; [|lra].
  rewrite <- Zle_Qle, scaled. apply nearest_even_ge.
  apply Qle_shift_div_l; assumption.
Qed.

Lemma magnitude_grid_le (j : Z) :
  q <= inject_Z j * B64.ulp q -> B64.magnitude q <= inject_Z j * B64.ulp q.
Proof.
  intro H. unfold B64.magnitude. pose proof (ulp_pos q) as U.
  apply Qmult_le_compat_r; [|lra].
  rewrite <- Zle_Qle, scaled. apply nearest_even_le.
  apply Qle_shift_div_r; assumption.
Qed.

(** The rounded value is within half a spacing of the real. *)
Lemma magnitude_error :
  B64.magnitude q <= q + B64.ulp q * (1 # 2) /\
  q - B64.ulp q * (1 # 2) <= B64.magnitude q.
Proof.
  unfold B64.magnitude. rewrite scaled. pose proof (ulp_pos q) as U.
  destruct (nearest_even_error (q / B64.ulp q)) as [A B].
  set (m := inject_Z (B64.nearest_even (q / B64.ulp q))) in *.
  assert (E : q / B64.ulp q * B64.ulp q == q) by (field; lra).
  split.
  - apply (Qmult_le_compat_r _ _ (B64.ulp q)) in A; [|lra]. lra.
  - apply (Qmult_le_compat_r _ _ (B64.ulp q)) in B; [|lra]. lra.
Qed.

Lemma magnitude_nonneg : 0 <= B64.magnitude q.
Proof.
  pose proof (magnitude_grid_ge 0) as H. change (inject_Z 0) with 0 in H.
  pose proof (ulp_pos q). lra.
Qed.

Lemma magnitude_next : B64.magnitude q <= B64.pow2 (B64.exponent q + 1).
Proof.
  rewrite (pow2_ulp q (B64.exponent q + 1)) by lia.
  apply magnitude_grid_le. rewrite <- pow2_ulp by lia.
  apply Qlt_le_weak, exponent_above, q_pos.
Qed.

Lemma magnitude_this :
  (-1022 < B64.exponent q)%Z -> B64.pow2 (B64.exponent q) <= B64.magnitude q.
Proof.
  intro N. rewrite (pow2_ulp q (B64.exponent q)) by lia.
  apply magnitude_grid_ge. rewrite <- pow2_ulp by lia.
  apply exponent_below; assumption.
Qed.

(** A real on the grid of its exponent is not moved. *)
Lemma magnitude_exact (j : Z) :
  q == inject_Z j * B64.ulp q -> B64.magnitude q == q.
Proof.
  intro H. apply Qle_antisym.
  - rewrite H at 2. apply magnitude_grid_le. rewrite <- H. apply Qle_refl.
  - rewrite H at 1. apply magnitude_grid_ge. rewrite <- H. apply Qle_refl.
Qed.

End Magnitude.

Lemma magnitude_mono (a b : Q) :
  0 < a -> a <= b -> B64.magnitude a <= B64.magnitude b.
Proof.
  intros Ha H. assert (Hb : 0 < b) by lra.
  pose proof (exponent_mono a b Ha H) as E.
  destruct (Z.eq_dec (B64.exponent a) (B64.exponent b)) as [Eq | Ne].
  - unfold B64.magnitude. rewrite (scaled a Ha), (scaled b Hb).
    unfold B64.ulp. rewrite Eq. fold (B64.ulp b).
    pose proof (ulp_pos b) as U.
    apply Qmult_le_compat_r; [|lra].
    rewrite <- Zle_Qle. apply nearest_even_mono.
    unfold Qdiv. apply Qmult_le_compat_r; [exact H|].
    apply Qlt_le_weak, Qinv_lt_0_compat, U.
  - eapply Qle_trans; [apply magnitude_next, Ha|].
    eapply Qle_trans; [|apply magnitude_this; [exact Hb | pose proof (exponent_ge a); lia]].
    apply pow2_le. lia.
Qed.

Lemma magnitude_opp (q : Q) : B64.magnitude (- q) = B64.magnitude q.
Proof.
  unfold B64.magnitude, B64.significand, B64.ulp, B64.exponent.
  rewrite Qabs_opp_eq. reflexivity.
Qed.

Lemma significand_opp (q : Q) : B64.significand (- q) = B64.significand q.
Proof.
  unfold B64.significand, B64.ulp, B64.exponent.
  rewrite Qabs_opp_eq. reflexivity.
Qed.

(** *** The rounded value *)

Lemma rnd_zero (q : Q) : q == 0 -> B64.rnd q = Fin 0.
Proof.
  intro H. unfold B64.rnd.
  replace (Qeq_bool q 0) with true by (symmetry; apply Qeq_bool_iff, H).
  reflexivity.
Qed.

Lemma rnd_pos (q : Q) :
  0 < q ->
  B64.rnd q =
  if Qle_bool (B64.pow2 1024) (B64.magnitude q) then Infinity false
  else if (B64.significand q =? 0)%Z then Fin 0
  else Fin (Qred (B64.magnitude q)).
Proof.
  intro H. unfold B64.rnd. cbv zeta.
  replace (Qeq_bool q 0) with false.
  2:{ symmetry. destruct (Qeq_bool q 0) eqn:E; [|reflexivity].
      apply Qeq_bool_iff in E. lra. }
  replace (Qltb q 0) with false by (symmetry; apply Qltb_ge; lra).
  reflexivity.
Qed.

Lemma rnd_neg (q : Q) :
  q < 0 ->
  B64.rnd q =
  if Qle_bool (B64.pow2 1024) (B64.magnitude q) then Infinity true
  else if (B64.significand q =? 0)%Z then NegZero
  else Fin (Qred (- B64.magnitude q)).
Proof.
  intro H. unfold B64.rnd. cbv zeta.
  replace (Qeq_bool q 0) with false.
  2:{ symmetry. destruct (Qeq_bool q 0) eqn:E; [|reflexivity].
      apply Qeq_bool_iff in E. lra. }
  replace (Qltb q 0) with true by (symmetry; apply Qltb_lt; lra).
  reflexivity.
Qed.

(** The three shapes of a rounded positive real. *)
Lemma rnd_pos_cases (q : Q) :
  0 < q ->
  (B64.pow2 1024 <= B64.magnitude q /\ B64.rnd q = Infinity false) \/
  (B64.magnitude q < B64.pow2 1024 /\
   exists x, B64.rnd q = Fin x /\ x == B64.magnitude q).
Proof.
  intro H. rewrite (rnd_pos q H).
  destruct (Qle_bool (B64.pow2 1024) (B64.magnitude q)) eqn:O.
  - left. apply Qle_bool_iff in O. split; [exact O | reflexivity].
  - right. split.
    + apply Qnot_le_lt. intro L. apply Qle_bool_iff in L. congruence.
    + destruct (B64.significand q =? 0)%Z eqn:S.
      * exists 0. split; [reflexivity|]. apply Z.eqb_eq in S.
        unfold B64.magnitude. rewrite S. ring.
      * eexists. split; [reflexivity | apply Qred_correct].
Qed.

Lemma rnd_neg_cases (q : Q) :
  q < 0 ->
  (B64.pow2 1024 <= B64.magnitude q /\ B64.rnd q = Infinity true) \/
  (B64.magnitude q < B64.pow2 1024 /\
   ((B64.rnd q = NegZero /\ B64.magnitude q == 0) \/
    exists x, B64.rnd q = Fin x /\ x == - B64.magnitude q)).
Proof.
  intro H. rewrite (rnd_neg q H).
  destruct (Qle_bool (B64.pow2 1024) (B64.magnitude q)) eqn:O.
  - left. apply Qle_bool_iff in O. split; [exact O | reflexivity].
  - right. split.
    + apply Qnot_le_lt. intro L. apply Qle_bool_iff in L. congruence.
    + destruct (B64.significand q =? 0)%Z eqn:S.
      * left. split; [reflexivity|]. apply Z.eqb_eq in S.
        unfold B64.magnitude. rewrite S. ring.
      * right. eexists. split; [reflexivity | apply Qred_correct].
Qed.

Lemma magnitude_neg_nonneg (q : Q) : q < 0 -> 0 <= B64.magnitude q.
Proof.
  intro H. rewrite <- magnitude_opp. apply magnitude_nonneg. lra.
Qed.

(** Rounding never gives NaN, and keeps the side of zero. *)
Lemma rnd_nonneg (q : Q) : 0 <= q -> le (Fin 0) (B64.rnd q) = true.
Proof.
  intro H. destruct (Qlt_le_dec 0 q) as [P | Z].
  - destruct (rnd_pos_cases q P) as [[_ ->] | [_ (x & -> & E)]]; [reflexivity|].
    pose proof (magnitude_nonneg q P).
    unfold le, ge, lt, val. apply negb_true_iff, Qltb_ge. lra.
  - rewrite rnd_zero by lra. reflexivity.
Qed.

Lemma rnd_nonpos (q : Q) : q <= 0 -> le (B64.rnd q) (Fin 0) = true.
Proof.
  intro H. destruct (Qlt_le_dec q 0) as [N | Z].
  - pose proof (magnitude_neg_nonneg q N).
    destruct (rnd_neg_cases q N)
      as [[_ ->] | [_ [[-> _] | (x & -> & E)]]]; try reflexivity.
    unfold le, ge, lt, val. apply negb_true_iff, Qltb_ge. lra.
  - rewrite rnd_zero by lra. reflexivity.
Qed.

Lemma le_transitive (x y z : number) :
  le x y = true -> le y z = true -> le x z = true.
Proof.
  unfold le, ge, lt.
  destruct x as [| [] | |a], y as [| [] | |b], z as [| [] | |c];
    simpl; try reflexivity; try discriminate;
    rewrite ?negb_true_iff; intros H1 H2;
    try apply Qltb_ge in H1; try apply Qltb_ge in H2;
    try apply Qltb_ge; lra.
Qed.

(** Rounding is monotone. *)
Lemma rnd_le (a b : Q) : a <= b -> le (B64.rnd a) (B64.rnd b) = true.
Proof.
  intro H.
  destruct (Qlt_le_dec 0 a) as [Pa | Na].
  - (* both positive *)
    assert (Pb : 0 < b) by lra.
    pose proof (magnitude_mono a b Pa H) as M.
    destruct (rnd_pos_cases a Pa) as [[Oa ->] | [Ua (x & -> & Ex)]];
      destruct (rnd_pos_cases b Pb) as [[Ob ->] | [Ub (y & -> & Ey)]];
      try reflexivity.
    + lra.
    + unfold le, ge, lt, val. apply negb_true_iff, Qltb_ge. lra.
  - destruct (Qlt_le_dec b 0) as [Nb | Pb].
    + (* both negative *)
      assert (Na' : a < 0) by lra.
      assert (M : B64.magnitude b <= B64.magnitude a).
      { rewrite <- (magnitude_opp a), <- (magnitude_opp b).
        apply magnitude_mono; lra. }
      pose proof (magnitude_neg_nonneg b Nb) as Mb.
      destruct (rnd_neg_cases a Na')
        as [[Oa ->] | [Ua [[-> Za] | (x & -> & Ex)]]];
        destruct (rnd_neg_cases b Nb)
          as [[Ob ->] | [Ub [[-> Zb] | (y & -> & Ey)]]];
        try reflexivity; try lra;
        unfold le, ge, lt, val; apply negb_true_iff, Qltb_ge; lra.
    + eapply le_transitive; [apply rnd_nonpos, Na | apply rnd_nonneg, Pb].
Qed.

Lemma binade_comp (a b : Q) : 0 < a -> a == b -> B64.binade a = B64.binade b.
Proof.
  intros Ha E. assert (Hb : 0 < b) by lra.
  destruct (binade_spec a Ha) as [La Ua]. destruct (binade_spec b Hb) as [Lb Ub].
  assert (X : B64.pow2 (B64.binade a) < B64.pow2 (B64.binade b + 1)) by lra.
  assert (Y : B64.pow2 (B64.binade b) < B64.pow2 (B64.binade a + 1)) by lra.
  apply pow2_lt_inv in X, Y. lia.
Qed.

Lemma nearest_even_comp (x y : Q) :
  x == y -> B64.nearest_even x = B64.nearest_even y.
Proof.
  intro E. apply Z.le_antisymm; apply nearest_even_mono; lra.
Qed.

Lemma exponent_comp (a b : Q) :
  ~ a == 0 -> a == b -> B64.exponent a = B64.exponent b.
Proof.
  intros N E. unfold B64.exponent. f_equal.
  apply binade_comp; [|rewrite E; reflexivity].
  apply Qabs_case; intros; lra.
Qed.

Lemma significand_comp (a b : Q) :
  ~ a == 0 -> a == b -> B64.significand a = B64.significand b.
Proof.
  intros N E. unfold B64.significand, B64.ulp.
  rewrite (exponent_comp a b N E). apply nearest_even_comp.
  rewrite E. reflexivity.
Qed.

Lemma magnitude_comp (a b : Q) :
  ~ a == 0 -> a == b -> B64.magnitude a = B64.magnitude b.
Proof.
  intros N E. unfold B64.magnitude, B64.ulp.
  rewrite (exponent_comp a b N E), (significand_comp a b N E). reflexivity.
Qed.

(** Rounding depends on the value of the rational only. *)
Lemma rnd_comp (a b : Q) : a == b -> B64.rnd a = B64.rnd b.
Proof.
  intro E. destruct (Qeq_dec a 0) as [Z | N].
  - rewrite !rnd_zero; [reflexivity | lra | exact Z].
  - unfold B64.rnd. cbv zeta.
    rewrite (magnitude_comp a b N E), (significand_comp a b N E).
    rewrite (Qeqb_comp a b E 0 0 (Qeq_refl 0)).
    rewrite (Qltb_comp a b 0 0 E (Qeq_refl 0)). reflexivity.
Qed.

Lemma neg_Fin_nonzero (x : Q) : ~ x == 0 -> neg (Fin x) = Fin (- x).
Proof.
  intro N. unfold neg. destruct (Qeq_bool x 0) eqn:E; [|reflexivity].
  apply Qeq_bool_iff in E. contradiction.
Qed.

Lemma magnitude_nonzero (q : Q) :
  B64.significand q <> 0%Z -> ~ B64.magnitude q == 0.
Proof.
  intros S Z. apply S. unfold B64.magnitude in Z. pose proof (ulp_pos q) as U.
  assert (I : inject_Z (B64.significand q) == inject_Z 0).
  { change (inject_Z 0) with 0. nra. }
  apply inject_Z_injective, I.
Qed.

Lemma rnd_opp (q : Q) : ~ q == 0 -> B64.rnd (- q) = neg (B64.rnd q).
Proof.
  intro N. destruct (Qlt_le_dec 0 q) as [P | NP].
  - rewrite (rnd_pos q P), rnd_neg by lra.
    rewrite magnitude_opp, significand_opp.
    destruct (Qle_bool (B64.pow2 1024) (B64.magnitude q)) eqn:O; [reflexivity|].
    destruct (B64.significand q =? 0)%Z eqn:S; [reflexivity|].
    apply Z.eqb_neq in S. pose proof (magnitude_nonzero q S) as M.
    rewrite Qred_opp, neg_Fin_nonzero; [reflexivity|].
    rewrite Qred_correct. exact M.
  - assert (Ng : q < 0) by lra.
    rewrite (rnd_neg q Ng), rnd_pos by lra.
    rewrite magnitude_opp, significand_opp.
    destruct (Qle_bool (B64.pow2 1024) (B64.magnitude q)) eqn:O; [reflexivity|].
    destruct (B64.significand q =? 0)%Z eqn:S; [reflexivity|].
    apply Z.eqb_neq in S. pose proof (magnitude_nonzero q S) as M.
    rewrite neg_Fin_nonzero.
    + rewrite Qred_opp, Qopp_opp_eq. reflexivity.
    + rewrite Qred_correct. lra.
Qed.

(** *** Values that rounding leaves alone *)

Lemma Qred_inject_Z (n : Z) : Qred (inject_Z n) = inject_Z n.
Proof.
  unfold Qred, inject_Z.
  pose proof (Z.ggcd_gcd n 1) as G.
  pose proof (Z.ggcd_correct_divisors n 1) as D.
  destruct (Z.ggcd n 1) as [g [aa bb]]. simpl in *.
  rewrite Z.gcd_1_r in G. subst g. destruct D as [-> D].
  rewrite Z.mul_1_l in D. subst bb. rewrite Z.mul_1_l. reflexivity.
Qed.

Lemma rnd_exact (q : Q) (j : Z) :
  0 < q -> q < B64.pow2 1024 -> q == inject_Z j * B64.ulp q ->
  B64.rnd q = Fin (Qred q).
Proof.
  intros P B G. pose proof (magnitude_exact q P j G) as M.
  rewrite (rnd_pos q P).
  replace (Qle_bool (B64.pow2 1024) (B64.magnitude q)) with false.
  2:{ symmetry. destruct (Qle_bool (B64.pow2 1024) (B64.magnitude q)) eqn:O;
        [|reflexivity].
      apply Qle_bool_iff in O. lra. }
  destruct (B64.significand q =? 0)%Z eqn:S.
  - apply Z.eqb_eq in S. unfold B64.magnitude in M. rewrite S in M.
    change (inject_Z 0) with 0 in M. lra.
  - f_equal. apply Qred_complete, M.
Qed.

Lemma pow2_1024_above : inject_Z (2 ^ 54) < B64.pow2 1024.
Proof.
  rewrite <- pow2_Z by lia. apply Qpower_lt_compat_l; [lia | reflexivity].
Qed.

Lemma rnd_inject_Z_pos (n : Z) :
  (0 < n <= 2 ^ 53)%Z -> B64.rnd (inject_Z n) = of_Z n.
Proof.
  intro H. set (q := inject_Z n).
  assert (P : 0 < q) by (unfold q; change 0 with (inject_Z 0); rewrite <- Zlt_Qlt; lia).
  assert (U : q < inject_Z (2 ^ 54)) by (unfold q; rewrite <- Zlt_Qlt; lia).
  assert (E : (B64.exponent q < 54)%Z).
  { apply exponent_upper; [exact P | | lia]. rewrite pow2_Z by lia. exact U. }
  assert (G : exists j, q == inject_Z j * B64.ulp q).
  { destruct (Z_le_gt_dec (B64.exponent q) 52) as [L | L].
    - exists (n * 2 ^ (0 - (B64.exponent q - 52)))%Z.
      rewrite inject_Z_mult, <- Qmult_assoc, <- pow2_ulp by lia.
      unfold q. change (B64.pow2 0) with 1. ring.
    - assert (E53 : B64.exponent q = 53%Z) by lia.
      pose proof (exponent_below q P ltac:(lia)) as B.
      rewrite E53, pow2_Z in B by lia. unfold q in B. rewrite <- Zle_Qle in B.
      exists (2 ^ (53 - (B64.exponent q - 52)))%Z.
      rewrite <- pow2_ulp by lia. rewrite pow2_Z by lia.
      unfold q. replace n with (2 ^ 53)%Z by lia. reflexivity. }
  destruct G as [j G].
  rewrite (rnd_exact q j P); [| |exact G].
  - unfold q. rewrite Qred_inject_Z. reflexivity.
  - pose proof pow2_1024_above. lra.
Qed.

Lemma inject_Z_opp_eq (n : Z) : inject_Z (- n) = - inject_Z n.
Proof. reflexivity. Qed.

(** Integers of magnitude up to 2^53 are binary64 values. *)
Lemma rnd_inject_Z (n : Z) :
  (Z.abs n <= 2 ^ 53)%Z -> B64.rnd (inject_Z n) = of_Z n.
Proof.
  intro H. destruct (Z.lt_trichotomy n 0) as [N | [-> | P]].
  - replace n with (- - n)%Z by lia. rewrite inject_Z_opp_eq.
    assert (Q0 : ~ inject_Z (- n) == 0).
    { change 0 with (inject_Z 0). rewrite inject_Z_injective. lia. }
    rewrite rnd_opp by exact Q0.
    rewrite rnd_inject_Z_pos by lia.
    unfold of_Z. rewrite neg_Fin_nonzero by exact Q0. reflexivity.
  - reflexivity.
  - apply rnd_inject_Z_pos. lia.
Qed.

(** *** The quotients of the yen formatter *)

Lemma div64_Fin_of_Z (a : Q) (m : Z) :
  (0 < m)%Z -> B64.div (Fin a) (of_Z m) = B64.rnd (a / inject_Z m).
Proof.
  intro Hm. unfold B64.div, B64.round.
  assert (D : div (Fin a) (of_Z m) = fin (Qltb a 0) (a / inject_Z m)).
  { unfold div, of_Z.
    change (is_zero (Fin (inject_Z m))) with (is_zero (of_Z m)).
    change (signbit (Fin (inject_Z m))) with (signbit (of_Z m)).
    rewrite is_zero_of_Z, signbit_of_Z.
    replace (m =? 0)%Z with false by (symmetry; apply Z.eqb_neq; lia).
    replace (m <? 0)%Z with false by (symmetry; apply Z.ltb_ge; lia).
    rewrite xorb_false_r. reflexivity. }
  rewrite D. unfold fin.
  assert (M : 0 < inject_Z m)
    by (change 0 with (inject_Z 0); rewrite <- Zlt_Qlt; exact Hm).
  destruct (Qeq_bool (a / inject_Z m) 0) eqn:E; [|reflexivity].
  apply Qeq_bool_iff in E. rewrite (rnd_zero _ E).
  assert (A : a == 0).
  { setoid_replace a with (a / inject_Z m * inject_Z m) by (field; lra).
    rewrite E. ring. }
  replace (Qltb a 0) with false by (symmetry; apply Qltb_ge; lra).
  reflexivity.
Qed.

Lemma pow2_m26 : B64.pow2 (-26) == 1 # 67108864.
Proof. reflexivity. Qed.

Lemma pow2_m39 : B64.pow2 (-39) == 1 # 549755813888.
Proof. reflexivity. Qed.

(** The 億 part: below 2^53 the rounding of the quotient by 100,000,000
    never reaches the next integer. *)
Lemma oku64 (n : Z) :
  (100000000 <= n <= 2 ^ 53)%Z ->
  Math_floor (B64.div (of_Z n) (of_Z 100000000)) = of_Z (n / 100000000).
Proof.
  intro H. unfold of_Z at 1. rewrite div64_Fin_of_Z by lia.
  set (q := inject_Z n / inject_Z 100000000).
  pose proof (Z.div_mod n 100000000 ltac:(lia)) as DM.
  pose proof (Z.mod_pos_bound n 100000000 ltac:(lia)) as RB.
  set (k := (n / 100000000)%Z) in *. set (r := (n mod 100000000)%Z) in *.
  assert (Q1 : q * 100000000 == inject_Z n).
  { unfold q. change (inject_Z 100000000) with 100000000. field. }
  assert (Q2 : inject_Z n == 100000000 * inject_Z k + inject_Z r).
  { rewrite DM, inject_Z_plus, inject_Z_mult. reflexivity. }
  assert (R0 : 0 <= inject_Z r)
    by (change 0 with (inject_Z 0); rewrite <- Zle_Qle; lia).
  assert (R1 : inject_Z r <= 99999999)
    by (change 99999999 with (inject_Z 99999999); rewrite <- Zle_Qle; lia).
  assert (N0 : 100000000 <= inject_Z n)
    by (change 100000000 with (inject_Z 100000000); rewrite <- Zle_Qle; lia).
  assert (N1 : inject_Z n <= inject_Z (2 ^ 53)) by (rewrite <- Zle_Qle; lia).
  assert (P : 0 < q) by lra.
  assert (E0 : (0 <= B64.exponent q)%Z).
  { apply exponent_lower; [exact P|]. change (B64.pow2 0) with 1. lra. }
  assert (E1 : (B64.exponent q < 27)%Z).
  { apply exponent_upper; [exact P | | lia].
    rewrite pow2_Z by lia. change (inject_Z (2 ^ 27)) with 134217728.
    change (inject_Z (2 ^ 53)) with 9007199254740992 in N1. lra. }
  assert (U : B64.ulp q <= 1 # 67108864).
  { rewrite <- pow2_m26. apply pow2_le. lia. }
  pose proof (ulp_pos q) as U0.
  destruct (magnitude_error q P) as [M1 _].
  assert (ML : inject_Z k <= B64.magnitude q).
  { assert (G : inject_Z k ==
                 inject_Z (k * 2 ^ (0 - (B64.exponent q - 52))) * B64.ulp q).
    { rewrite inject_Z_mult, <- Qmult_assoc, <- pow2_ulp by lia.
      change (B64.pow2 0) with 1. ring. }
    rewrite G. apply magnitude_grid_ge; [exact P|]. rewrite <- G. lra. }
  destruct (rnd_pos_cases q P) as [[O _] | [_ (x & -> & X)]].
  - exfalso. pose proof pow2_1024_above as T.
    change (inject_Z (2 ^ 54)) with 18014398509481984 in T.
    change (inject_Z (2 ^ 53)) with 9007199254740992 in N1. lra.
  - unfold Math_floor, of_Z. do 2 f_equal.
    apply Qfloor_unique; [lra|].
    rewrite inject_Z_plus. change (inject_Z 1) with 1. lra.
Qed.

(** The 万 part: the rounding of the quotient by 10,000 does not cross a
    half. *)
Lemma man64 (r : Z) :
  (0 <= r < 100000000)%Z ->
  Math_round (B64.div (of_Z r) (of_Z 10000)) = of_Z ((2 * r + 10000) / 20000).
Proof.
  intro H. unfold of_Z at 1. rewrite div64_Fin_of_Z by lia.
  destruct (Z.eq_dec r 0) as [-> | NZ]; [reflexivity|].
  set (q := inject_Z r / inject_Z 10000).
  pose proof (Z.div_mod (2 * r + 10000) 20000 ltac:(lia)) as DM.
  pose proof (Z.mod_pos_bound (2 * r + 10000) 20000 ltac:(lia)) as RB.
  set (j := ((2 * r + 10000) / 20000)%Z) in *.
  set (d := ((2 * r + 10000) mod 20000)%Z) in *.
  assert (Ev : (d <= 19998)%Z).
  { unfold d. replace (2 * r + 10000)%Z with (2 * (r + 5000))%Z by lia.
    change 20000%Z with (2 * 10000)%Z.
    rewrite Z.mul_mod_distr_l by lia.
    pose proof (Z.mod_pos_bound (r + 5000) 10000 ltac:(lia)). lia. }
  assert (Q1 : q * 10000 == inject_Z r).
  { unfold q. change (inject_Z 10000) with 10000. field. }
  assert (Q2 : 2 * inject_Z r + 10000 == 20000 * inject_Z j + inject_Z d).
  { change 2 with (inject_Z 2). change 10000 with (inject_Z 10000).
    change 20000 with (inject_Z 20000).
    rewrite <- !inject_Z_mult, <- !inject_Z_plus, DM. reflexivity. }
  assert (D0 : 0 <= inject_Z d)
    by (change 0 with (inject_Z 0); rewrite <- Zle_Qle; lia).
  assert (D1 : inject_Z d <= 19998)
    by (change 19998 with (inject_Z 19998); rewrite <- Zle_Qle; lia).
  assert (R0 : 1 <= inject_Z r)
    by (change 1 with (inject_Z 1); rewrite <- Zle_Qle; lia).
  assert (R1 : inject_Z r <= 99999999)
    by (change 99999999 with (inject_Z 99999999); rewrite <- Zle_Qle; lia).
  assert (P : 0 < q) by lra.
  assert (E0 : (-14 <= B64.exponent q)%Z).
  { apply exponent_lower; [exact P|].
    assert (B64.pow2 (-14) == 1 # 16384) by reflexivity. lra. }
  assert (E1 : (B64.exponent q < 14)%Z).
  { apply exponent_upper; [exact P | | lia].
    rewrite pow2_Z by lia. change (inject_Z (2 ^ 14)) with 16384. lra. }
  assert (U : B64.ulp q <= 1 # 549755813888).
  { rewrite <- pow2_m39. apply pow2_le. lia. }
  pose proof (ulp_pos q) as U0.
  destruct (magnitude_error q P) as [M1 _].
  assert (ML : inject_Z j - (1 # 2) <= B64.magnitude q).
  { assert (G : inject_Z j - (1 # 2) ==
                 inject_Z ((2 * j - 1) * 2 ^ (-1 - (B64.exponent q - 52)))
                 * B64.ulp q).
    { assert (Hh : B64.pow2 (-1) == 1 # 2) by reflexivity.
      rewrite inject_Z_mult, <- Qmult_assoc, <- pow2_ulp by lia.
      rewrite Hh. replace (2 * j - 1)%Z with (2 * j + -1)%Z by lia.
      rewrite inject_Z_plus, inject_Z_mult.
      change (inject_Z 2) with 2. change (inject_Z (-1)) with (-1). lra. }
    rewrite G. apply magnitude_grid_ge; [exact P|]. rewrite <- G. lra. }
  destruct (rnd_pos_cases q P) as [[O _] | [_ (x & -> & X)]].
  - exfalso. pose proof pow2_1024_above as T.
    change (inject_Z (2 ^ 54)) with 18014398509481984 in T. lra.
  - rewrite Math_round_nonneg by (pose proof (magnitude_nonneg q P); lra).
    f_equal. apply Qfloor_unique; [lra|].
    rewrite inject_Z_plus. change (inject_Z 1) with 1. lra.
Qed.

End Rounding.

(** ** Thousands grouping *)

Lemma separate_group (xs : list ascii) (a b c : ascii) :
  xs <> [] ->
  Spec.separate (xs ++ [a; b; c]) =
  (Spec.separate xs ++ ","%char :: [a; b; c])%list.
Proof.
  induction xs as [|x xs IH]; intro N; [contradiction|].
  destruct xs as [|y ys]; [reflexivity|].
  specialize (IH ltac:(discriminate)).
  change ((x :: y :: ys) ++ [a; b; c])%list
    with (x :: ((y :: ys) ++ [a; b; c]))%list.
  cbn [Spec.separate]. fold (Spec.separate ((y :: ys) ++ [a; b; c])).
  fold (Spec.separate (y :: ys)). rewrite IH.
  rewrite length_app. cbn [List.length].
  replace (S (List.length ys) + 3)%nat with (S (S (S (S (List.length ys))))) by lia.
  cbn [Nat.eqb negb andb].
  replace (Nat.modulo (S (S (S (S (List.length ys))))) 3)
    with (Nat.modulo (S (List.length ys)) 3).
  2:{ replace (S (S (S (S (List.length ys))))) with (S (List.length ys) + 1 * 3)%nat by lia.
      symmetry. apply Nat.Div0.mod_add. }
  destruct (Nat.eqb (Nat.modulo (S (List.length ys)) 3) 0); reflexivity.
Qed.

Lemma commas_separate (n : nat) (l : list ascii) :
  (List.length l <= n)%nat -> rev (commas l) = Spec.separate (rev l).
Proof.
  revert l. induction n as [n IH] using lt_wf_ind. intros l H.
  destruct l as [|a [|b [|c [|d more]]]]; try reflexivity.
  change (commas (a :: b :: c :: d :: more))
    with (a :: b :: c :: ","%char :: commas (d :: more)).
  replace (rev (a :: b :: c :: ","%char :: commas (d :: more)))
    with (rev (commas (d :: more)) ++ [","%char; c; b; a])%list
    by (cbn [rev]; rewrite <- !app_assoc; reflexivity).
  replace (rev (a :: b :: c :: d :: more))
    with (rev (d :: more) ++ [c; b; a])%list
    by (cbn [rev]; rewrite <- !app_assoc; reflexivity).
  rewrite separate_group.
  - rewrite (IH (List.length (d :: more))); [reflexivity | simpl in *; lia | lia].
  - simpl. destruct (rev more); discriminate.
Qed.

(** The platform's grouping is the grouping of the specification. *)
Lemma grouped_separate (n : Z) :
  grouped n =
  string_of_list_ascii (Spec.separate (list_ascii_of_string (decimal n))).
Proof.
  unfold grouped. rewrite (commas_separate _ _ (Nat.le_refl _)).
  rewrite rev_involutive. reflexivity.
Qed.

Lemma toLocaleString_groupDigits (z : Z) :
  toLocaleString (of_Z z) = Spec.groupDigits z.
Proof.
  rewrite toLocaleString_of_Z, grouped_separate. reflexivity.
Qed.

(** ** Properties of the yen formatter *)

Lemma Qfloor_div_half (r m : Z) :
  0 < m -> Qfloor (inject_Z r / inject_Z m + (1 # 2)) = (2 * r + m) / (2 * m).
Proof.
  intro Hm. destruct m as [|p|p]; try lia.
  unfold Qfloor, Qdiv, Qmult, Qinv, Qplus, inject_Z.
  cbn [Qnum Qden Z.sgn].
  f_equal; lia.
Qed.

(** Below 2^53 the two rounded quotients of [fmtYenParts] are the exact
    ones. *)
Lemma fmtYenParts64_decompose (a : Q) :
  (0 <= a)%Q -> (a < inject_Z (2 ^ 53))%Q ->
  B64.fmtYenParts (Fin a) = Spec.decompose a.
Proof.
  intros Ha Hb. unfold B64.fmtYenParts, Spec.decompose. cbv zeta.
  rewrite Math_round_nonneg, Spec_round_nonneg by assumption.
  pose proof (Qfloor_half_nonneg a Ha) as Hn.
  assert (Hm : Qfloor (a + (1 # 2)) <= 2 ^ 53).
  { assert (L : (inject_Z (Qfloor (a + (1 # 2))) < inject_Z (2 ^ 53 + 1))%Q).
    { eapply Qle_lt_trans; [apply Qfloor_le|].
      rewrite inject_Z_plus. change (inject_Z 1) with 1%Q. lra. }
    rewrite <- Zlt_Qlt in L. lia. }
  set (n := Qfloor (a + (1 # 2))) in *.
  rewrite ge_of_Z.
  pose proof (Z.mod_pos_bound n 100000000 ltac:(lia)) as Hr.
  destruct (100000000 <=? n) eqn:E.
  - apply Z.leb_le in E.
    rewrite oku64, rem_of_Z, man64 by lia.
    rewrite !Spec_round_nonneg by (apply Qnonneg_div; lia).
    rewrite Qfloor_div_half by lia.
    rewrite strict_eq_of_Z, !toLocaleString_groupDigits. reflexivity.
  - apply Z.leb_gt in E.
    rewrite man64 by lia.
    rewrite Spec_round_nonneg by (apply Qnonneg_div; lia).
    rewrite Qfloor_div_half by lia.
    rewrite toLocaleString_groupDigits. reflexivity.
Qed.

(** With the quotients of the reals the decomposition holds for every
    amount, and so the two embeddings of [fmtYenParts] agree below 2^53. *)
Lemma fmtYenParts_reals_decompose (a : Q) :
  (0 <= a)%Q -> fmtYenParts (Fin a) = Spec.decompose a.
Proof.
  intros Ha. unfold fmtYenParts, Spec.decompose. cbv zeta.
  rewrite Math_round_nonneg, Spec_round_nonneg by assumption.
  pose proof (Qfloor_half_nonneg a Ha) as Hn.
  set (n := Qfloor (a + (1 # 2))) in *.
  rewrite ge_of_Z.
  assert (Hr : 0 <= n mod 100000000) by (apply Z.mod_pos_bound; lia).
  rewrite !div_of_Z, rem_of_Z by lia.
  replace (n <? 0) with false by (symmetry; apply Z.ltb_ge; lia).
  rewrite div_of_Z by lia.
  replace (n mod 100000000 <? 0) with false by (symmetry; apply Z.ltb_ge; lia).
  rewrite Math_floor_fin_false, !Math_round_fin_false
    by (apply Qnonneg_div; lia).
  rewrite !Spec_round_nonneg by (apply Qnonneg_div; lia).
  rewrite Qfloor_div_inject_Z by lia.
  rewrite strict_eq_of_Z, !toLocaleString_groupDigits.
  reflexivity.
Qed.

Lemma fmtYenParts_binary64 (a : Q) :
  (0 <= a)%Q -> (a < inject_Z (2 ^ 53))%Q ->
  B64.fmtYenParts (Fin a) = fmtYenParts (Fin a).
Proof.
  intros Ha Hb.
  rewrite fmtYenParts64_decompose, fmtYenParts_reals_decompose by assumption.
  reflexivity.
Qed.

(** C1, within the integers that binary64 holds exactly: for every amount
    from 0 up to (not including) 2^53, [fmtYenParts] computes the
    decomposition of section 4.1 (round first; at or above 100,000,000 the
    oku and man parts with the unit switching to 億円 when man is 0; below,
    the rounded count of 万), the two quotients being those of binary64;
    and the three documented examples hold. *)
Theorem fmtYenParts_decompose :
  (forall a : Q,
     (0 <= a)%Q -> (a < inject_Z (2 ^ 53))%Q ->
     B64.fmtYenParts (Fin a) = Spec.decompose a) /\
  B64.fmtYenParts (of_Z 123456789) = {| num := "1億2,346"; unit := "万円" |} /\
  B64.fmtYenParts (of_Z 100000000) = {| num := "1"; unit := "億円" |} /\
  B64.fmtYenParts (of_Z 0) = {| num := "0"; unit := "万円" |}.
Proof.
  split; [exact fmtYenParts64_decompose|].
  repeat split; vm_compute; reflexivity.
Qed.

Lemma fmtYenParts_decompose_witness :
  (0 <= 123456789)%Q /\
  B64.fmtYenParts (Fin 123456789) = Spec.decompose 123456789.
Proof.
  split.
  - vm_compute. discriminate.
  - apply (proj1 fmtYenParts_decompose); vm_compute; [discriminate | reflexivity].
Defined.

(** C1 as stated fails beyond 2^53: the quotient [n / 100000000] is rounded
    to binary64 before [Math.floor] sees it.  For 2^80 the oku part of
    [fmtYenParts] ends in 292 where [floor(n / 100,000,000)] ends in 291. *)
Lemma fmtYenParts_rounded_quotient :
  B64.fmtYenParts (of_Z (2 ^ 80)) =
    {| num := "12,089,258,196,146,292億7,471"; unit := "万円" |} /\
  Spec.decompose (inject_Z (2 ^ 80)) =
    {| num := "12,089,258,196,146,291億7,471"; unit := "万円" |} /\
  B64.fmtYenParts (of_Z (2 ^ 80)) <> Spec.decompose (inject_Z (2 ^ 80)).
Proof. repeat split; vm_compute; (reflexivity || discriminate). Qed.

(** C7: [fmtYen] is the magnitude of [fmtYenParts] followed by its unit,
    for every number. *)
Theorem fmtYen_concat (n : number) :
  fmtYen n = num (fmtYenParts n) ++ unit (fmtYenParts n).
Proof.
  unfold fmtYen. destruct (fmtYenParts n) as [m u]. reflexivity.
Qed.

(** C9: the man part is not kept below 10,000.  For every integer amount
    below 2^53 whose remainder modulo 100,000,000 is at least 99,995,000
    the man part prints as "10,000" next to the unchanged oku part
    [n / 100,000,000]; at 199,999,999 the result is "1億10,000" with unit
    万円. *)
Theorem fmtYenParts_man_overflow :
  B64.fmtYenParts (of_Z 199999999) = {| num := "1億10,000"; unit := "万円" |} /\
  forall n : Z,
    100000000 <= n -> n < 2 ^ 53 -> 99995000 <= n mod 100000000 ->
    B64.fmtYenParts (of_Z n) =
    {| num := toLocaleString (of_Z (n / 100000000)) ++ "億" ++ "10,000";
       unit := "万円" |}.
Proof.
  split; [vm_compute; reflexivity|].
  intros n Hn Hb Hr. unfold B64.fmtYenParts. cbv zeta.
  rewrite Math_round_of_Z, ge_of_Z.
  replace (100000000 <=? n) with true by (symmetry; apply Z.leb_le; lia).
  pose proof (Z.mod_pos_bound n 100000000 ltac:(lia)) as Hm.
  rewrite oku64, rem_of_Z, man64 by lia.
  assert (M : (2 * (n mod 100000000) + 10000) / 20000 = 10000).
  { symmetry.
    apply (Z.div_unique _ _ _ (2 * (n mod 100000000) + 10000 - 200000000)); lia. }
  rewrite M. reflexivity.
Qed.

Lemma fmtYenParts_man_overflow_witness :
  B64.fmtYenParts (of_Z 299996000) =
  {| num := toLocaleString (of_Z (299996000 / 100000000)) ++ "億" ++ "10,000";
     unit := "万円" |}.
Proof.
  apply (proj2 fmtYenParts_man_overflow); vm_compute;
    (discriminate || reflexivity).
Defined.

Lemma round_below_oku (x : number) :
  negative_or_NaN x -> ge (Math_round x) (of_Z 100000000) = false.
Proof.
  intros [-> | H]; [reflexivity|].
  destruct x as [|s| |q]; simpl in H; try discriminate.
  - subst s. reflexivity.
  - rewrite Math_round_Fin. cbv zeta.
    change (Qltb q (inject_Z 0)) with (Qltb q 0) in H. rewrite H, andb_true_r.
    apply Qltb_lt in H.
    assert (Z0 : Qfloor (q + (1 # 2)) <= 0).
    { change 0 with (Qfloor (1 # 2)). apply Qfloor_resp_le. lra. }
    destruct (Qfloor (q + (1 # 2)) =? 0); [reflexivity|].
    rewrite ge_of_Z. apply Z.leb_gt. lia.
Qed.

Lemma fmtYenParts_below (x : number) :
  ge (Math_round x) (of_Z 100000000) = false ->
  fmtYenParts x =
  {| num := toLocaleString (Math_round (div (Math_round x) (of_Z 10000)));
     unit := "万円" |}.
Proof. intro H. unfold fmtYenParts. cbv zeta. rewrite H. reflexivity. Qed.



(** C3, as the code has it: a negative or NaN input is not rejected.  The
    call completes normally with an object of unit 万円; -5 gives "-0" and
    NaN gives "NaN". *)
Theorem fmtYenParts_accepts_negative_and_NaN :
  (forall x : number,
     negative_or_NaN x ->
     call_fmtYenParts x <> Throw InvalidArgument /\
     exists p : Parts, call_fmtYenParts x = Normal p /\ unit p = "万円") /\
  call_fmtYenParts (of_Z (-5)) = Normal {| num := "-0"; unit := "万円" |} /\
  call_fmtYenParts NaN = Normal {| num := "NaN"; unit := "万円" |}.
Proof.
  split; [|split; reflexivity].
  intros x H. split; [discriminate|].
  exists (fmtYenParts x). split; [reflexivity|].
  rewrite (fmtYenParts_below x (round_below_oku x H)). reflexivity.
Qed.

Lemma fmtYenParts_accepts_negative_and_NaN_witness :
  call_fmtYenParts (Fin (- (5 # 2))) <> Throw InvalidArgument /\
  exists p : Parts,
    call_fmtYenParts (Fin (- (5 # 2))) = Normal p /\ unit p = "万円".
Proof.
  apply (proj1 fmtYenParts_accepts_negative_and_NaN).
  right. reflexivity.
Defined.

(** C3 as stated fails: [fmtYenParts(-5)] and [fmtYenParts(NaN)] return
    objects instead of failing with InvalidArgument. *)
Lemma fmtYenParts_no_InvalidArgument :
  call_fmtYenParts (of_Z (-5)) <> Throw InvalidArgument /\
  call_fmtYenParts NaN <> Throw InvalidArgument.
Proof. split; discriminate. Qed.

(** *** The axis label *)

Lemma ge_Fin_of_Z (a : Q) (m : Z) :
  ge (Fin a) (of_Z m) = Qle_bool (inject_Z m) a.
Proof. unfold ge, lt, of_Z, val, Qltb. apply negb_involutive. Qed.

(** Division of a finite number by a positive integer. *)
Lemma div_Fin_of_Z (q : Q) (m : Z) :
  0 < m -> div (Fin q) (of_Z m) = fin (Qltb q 0) (q / inject_Z m).
Proof.
  intro Hm. unfold div, of_Z.
  change (is_zero (Fin (inject_Z m))) with (is_zero (of_Z m)).
  change (signbit (Fin (inject_Z m))) with (signbit (of_Z m)).
  rewrite is_zero_of_Z, signbit_of_Z.
  replace (m =? 0) with false by (symmetry; apply Z.eqb_neq; lia).
  replace (m <? 0) with false by (symmetry; apply Z.ltb_ge; lia).
  rewrite xorb_false_r. reflexivity.
Qed.

Lemma eqb_longer (c : ascii) (s : string) (d : ascii) :
  String.eqb (String c (s ++ String "." (String d ""))) ".0" = false.
Proof.
  simpl. destruct (Ascii.eqb c "."); [|reflexivity].
  destruct s as [|b [|b' s']]; simpl; try reflexivity;
    destruct (Ascii.eqb b "0"); reflexivity.
Qed.

(** The pattern [/\.0$/] on a string that ends with a point and one
    character. *)
Lemma replace_dot0_end_point (s : string) (d : ascii) :
  replace_dot0_end (s ++ String "." (String d "")) =
  if Ascii.eqb d "0" then s else s ++ String "." (String d "").
Proof.
  induction s as [|c s IH].
  - simpl. destruct (Ascii.eqb d "0") eqn:E.
    + apply Ascii.eqb_eq in E. subst. reflexivity.
    + destruct d as [[] [] [] [] [] [] [] []]; try discriminate E; reflexivity.
  - change (String c s ++ String "." (String d ""))
      with (String c (s ++ String "." (String d ""))).
    unfold replace_dot0_end; fold replace_dot0_end.
    rewrite eqb_longer, IH.
    destruct (Ascii.eqb d "0"); reflexivity.
Qed.

Lemma decimal_digit (d : Z) :
  0 <= d < 10 ->
  exists c : ascii, decimal d = String c "" /\ Ascii.eqb c "0" = (d =? 0).
Proof.
  intro H.
  assert (C : d = 0 \/ d = 1 \/ d = 2 \/ d = 3 \/ d = 4 \/
              d = 5 \/ d = 6 \/ d = 7 \/ d = 8 \/ d = 9) by lia.
  repeat (destruct C as [-> | C]; [eexists; split; reflexivity|]).
  subst. eexists; split; reflexivity.
Qed.

Lemma Qnonneg_div_pos (a : Q) (m : Z) :
  (0 <= a)%Q -> 0 < m -> (0 <= a / inject_Z m)%Q.
Proof.
  intros Ha Hm. apply Qle_shift_div_l.
  - change 0%Q with (inject_Z 0). rewrite <- Zlt_Qlt. lia.
  - rewrite Qmult_0_l. exact Ha.
Qed.

(** A non-negative real well inside the range rounds to a non-negative
    finite number. *)
Lemma rnd_finite_nonneg (q : Q) :
  (0 <= q)%Q -> (q < B64.pow2 1023)%Q ->
  exists x : Q, B64.rnd q = Fin x /\ (0 <= x)%Q.
Proof.
  intros H B. destruct (Qlt_le_dec 0 q) as [P | Z].
  - pose proof (magnitude_nonneg q P) as M0.
    destruct (rnd_pos_cases q P) as [[O _] | [_ (x & E & X)]].
    + exfalso.
      assert (E1 : B64.exponent q < 1023) by (apply exponent_upper; [assumption.. | lia]).
      pose proof (magnitude_next q P) as M1.
      assert (L : (B64.pow2 (B64.exponent q + 1) <= B64.pow2 1023)%Q)
        by (apply pow2_le; lia).
      assert (S : (B64.pow2 1023 < B64.pow2 1024)%Q)
        by (apply Qpower_lt_compat_l; [lia | reflexivity]).
      lra.
    + exists x. split; [exact E | lra].
  - exists 0%Q. split; [apply rnd_zero; lra | apply Qle_refl].
Qed.

(** C6, with the quotients of binary64: for every amount from 0 through
    the binary64 range, [fmtAxisYen] is the axis label of section 4.1
    computed on the rounded quotient: at or above 100,000,000 the binary64
    quotient by 100,000,000 rounded to one decimal with a final ".0"
    removed and "億" appended (from 10^21 on the quotient is printed in
    exponent notation), below it the grouped rounded binary64 quotient by
    10,000 followed by "万"; 123,456,789 gives "1.2億", 1,234,000 gives
    "123万" and 12,340,000 gives "1,234万". *)
Theorem fmtAxisYen_formatAxisLabel (exponent_notation : Q -> string) :
  (forall a : Q,
     (0 <= a)%Q -> (a < B64.pow2 1024)%Q ->
     B64.fmtAxisYen exponent_notation (Fin a) =
     Spec64.formatAxisLabel exponent_notation a) /\
  B64.fmtAxisYen exponent_notation (of_Z 123456789) = "1.2億" /\
  B64.fmtAxisYen exponent_notation (of_Z 1234000) = "123万" /\
  B64.fmtAxisYen exponent_notation (of_Z 12340000) = "1,234万".
Proof.
  split; [|repeat split; vm_compute; reflexivity].
  intros a Ha Hb. unfold B64.fmtAxisYen, Spec64.formatAxisLabel. cbv zeta.
  rewrite ge_Fin_of_Z.
  assert (P998 : (B64.pow2 1024 == 67108864 * B64.pow2 998)%Q).
  { change 1024 with (26 + 998). rewrite pow2_add. reflexivity. }
  assert (P1023 : (B64.pow2 998 <= B64.pow2 1023)%Q) by (apply pow2_le; lia).
  pose proof (pow2_pos 998) as P0.
  destruct (Qle_bool (inject_Z 100000000) a) eqn:E.
  - apply Qle_bool_iff in E. change (inject_Z 100000000) with 100000000%Q in E.
    f_equal. rewrite div64_Fin_of_Z by lia. unfold B64.quotient.
    set (q := (a / inject_Z 100000000)%Q).
    assert (Q1 : (q * 100000000 == a)%Q).
    { unfold q. change (inject_Z 100000000) with 100000000%Q. field. }
    destruct (rnd_finite_nonneg q) as (x & -> & X); [lra | lra |].
    cbn [val]. unfold toFixed1.
    assert (A : (Qabs x == x)%Q) by (apply Qabs_pos; exact X).
    rewrite (Qleb_comp _ _ (Qeq_refl (inject_Z (10 ^ 21))) _ _ A).
    destruct (Qle_bool (inject_Z (10 ^ 21)) x); [reflexivity|].
    unfold Spec.one_decimal. cbv zeta.
    replace (Qltb x 0) with false by (symmetry; apply Qltb_ge; exact X).
    rewrite Spec_round_nonneg by lra.
    unfold Qround_half_up.
    replace (Qfloor (Qabs x * 10 + (1 # 2))) with (Qfloor (x * 10 + (1 # 2)))
      by (apply Qfloor_comp; rewrite A; reflexivity).
    set (t := Qfloor (x * 10 + (1 # 2))).
    destruct (decimal_digit (t mod 10)) as [c [Dc Ec]];
      [apply Z.mod_pos_bound; lia|].
    rewrite Dc. simpl append at 1.
    change (decimal (t / 10) ++ "." ++ String c "")
      with (decimal (t / 10) ++ String "." (String c "")).
    rewrite replace_dot0_end_point, Ec. reflexivity.
  - assert (L : (a < 100000000)%Q).
    { apply Qnot_le_lt. intro L. apply Qle_bool_iff in L.
      change (inject_Z 100000000) with 100000000%Q in E. congruence. }
    f_equal. rewrite div64_Fin_of_Z by lia. unfold B64.quotient.
    set (q := (a / inject_Z 10000)%Q).
    assert (Q1 : (q * 10000 == a)%Q).
    { unfold q. change (inject_Z 10000) with 10000%Q. field. }
    assert (P14 : (B64.pow2 14 <= B64.pow2 1023)%Q) by (apply pow2_le; lia).
    assert (V14 : (B64.pow2 14 == 16384)%Q) by reflexivity.
    destruct (rnd_finite_nonneg q) as (x & -> & X); [lra | lra |].
    cbn [val].
    rewrite Math_round_nonneg, Spec_round_nonneg by exact X.
    apply toLocaleString_groupDigits.
Qed.

Lemma fmtAxisYen_formatAxisLabel_witness :
  B64.fmtAxisYen (fun _ => "") (Fin 250000000) =
  Spec64.formatAxisLabel (fun _ => "") 250000000.
Proof.
  apply (proj1 (fmtAxisYen_formatAxisLabel (fun _ => ""))).
  - vm_compute. discriminate.
  - vm_compute. reflexivity.
Defined.

(** C6 as stated fails where the quotient is rounded before it is cut to
    one decimal, and where it is printed in exponent notation.  115,000,000
    divided by 100,000,000 is the binary64 value just below 1.15, so the
    label is "1.1億" where 1.15 rounds to "1.2"; and 2^97 divided by
    100,000,000 is at least 10^21, so the label is the exponent notation
    of the quotient, "1.5845632502852868e+21", followed by "億". *)
Lemma fmtAxisYen_rounded_quotient :
  B64.fmtAxisYen (fun _ => "1.5845632502852868e+21") (of_Z 115000000) = "1.1億" /\
  Spec.formatAxisLabel 115000000 = "1.2億" /\
  B64.fmtAxisYen (fun _ => "1.5845632502852868e+21") (of_Z (2 ^ 97)) =
    "1.5845632502852868e+21億" /\
  Spec.formatAxisLabel (inject_Z (2 ^ 97)) = "1584563250285286751870.9億" /\
  B64.fmtAxisYen (fun _ => "1.5845632502852868e+21") (of_Z 115000000) <>
    Spec.formatAxisLabel 115000000.
Proof. repeat split; vm_compute; (reflexivity || discriminate). Qed.

(** ** The frame queue *)

Section Frames.

Variable r : run.

Lemma frame_idle (now : number) (s : state) :
  callbacks s = [] -> frame r now s = s.
Proof.
  intro H. unfold frame. rewrite H. destruct s; simpl in *. now subst.
Qed.

Lemma cancel_idle (id : nat) (s : state) :
  callbacks s = [] -> cancelAnimationFrame id s = s.
Proof.
  intro H. unfold cancelAnimationFrame. rewrite H. destruct s; simpl in *.
  now subst.
Qed.

(** With one callback queued, a frame is one call of [step]: one write, and
    a new entry exactly when progress is below 1. *)
Lemma frame_pending (now : number) (s : state) (id : nat) :
  callbacks s = [id] ->
  textContent (frame r now s) = (textContent s ++ [text r now])%list /\
  callbacks (frame r now s) =
    (if lt (p r now) (of_Z 1) then [S (last_handle s)] else []).
Proof.
  intro H. unfold frame. rewrite H. simpl. unfold step.
  destruct (lt (p r now) (of_Z 1)); simpl; split; reflexivity.
Qed.

Lemma exec_app (s : state) (a b : list event) :
  exec r s (a ++ b) = exec r (exec r s a) b.
Proof. apply fold_left_app. Qed.

(** Once the queue is empty nothing is written any more. *)
Lemma exec_idle (events : list event) (s : state) :
  callbacks s = [] -> exec r s events = s.
Proof.
  revert s. induction events as [|e events IH]; intros s H; [reflexivity|].
  simpl. destruct e as [now | id]; simpl.
  - rewrite frame_idle by exact H. apply IH, H.
  - rewrite cancel_idle by exact H. apply IH, H.
Qed.

Lemma react_at_most_one (s : state) (e : event) :
  (List.length (callbacks s) <= 1)%nat ->
  (List.length (callbacks (react r s e)) <= 1)%nat.
Proof.
  intro H. destruct e as [now | id]; simpl.
  - destruct (callbacks s) as [|h [|h' l]] eqn:E; simpl in H; try lia.
    + rewrite frame_idle by exact E. rewrite E. simpl. lia.
    + destruct (frame_pending now s h E) as [_ C]. rewrite C.
      destruct (lt (p r now) (of_Z 1)); simpl; lia.
  - etransitivity; [apply filter_length_le | exact H].
Qed.

Lemma exec_at_most_one (events : list event) (s : state) :
  (List.length (callbacks s) <= 1)%nat ->
  (List.length (callbacks (exec r s events)) <= 1)%nat.
Proof.
  revert s. induction events as [|e events IH]; intros s H; [exact H|].
  simpl. apply IH, react_at_most_one, H.
Qed.


End Frames.

Lemma animateNum_initial (from to : number) (ms : option number)
    (fmt : option (number -> string)) (now : number) (k : nat) :
  exists r s,
    animateNum from to ms fmt now (initial k) = (S k, r, s) /\
    r = {| Animation.from := from; Animation.to := to;
           Animation.ms := match ms with Some m => m | None => of_Z 700 end;
           Animation.fmt := fmt; t0 := now |} /\
    callbacks s = [S k] /\ textContent s = [].
Proof. eexists. eexists. repeat split. Qed.

(** ** The order of numbers under the operations *)

Lemma le_zero_l (s : bool) (y : number) : le (zero s) y = le (Fin 0) y.
Proof. destruct s, y as [|[]| |b]; reflexivity. Qed.

Lemma le_zero_r (s : bool) (x : number) : le x (zero s) = le x (Fin 0).
Proof. destruct s, x as [|[]| |a]; reflexivity. Qed.

Lemma le_Fin (a b : Q) : le (Fin a) (Fin b) = true <-> (a <= b)%Q.
Proof. apply le_rep; apply rep_refl. Qed.

Lemma le_comp_l (a a' : Q) (y : number) :
  (a == a')%Q -> le (Fin a) y = le (Fin a') y.
Proof.
  intro E. destruct y as [|[]| |b]; try reflexivity; unfold le, ge, lt, val;
    f_equal; apply Qltb_comp; (exact E || reflexivity).
Qed.

Lemma le_comp_r (x : number) (b b' : Q) :
  (b == b')%Q -> le x (Fin b) = le x (Fin b').
Proof.
  intro E. destruct x as [|[]| |a]; try reflexivity; unfold le, ge, lt, val;
    f_equal; apply Qltb_comp; (exact E || reflexivity).
Qed.

Lemma le_fin_l (s : bool) (a : Q) (y : number) : le (fin s a) y = le (Fin a) y.
Proof.
  unfold fin. destruct (Qeq_bool a 0) eqn:E; [|reflexivity].
  apply Qeq_bool_iff in E. rewrite le_zero_l. apply le_comp_l. now symmetry.
Qed.

Lemma le_fin_r (x : number) (s : bool) (b : Q) : le x (fin s b) = le x (Fin b).
Proof.
  unfold fin. destruct (Qeq_bool b 0) eqn:E; [|reflexivity].
  apply Qeq_bool_iff in E. rewrite le_zero_r. apply le_comp_r. now symmetry.
Qed.

Lemma le_NegZero_l (y : number) : le NegZero y = le (Fin 0) y.
Proof. apply (le_zero_l true). Qed.

Lemma le_NegZero_r (x : number) : le x NegZero = le x (Fin 0).
Proof. apply (le_zero_r true). Qed.

Lemma le_refl_of_le_l (x y : number) : le x y = true -> le x x = true.
Proof.
  destruct x as [|[]| |a], y as [| | |b]; try discriminate; try reflexivity;
    intros _; apply le_Fin, Qle_refl.
Qed.

Lemma le_bottom (y : number) : le y y = true -> le (Infinity true) y = true.
Proof. destruct y as [|[]| |b]; try discriminate; reflexivity. Qed.

Lemma le_top (x : number) : le x x = true -> le x (Infinity false) = true.
Proof. destruct x as [|[]| |a]; try discriminate; reflexivity. Qed.

Lemma rnd_le_refl (q : Q) : le (B64.rnd q) (B64.rnd q) = true.
Proof. apply rnd_le, Qle_refl. Qed.

(** Rounding keeps the order, infinities and zeros included. *)
Lemma le_round (x y : number) :
  le x y = true -> le (B64.round x) (B64.round y) = true.
Proof.
  intro H.
  destruct x as [|[]| |a], y as [|[]| |b]; try discriminate H;
    try reflexivity; unfold B64.round.
  - apply le_bottom, rnd_le_refl.
  - rewrite le_NegZero_l in *. apply le_Fin in H. apply rnd_nonneg, H.
  - apply le_top, rnd_le_refl.
  - rewrite le_NegZero_r in *. apply le_Fin in H. apply rnd_nonpos, H.
  - apply le_Fin in H. apply rnd_le, H.
Qed.

Lemma neg_le (x y : number) : le x y = true -> le (neg y) (neg x) = true.
Proof.
  intro H.
  destruct x as [|[]| |a], y as [|[]| |b]; try discriminate H;
    try reflexivity; unfold neg;
    rewrite ?le_NegZero_l, ?le_NegZero_r in H; try apply le_Fin in H;
    repeat match goal with
           | |- context [Qeq_bool ?q 0] =>
               let E := fresh "E" in
               destruct (Qeq_bool q 0) eqn:E;
               [apply Qeq_bool_iff in E | apply Qeq_bool_neq in E]
           end;
    rewrite ?le_NegZero_l, ?le_NegZero_r; try reflexivity;
    apply le_Fin; lra.
Qed.

Lemma add_le_r (c : number) (q : Q) (x y : number) :
  rep c q -> le x y = true -> le (add c x) (add c y) = true.
Proof.
  intros C H. apply rep_cases in C.
  destruct C as [[-> _] | (c' & -> & _)];
    destruct x as [|[]| |a], y as [|[]| |b]; try discriminate H;
    try reflexivity; unfold add;
    rewrite ?le_NegZero_l, ?le_NegZero_r in *; try apply le_Fin in H;
    try (apply le_Fin; lra).
Qed.

Lemma add_le_l (c : number) (q : Q) (x y : number) :
  rep c q -> le x y = true -> le (add x c) (add y c) = true.
Proof.
  intros C H. apply rep_cases in C.
  destruct C as [[-> _] | (c' & -> & _)];
    destruct x as [|[]| |a], y as [|[]| |b]; try discriminate H;
    try reflexivity; unfold add;
    rewrite ?le_NegZero_l, ?le_NegZero_r in *; try apply le_Fin in H;
    try (apply le_Fin; lra).
Qed.

Lemma min_le (x y : number) :
  le x y = true -> le (Math_min x (of_Z 1)) (Math_min y (of_Z 1)) = true.
Proof.
  intro H. unfold Math_min, of_Z.
  destruct x as [|[]| |a], y as [|[]| |b]; try discriminate H;
    try reflexivity;
    rewrite ?le_NegZero_l, ?le_NegZero_r in H; try apply le_Fin in H;
    unfold lt, val, signbit; change (inject_Z 1) with 1%Q;
    Qltb_cases; rewrite ?le_NegZero_l, ?le_NegZero_r;
    try reflexivity; try (apply le_Fin; lra).
Qed.

Lemma min_le_one (x : number) :
  le x x = true -> le (Math_min x (of_Z 1)) (of_Z 1) = true.
Proof.
  intro H. unfold Math_min, of_Z.
  destruct x as [|[]| |a]; try discriminate H; try reflexivity;
    unfold lt, val, signbit; change (inject_Z 1) with 1%Q;
    Qltb_cases; try reflexivity; try (apply le_Fin; lra).
Qed.

(** At or above 1 the progress is exactly 1. *)
Lemma min_one (x : number) :
  le (of_Z 1) x = true -> Math_min x (of_Z 1) = of_Z 1.
Proof.
  intro H. unfold Math_min, of_Z in *.
  destruct x as [|[]| |a]; try discriminate H; try reflexivity.
  apply le_Fin in H. change (inject_Z 1) with 1%Q in *.
  unfold lt, val, signbit. Qltb_cases.
Qed.

Lemma Math_round_le (x y : number) :
  le x y = true -> le (Math_round x) (Math_round y) = true.
Proof.
  intro H.
  destruct x as [|[]| |a], y as [|[]| |b]; try discriminate H;
    try reflexivity; unfold Math_round;
    rewrite ?le_NegZero_l, ?le_NegZero_r in H; try apply le_Fin in H;
    rewrite ?le_fin_l, ?le_fin_r, ?le_NegZero_l, ?le_NegZero_r;
    try reflexivity; apply le_Fin;
    lazymatch goal with
    | |- (0 <= inject_Z _)%Q =>
        change 0%Q with (inject_Z (Qfloor (0 + (1 # 2))))
    | |- (inject_Z _ <= 0)%Q =>
        change 0%Q with (inject_Z (Qfloor (0 + (1 # 2))))
    | _ => idtac
    end;
    rewrite <- Zle_Qle; apply Qfloor_resp_le; lra.
Qed.

Lemma div_le (m : Q) (x y : number) :
  (0 < m)%Q -> le x y = true -> le (div x (Fin m)) (div y (Fin m)) = true.
Proof.
  intros Hm H.
  assert (Z : Qeq_bool m 0 = false).
  { destruct (Qeq_bool m 0) eqn:E; [|reflexivity].
    apply Qeq_bool_iff in E. lra. }
  assert (S : Qltb m 0 = false) by (apply Qltb_ge; lra).
  assert (I : (0 < / m)%Q) by (apply Qinv_lt_0_compat, Hm).
  destruct x as [|[]| |a], y as [|[]| |b]; try discriminate H;
    unfold div, is_zero, signbit, val; rewrite ?Z, ?S; try reflexivity;
    rewrite ?le_NegZero_l, ?le_NegZero_r in H; try apply le_Fin in H;
    rewrite ?le_fin_l, ?le_fin_r; try reflexivity;
    apply le_Fin; unfold Qdiv; nra.
Qed.

Lemma mul_le (d : Q) (x y : number) :
  (0 < d)%Q -> le x y = true -> le (mul (Fin d) x) (mul (Fin d) y) = true.
Proof.
  intros Hd H.
  assert (Z : Qeq_bool d 0 = false).
  { destruct (Qeq_bool d 0) eqn:E; [|reflexivity].
    apply Qeq_bool_iff in E. lra. }
  assert (S : Qltb d 0 = false) by (apply Qltb_ge; lra).
  destruct x as [|[]| |a], y as [|[]| |b]; try discriminate H;
    unfold mul, is_zero, signbit, val; rewrite ?Z, ?S; try reflexivity;
    rewrite ?le_NegZero_l, ?le_NegZero_r in H; try apply le_Fin in H;
    rewrite ?le_fin_l, ?le_fin_r; try reflexivity;
    apply le_Fin; nra.
Qed.

Lemma mul_ge (d : Q) (x y : number) :
  (d < 0)%Q -> le x y = true -> le (mul (Fin d) y) (mul (Fin d) x) = true.
Proof.
  intros Hd H.
  assert (Z : Qeq_bool d 0 = false).
  { destruct (Qeq_bool d 0) eqn:E; [|reflexivity].
    apply Qeq_bool_iff in E. lra. }
  assert (S : Qltb d 0 = true) by (apply Qltb_lt; lra).
  destruct x as [|[]| |a], y as [|[]| |b]; try discriminate H;
    unfold mul, is_zero, signbit, val; rewrite ?Z, ?S; try reflexivity;
    rewrite ?le_NegZero_l, ?le_NegZero_r in H; try apply le_Fin in H;
    rewrite ?le_fin_l, ?le_fin_r; try reflexivity;
    apply le_Fin; nra.
Qed.

(** ** The operations of binary64 *)

Lemma add64_le_r (c : number) (q : Q) (x y : number) :
  rep c q -> le x y = true -> le (B64.add c x) (B64.add c y) = true.
Proof. intros C H. apply le_round, (add_le_r c q), H. exact C. Qed.

Lemma sub64_le_l (c : number) (q : Q) (x y : number) :
  rep c q -> le x y = true -> le (B64.sub x c) (B64.sub y c) = true.
Proof.
  intros C H. apply le_round, (add_le_l (neg c) (- q)%Q), H.
  apply rep_neg, C.
Qed.

Lemma sub64_ge_r (c : number) (q : Q) (x y : number) :
  rep c q -> le x y = true -> le (B64.sub c y) (B64.sub c x) = true.
Proof.
  intros C H. apply le_round, (add_le_r c q); [exact C|]. apply neg_le, H.
Qed.

Lemma div64_le (m : Q) (x y : number) :
  (0 < m)%Q -> le x y = true ->
  le (B64.div x (Fin m)) (B64.div y (Fin m)) = true.
Proof. intros Hm H. apply le_round, div_le; assumption. Qed.

Lemma mul64_le (d : Q) (x y : number) :
  (0 < d)%Q -> le x y = true ->
  le (B64.mul (Fin d) x) (B64.mul (Fin d) y) = true.
Proof. intros Hd H. apply le_round, mul_le; assumption. Qed.

Lemma mul64_ge (d : Q) (x y : number) :
  (d < 0)%Q -> le x y = true ->
  le (B64.mul (Fin d) y) (B64.mul (Fin d) x) = true.
Proof. intros Hd H. apply le_round, mul_ge; assumption. Qed.

(** On integers of magnitude up to 2^53 the operations are exact. *)
Lemma add64_of_Z (a b : Z) :
  Z.abs (a + b) <= 2 ^ 53 -> B64.add (of_Z a) (of_Z b) = of_Z (a + b).
Proof.
  intro H. unfold B64.add, of_Z. simpl add. unfold B64.round.
  rewrite (rnd_comp _ (inject_Z (a + b))) by (rewrite inject_Z_plus; reflexivity).
  apply rnd_inject_Z, H.
Qed.

Lemma neg_of_Z (b : Z) : b <> 0 -> neg (of_Z b) = of_Z (- b).
Proof.
  intro N. unfold of_Z. rewrite neg_Fin_nonzero; [reflexivity|].
  change 0%Q with (inject_Z 0). rewrite inject_Z_injective. exact N.
Qed.

Lemma sub64_of_Z (a b : Z) :
  Z.abs a <= 2 ^ 53 -> Z.abs (a - b) <= 2 ^ 53 ->
  B64.sub (of_Z a) (of_Z b) = of_Z (a - b).
Proof.
  intros Ha H. unfold B64.sub. destruct (Z.eq_dec b 0) as [-> | N].
  - rewrite Z.sub_0_r. unfold B64.add. simpl. apply rnd_inject_Z, Ha.
  - rewrite neg_of_Z by exact N. apply add64_of_Z. exact H.
Qed.

Lemma mul64_one (a : Z) :
  Z.abs a <= 2 ^ 53 -> B64.mul (of_Z a) (of_Z 1) = of_Z a.
Proof.
  intro H. unfold B64.mul.
  assert (M : mul (of_Z a) (of_Z 1) =
              fin (xorb (a <? 0) false) (inject_Z a * inject_Z 1)).
  { unfold mul, of_Z. cbn [val].
    change (signbit (Fin (inject_Z a))) with (signbit (of_Z a)).
    change (signbit (Fin (inject_Z 1))) with (signbit (of_Z 1)).
    rewrite !signbit_of_Z. reflexivity. }
  rewrite M, xorb_false_r. unfold fin.
  destruct (Qeq_bool (inject_Z a * inject_Z 1) 0) eqn:E.
  - apply Qeq_bool_iff in E.
    assert (A : a = 0).
    { apply inject_Z_injective. change (inject_Z 0) with 0%Q.
      change (inject_Z 1) with 1%Q in E. lra. }
    subst a. reflexivity.
  - unfold B64.round.
    rewrite (rnd_comp _ (inject_Z a))
      by (change (inject_Z 1) with 1%Q; ring).
    apply rnd_inject_Z, H.
Qed.

(** With integer ends of magnitude up to 2^52 the value at progress 1 is
    [to]. *)
Lemma final_value64 (f t : Z) :
  Z.abs f <= 2 ^ 52 -> Z.abs t <= 2 ^ 52 ->
  Math_round
    (B64.add (of_Z f) (B64.mul (B64.sub (of_Z t) (of_Z f)) (of_Z 1))) = of_Z t.
Proof.
  intros Hf Ht.
  rewrite sub64_of_Z, mul64_one, add64_of_Z by lia.
  replace (f + (t - f)) with t by lia. apply Math_round_of_Z.
Qed.

(** ** The ticks of a run in binary64 *)


Lemma sub64_one_one : B64.sub (of_Z 1) (of_Z 1) = Fin 0.
Proof. reflexivity. Qed.

Lemma sub64_one_zero : B64.sub (of_Z 1) (Fin 0) = of_Z 1.
Proof. vm_compute. reflexivity. Qed.


Section Run64.

Variable Math_pow : number -> positive -> number.

Hypothesis pow_zero : Math_pow (Fin 0) 4 = Fin 0.
Hypothesis pow_mono :
  forall x y : number,
    le (of_Z 0) x = true -> le x y = true ->
    le (Math_pow x 4) (Math_pow y 4) = true.

Variables (f t m z : Q) (fmt : option (number -> string)).
Hypothesis m_positive : (0 < m)%Q.

Lemma quotient_le (n1 n2 : Q) :
  (n1 <= n2)%Q ->
  le (B64.div (B64.sub (Fin n1) (Fin z)) (Fin m))
     (B64.div (B64.sub (Fin n2) (Fin z)) (Fin m)) = true.
Proof.
  intro H. apply div64_le; [exact m_positive|].
  apply (sub64_le_l (Fin z) z); [apply rep_refl | apply le_Fin, H].
Qed.

Lemma p64_le (n1 n2 : Q) :
  (n1 <= n2)%Q ->
  le (B64.p (finite_run f t m z fmt) (Fin n1))
     (B64.p (finite_run f t m z fmt) (Fin n2)) = true.
Proof. intro H. unfold B64.p. apply min_le, quotient_le, H. Qed.

Lemma p64_le_one (n : Q) :
  le (B64.p (finite_run f t m z fmt) (Fin n)) (of_Z 1) = true.
Proof.
  unfold B64.p. apply min_le_one.
  apply (le_refl_of_le_l _ _ (quotient_le n n (Qle_refl n))).
Qed.

(** What is left of the way, [1 - p], never goes below 0 and shrinks as
    time goes on. *)
Lemma rest_nonneg (n : Q) :
  le (of_Z 0)
     (B64.sub (of_Z 1) (B64.p (finite_run f t m z fmt) (Fin n))) = true.
Proof.
  change (of_Z 0) with (B64.sub (of_Z 1) (of_Z 1)).
  apply (sub64_ge_r (of_Z 1) (inject_Z 1)); [apply rep_of_Z | apply p64_le_one].
Qed.

Lemma rest_ge (n1 n2 : Q) :
  (n1 <= n2)%Q ->
  le (B64.sub (of_Z 1) (B64.p (finite_run f t m z fmt) (Fin n2)))
     (B64.sub (of_Z 1) (B64.p (finite_run f t m z fmt) (Fin n1))) = true.
Proof.
  intro H.
  apply (sub64_ge_r (of_Z 1) (inject_Z 1)); [apply rep_of_Z | apply p64_le, H].
Qed.

Lemma ease64_le (n1 n2 : Q) :
  (n1 <= n2)%Q ->
  le (B64.ease Math_pow (finite_run f t m z fmt) (Fin n1))
     (B64.ease Math_pow (finite_run f t m z fmt) (Fin n2)) = true.
Proof.
  intro H. unfold B64.ease.
  apply (sub64_ge_r (of_Z 1) (inject_Z 1)); [apply rep_of_Z|].
  apply pow_mono; [apply rest_nonneg | apply rest_ge, H].
Qed.





Lemma text64_done (n : Q) :
  B64.p (finite_run f t m z fmt) (Fin n) = of_Z 1 ->
  B64.text Math_pow (finite_run f t m z fmt) (Fin n) =
  Spec.written fmt
    (Math_round (B64.add (Fin f) (B64.mul (B64.sub (Fin t) (Fin f)) (of_Z 1)))).
Proof.
  intro P. unfold B64.text, B64.cur, B64.ease, Spec.written. rewrite P.
  rewrite sub64_one_one, pow_zero, sub64_one_zero. reflexivity.
Qed.




End Run64.

(** ** The frame queue, with the ticks of binary64 *)

Section Frames64.

Variable Math_pow : number -> positive -> number.
Variable r : run.

Lemma frame64_idle (now : number) (s : state) :
  callbacks s = [] -> B64.frame Math_pow r now s = s.
Proof.
  intro H. unfold B64.frame. rewrite H. destruct s; simpl in *. now subst.
Qed.

Lemma frame64_pending (now : number) (s : state) (id : nat) :
  callbacks s = [id] ->
  textContent (B64.frame Math_pow r now s) =
    (textContent s ++ [B64.text Math_pow r now])%list /\
  callbacks (B64.frame Math_pow r now s) =
    (if lt (B64.p r now) (of_Z 1) then [S (last_handle s)] else []).
Proof.
  intro H. unfold B64.frame. rewrite H. simpl. unfold B64.step.
  destruct (lt (B64.p r now) (of_Z 1)); simpl; split; reflexivity.
Qed.

Lemma exec64_app (s : state) (a b : list event) :
  B64.exec Math_pow r s (a ++ b) =
  B64.exec Math_pow r (B64.exec Math_pow r s a) b.
Proof. apply fold_left_app. Qed.


Lemma react64_at_most_one (s : state) (e : event) :
  (List.length (callbacks s) <= 1)%nat ->
  (List.length (callbacks (B64.react Math_pow r s e)) <= 1)%nat.
Proof.
  intro H. destruct e as [now | id]; simpl.
  - destruct (callbacks s) as [|h [|h' l]] eqn:E; simpl in H; try lia.
    + rewrite frame64_idle by exact E. rewrite E. simpl. lia.
    + destruct (frame64_pending now s h E) as [_ C]. rewrite C.
      destruct (lt (B64.p r now) (of_Z 1)); simpl; lia.
  - etransitivity; [apply filter_length_le | exact H].
Qed.

Lemma exec64_at_most_one (events : list event) (s : state) :
  (List.length (callbacks s) <= 1)%nat ->
  (List.length (callbacks (B64.exec Math_pow r s events)) <= 1)%nat.
Proof.
  revert s. induction events as [|e events IH]; intros s H; [exact H|].
  simpl. apply IH, react64_at_most_one, H.
Qed.

Lemma tick64_appends (s : state) (events : list event) (now : number) :
  (List.length (callbacks s) <= 1)%nat ->
  callbacks (B64.exec Math_pow r s events) <> [] ->
  textContent (B64.exec Math_pow r s (events ++ [Frame now])) =
  (textContent (B64.exec Math_pow r s events) ++ [B64.text Math_pow r now])%list.
Proof.
  intros H N. rewrite exec64_app. simpl.
  pose proof (exec64_at_most_one events s H) as L.
  destruct (callbacks (B64.exec Math_pow r s events)) as [|h [|h' l]] eqn:E;
    simpl in L; try lia; [contradiction|].
  apply (frame64_pending now _ h E).
Qed.



End Frames64.

(** ** Repeated squaring as [Math.pow] *)

Lemma powi_four (x : number) :
  B64.powi x 4 = B64.mul (B64.mul x x) (B64.mul x x).
Proof. reflexivity. Qed.

Lemma square_le (x y : number) :
  le (of_Z 0) x = true -> le x y = true ->
  le (of_Z 0) (mul x x) = true /\ le (mul x x) (mul y y) = true.
Proof.
  unfold of_Z. change (inject_Z 0) with 0%Q. intros H0 H.
  destruct x as [|[]| |a], y as [|[]| |b]; try discriminate H;
    try discriminate H0; try (split; reflexivity);
    unfold mul, is_zero, signbit, val;
    rewrite ?le_NegZero_l, ?le_NegZero_r in *;
    try apply le_Fin in H; try apply le_Fin in H0;
    rewrite ?le_fin_l, ?le_fin_r; split; try reflexivity;
    try (apply le_Fin; nra).
Qed.

Lemma square64_le (x y : number) :
  le (of_Z 0) x = true -> le x y = true ->
  le (of_Z 0) (B64.mul x x) = true /\
  le (B64.mul x x) (B64.mul y y) = true.
Proof.
  intros H0 H. destruct (square_le x y H0 H) as [A B].
  split; [|apply le_round, B].
  change (of_Z 0) with (B64.round (of_Z 0)). apply le_round, A.
Qed.

Lemma powi_mono (x y : number) :
  le (of_Z 0) x = true -> le x y = true ->
  le (B64.powi x 4) (B64.powi y 4) = true.
Proof.
  intros H0 H. rewrite !powi_four.
  destruct (square64_le x y H0 H) as [A B].
  apply (square64_le _ _ A B).
Qed.

Lemma powi_zero : B64.powi (Fin 0) 4 = Fin 0.
Proof. reflexivity. Qed.

Lemma powi_one : B64.powi (of_Z 1) 4 = of_Z 1.
Proof. vm_compute. reflexivity. Qed.

Lemma powi_NaN : B64.powi NaN 4 = NaN.
Proof. reflexivity. Qed.

(** ** The end of a run, on the reals *)

Lemma add_Fin_rep (a : Q) (y : number) (b : Q) :
  rep y b -> exists q, add (Fin a) y = Fin q /\ q == a + b.
Proof.
  intros [c H | q c H]; simpl; eexists; (split; [reflexivity|]).
  - rewrite H. ring.
  - now rewrite H.
Qed.

Section FiniteRun.

Variables (f t m z : Q) (fmt : option (number -> string)).
Hypothesis m_nonzero : ~ m == 0.

Lemma rep_p (n : Q) :
  rep (p (finite_run f t m z fmt) (Fin n)) (progress_min z m n).
Proof.
  unfold p, progress_min. apply rep_Math_min; [|apply (rep_of_Z 1)].
  apply rep_div; [|apply rep_refl|exact m_nonzero].
  apply rep_sub; apply rep_refl.
Qed.

Lemma lt_p (n : Q) :
  lt (p (finite_run f t m z fmt) (Fin n)) (of_Z 1) =
  Qltb (progress_min z m n) 1.
Proof. apply (lt_rep _ _ _ _ (rep_p n) (rep_of_Z 1)). Qed.

End FiniteRun.

Lemma progress_min_final (z m n : Q) :
  (0 < m)%Q -> (m <= n - z)%Q -> progress_min z m n == 1.
Proof.
  intros Hm H. unfold progress_min. apply Q.min_r.
  apply Qle_shift_div_l; [exact Hm | lra].
Qed.

Lemma positive_nonzero (m : Q) : (0 < m)%Q -> ~ m == 0.
Proof. intros Hm H. rewrite H in Hm. discriminate Hm. Qed.

(** ** Properties of the count-up animation *)




Lemma sub64_one_comp (a b : Q) :
  (a == b)%Q -> B64.sub (of_Z 1) (Fin a) = B64.sub (of_Z 1) (Fin b).
Proof.
  intro E. unfold B64.sub, B64.add, neg.
  rewrite (Qeqb_comp a b E 0%Q 0%Q (Qeq_refl 0%Q)).
  destruct (Qeq_bool b 0); [reflexivity|].
  unfold of_Z. simpl add. unfold B64.round. apply rnd_comp. rewrite E.
  reflexivity.
Qed.

(** From 0 on, what is left of the way is the same with and without the
    lower bound of [clamp]. *)
Lemma rest_clamped (x : number) :
  le (of_Z 0) x = true ->
  B64.sub (of_Z 1) (Math_min x (of_Z 1)) =
  B64.sub (of_Z 1) (clamp x (of_Z 0) (of_Z 1)).
Proof.
  intro H. unfold clamp, Math_min, Math_max, of_Z in *.
  change (inject_Z 0) with 0%Q in *. change (inject_Z 1) with 1%Q in *.
  destruct x as [|[]| |a]; try discriminate H; try reflexivity.
  apply le_Fin in H. unfold lt, val, signbit.
  Qltb_cases; apply sub64_one_comp; lra.
Qed.

Lemma min_negative (x : number) :
  lt x (of_Z 0) = true ->
  Math_min x (of_Z 1) = x /\
  strict_eq (clamp x (of_Z 0) (of_Z 1)) (of_Z 0) = true.
Proof.
  intro H. unfold clamp, Math_min, Math_max, strict_eq, of_Z in *.
  change (inject_Z 0) with 0%Q in *. change (inject_Z 1) with 1%Q in *.
  destruct x as [|[]| |a]; try discriminate H; try (split; reflexivity).
  unfold lt, val, signbit in *. apply Qltb_lt in H.
  split; Qltb_cases.
Qed.

Lemma current_clamped (Math_pow : number -> positive -> number)
    (from to x : number) :
  le (of_Z 0) x = true ->
  Spec64.current Math_pow from to (Math_min x (of_Z 1)) =
  Spec64.current Math_pow from to (clamp x (of_Z 0) (of_Z 1)).
Proof.
  intro H. unfold Spec64.current, Spec64.eased.
  rewrite (rest_clamped x H). reflexivity.
Qed.

Lemma text64_formula (Math_pow : number -> positive -> number)
    (from to d : number) (fmt : option (number -> string)) (t0 now : number) :
  B64.text Math_pow
    {| Animation.from := from; Animation.to := to; Animation.ms := d;
       Animation.fmt := fmt; Animation.t0 := t0 |} now =
  Spec.written fmt
    (Spec64.current Math_pow from to (Spec64.progress_min now t0 d)).
Proof.
  unfold B64.text, B64.cur, B64.ease, B64.p, Spec.written, Spec64.current,
    Spec64.eased, Spec64.progress_min.
  cbn [Animation.from Animation.to Animation.ms Animation.fmt Animation.t0].
  reflexivity.
Qed.

(** C5, as the code has it: a tick at time [now] of a run that is still
    scheduled writes [formatter(current)], or the grouped [current] without
    a formatter, where [current = round(from + (to - from) * eased)],
    [eased = 1 - (1 - progress)^4] and
    [progress = min((now - t0) / ms, 1)], every operation being that of
    binary64 and the fourth power that of the platform.  When the quotient
    [(now - t0) / ms] is at least 0 the value is the one that
    [clamp((now - t0) / ms, 0, 1)] gives; when the quotient is negative the
    progress is the quotient itself, where [clamp] gives 0: there is no
    lower bound. *)
Theorem step_progress_min :
  forall (Math_pow : number -> positive -> number)
         (from to : number) (ms : option number)
         (fmt : option (number -> string)) (t0 : number) (k : nat)
         (events : list event) (now : number)
         (id : nat) (r : run) (s : state),
    animateNum from to ms fmt t0 (initial k) = (id, r, s) ->
    callbacks (B64.exec Math_pow r s events) <> [] ->
    let durationMs := match ms with Some d => d | None => of_Z 700 end in
    let quotient := B64.div (B64.sub now t0) durationMs in
    textContent (B64.exec Math_pow r s (events ++ [Frame now])) =
      (textContent (B64.exec Math_pow r s events) ++
       [Spec.written fmt
          (Spec64.current Math_pow from to
             (Spec64.progress_min now t0 durationMs))])%list /\
    (le (of_Z 0) quotient = true ->
     Spec64.current Math_pow from to (Spec64.progress_min now t0 durationMs) =
     Spec64.current Math_pow from to (Spec64.progress now t0 durationMs)) /\
    (lt quotient (of_Z 0) = true ->
     Spec64.progress_min now t0 durationMs = quotient /\
     strict_eq (Spec64.progress now t0 durationMs) (of_Z 0) = true).
Proof.
  intros Math_pow from to ms fmt t0 k events now id r s E N durationMs quotient.
  destruct (animateNum_initial from to ms fmt t0 k)
    as (r' & s' & E' & Hr & Hc & Ht).
  rewrite E in E'. injection E' as _ <- <-.
  split; [|split].
  - rewrite (tick64_appends Math_pow r s events now);
      [|rewrite Hc; simpl; lia|exact N].
    subst r. rewrite text64_formula. reflexivity.
  - intro H. unfold Spec64.progress_min, Spec64.progress.
    exact (current_clamped Math_pow from to quotient H).
  - intro H. unfold Spec64.progress_min, Spec64.progress.
    exact (min_negative quotient H).
Qed.

Lemma step_progress_min_witness :
  textContent
    (B64.exec B64.powi (finite_run 0 1000 700 0 None)
       {| last_handle := 1; callbacks := [1%nat]; textContent := [];
          rafId := 1 |}
       ([] ++ [Frame (Fin 350)])) =
  ([] ++ [Spec.written None
            (Spec64.current B64.powi (Fin 0) (Fin 1000)
               (Spec64.progress_min (Fin 350) (Fin 0) (Fin 700)))])%list.
Proof.
  apply (step_progress_min B64.powi (Fin 0) (Fin 1000) (Some (Fin 700)) None
           (Fin 0) 0%nat [] (Fin 350) 1%nat _ _ eq_refl).
  discriminate.
Defined.

(** C5 as stated fails: with [t0 = 100], a tick at [now = 30] of
    [animateNum(el, 0, 1000, 700)] has progress -1/10, and writes "-464",
    where the clamped progress 0 would give "0".  The arithmetic of
    binary64 gives the same text, the progress being the binary64 value
    nearest to -1/10. *)
Lemma step_not_clamped :
  let '(id, r, s) :=
    animateNum (of_Z 0) (of_Z 1000) (Some (of_Z 700)) None (of_Z 100)
      (initial 0) in
  textContent (exec r s [Frame (of_Z 30)]) = ["-464"] /\
  textContent (exec r s [Frame (of_Z 30)]) <>
    [Spec.written None (Spec.current 0 1000 (Spec.progress 30 100 700))] /\
  lt (p r (of_Z 30)) (of_Z 0) = true /\
  textContent (B64.exec B64.powi r s [Frame (of_Z 30)]) = ["-464"] /\
  B64.p r (of_Z 30) = B64.rnd (- (1 # 10)) /\
  Spec.written None
    (Spec64.current B64.powi (of_Z 0) (of_Z 1000)
       (Spec64.progress (of_Z 30) (of_Z 100) (of_Z 700))) = "0".
Proof. vm_compute. repeat split. discriminate. Qed.



Lemma cancel_absent (id : nat) (s : state) :
  ~ In id (callbacks s) -> cancelAnimationFrame id s = s.
Proof.
  intro H. unfold cancelAnimationFrame.
  replace (filter (fun h => negb (Nat.eqb h id)) (callbacks s))
    with (callbacks s); [destruct s; reflexivity|].
  induction (callbacks s) as [|h l IH]; [reflexivity|].
  simpl. destruct (Nat.eqb h id) eqn:E.
  - apply Nat.eqb_eq in E. exfalso. apply H. left. exact E.
  - simpl. f_equal. apply IH. intro I. apply H. right. exact I.
Qed.

(** C2: cancelling the returned id before any frame leaves the sink
    untouched whatever follows.  After a first tick with progress below 1
    the returned id is stale: cancelling it changes nothing, and the run
    goes on writing.  For [animateNum(el, 0, 1000)] started at time 0, a
    frame at 16, the cancellation, then a frame at 32 gives two writes,
    "88" and "171". *)
Theorem animateNum_cancel :
  (forall (from to : number) (ms : option number)
          (fmt : option (number -> string)) (t0 : number) (k : nat)
          (events : list event),
     let '(id, r, s) := animateNum from to ms fmt t0 (initial k) in
     textContent (exec r s (Cancel id :: events)) = []) /\
  (forall (from to : number) (ms : option number)
          (fmt : option (number -> string)) (t0 : number) (k : nat)
          (now : number) (events : list event),
     let '(id, r, s) := animateNum from to ms fmt t0 (initial k) in
     lt (p r now) (of_Z 1) = true ->
     exec r s (Frame now :: Cancel id :: events) =
     exec r s (Frame now :: events)) /\
  (let '(id, r, s) :=
     animateNum (of_Z 0) (of_Z 1000) None None (of_Z 0) (initial 0) in
   textContent (exec r s [Frame (of_Z 16); Cancel id; Frame (of_Z 32)])
     = ["88"; "171"]).
Proof.
  split; [|split].
  - intros from to ms fmt t0 k events.
    destruct (animateNum_initial from to ms fmt t0 k)
      as (r & s & E & Hr & Hc & Ht).
    rewrite E. simpl exec.
    rewrite exec_idle.
    + simpl. exact Ht.
    + simpl. rewrite Hc. simpl. rewrite Nat.eqb_refl. reflexivity.
  - intros from to ms fmt t0 k now events.
    destruct (animateNum_initial from to ms fmt t0 k)
      as (r & s & E & Hr & Hc & Ht).
    rewrite E. intro P. simpl exec. f_equal.
    apply cancel_absent.
    destruct (frame_pending r now s (S k) Hc) as [_ C].
    rewrite C, P.
    assert (L : last_handle s = S k)
      by (change s with (snd (S k, r, s)); rewrite <- E; reflexivity).
    rewrite L. simpl. lia.
  - vm_compute. reflexivity.
Qed.

Lemma animateNum_cancel_witness :
  let '(id, r, s) :=
    animateNum (of_Z 0) (of_Z 1000) None None (of_Z 0) (initial 0) in
  exec r s (Frame (of_Z 16) :: Cancel id :: [Frame (of_Z 32)]) =
  exec r s (Frame (of_Z 16) :: [Frame (of_Z 32)]).
Proof.
  apply (proj1 (proj2 animateNum_cancel) (of_Z 0) (of_Z 1000) None None
           (of_Z 0) 0%nat (of_Z 16) [Frame (of_Z 32)]).
  vm_compute. reflexivity.
Defined.

(** * Further properties of the code *)

(** ** The yen formatter on integers *)

Lemma Math_round_idem (x : number) : Math_round (Math_round x) = Math_round x.
Proof.
  destruct x as [|s| |q]; try reflexivity.
  rewrite Math_round_Fin. cbv zeta.
  destruct ((Qfloor (q + (1 # 2)) =? 0) && Qltb q 0); [reflexivity|].
  apply Math_round_of_Z.
Qed.

(** X1: [fmtYenParts] sees its argument only through [Math.round]: an
    amount and its rounding give the same parts. *)
Theorem fmtYenParts_of_rounded (x : number) :
  fmtYenParts (Math_round x) = fmtYenParts x.
Proof.
  unfold fmtYenParts. cbv zeta. rewrite Math_round_idem. reflexivity.
Qed.

(** The parts of a non-negative integer, in integer arithmetic: the man
    count is [(2 r + 10000) / 20000] for the remainder [r]. *)
Lemma fmtYenParts_of_Z (n : Z) :
  0 <= n ->
  fmtYenParts (of_Z n) =
  if 100000000 <=? n then
    if (2 * (n mod 100000000) + 10000) / 20000 =? 0 then
      {| num := toLocaleString (of_Z (n / 100000000)); unit := "億円" |}
    else
      {| num := toLocaleString (of_Z (n / 100000000)) ++ "億" ++
                toLocaleString (of_Z ((2 * (n mod 100000000) + 10000) / 20000));
         unit := "万円" |}
  else
    {| num := toLocaleString (of_Z ((2 * n + 10000) / 20000)); unit := "万円" |}.
Proof.
  intro Hn. unfold fmtYenParts. cbv zeta.
  rewrite Math_round_of_Z, ge_of_Z.
  pose proof (Z.mod_pos_bound n 100000000 ltac:(lia)) as Hb.
  rewrite !div_of_Z, rem_of_Z by lia.
  replace (n <? 0) with false by (symmetry; apply Z.ltb_ge; lia).
  rewrite div_of_Z by lia.
  replace (n mod 100000000 <? 0) with false by (symmetry; apply Z.ltb_ge; lia).
  rewrite Math_floor_fin_false, !Math_round_fin_false
    by (apply Qnonneg_div; lia).
  rewrite Qfloor_div_inject_Z, !Qfloor_div_half by lia.
  rewrite strict_eq_of_Z. reflexivity.
Qed.

Lemma fmtYen_of_parts (n : number) (p : Parts) :
  fmtYenParts n = p -> fmtYen n = num p ++ unit p.
Proof. intros <-. unfold fmtYen. destruct (fmtYenParts n). reflexivity. Qed.

(** X2: for a non-negative integer amount the unit is 億円 exactly when
    the amount is at least 100,000,000 and its remainder modulo
    100,000,000 is below 5,000; in every other case it is 万円. *)
Theorem fmtYenParts_unit_oku (n : Z) :
  0 <= n ->
  (unit (fmtYenParts (of_Z n)) = "億円" <->
   100000000 <= n /\ n mod 100000000 < 5000) /\
  (unit (fmtYenParts (of_Z n)) = "万円" <->
   n < 100000000 \/ 5000 <= n mod 100000000).
Proof.
  intro Hn. rewrite (fmtYenParts_of_Z n Hn).
  pose proof (Z.mod_pos_bound n 100000000 ltac:(lia)) as Hb.
  destruct (100000000 <=? n) eqn:E.
  - apply Z.leb_le in E.
    destruct ((2 * (n mod 100000000) + 10000) / 20000 =? 0) eqn:M.
    + apply Z.eqb_eq in M.
      assert (n mod 100000000 < 5000)
        by (apply Z.div_small_iff in M; lia).
      simpl unit. intuition (discriminate || lia || reflexivity).
    + apply Z.eqb_neq in M.
      assert (5000 <= n mod 100000000).
      { destruct (Z_lt_le_dec (n mod 100000000) 5000) as [L|L]; [|exact L].
        exfalso. apply M. apply Z.div_small. lia. }
      simpl unit. intuition (discriminate || lia || reflexivity).
  - apply Z.leb_gt in E. simpl unit.
    intuition (discriminate || lia || reflexivity).
Qed.

Lemma fmtYenParts_unit_oku_witness :
  (unit (fmtYenParts (of_Z 300004999)) = "億円" <->
   100000000 <= 300004999 /\ 300004999 mod 100000000 < 5000) /\
  (unit (fmtYenParts (of_Z 300004999)) = "万円" <->
   300004999 < 100000000 \/ 5000 <= 300004999 mod 100000000).
Proof. apply (fmtYenParts_unit_oku 300004999). vm_compute. discriminate. Defined.

Lemma fmtYenParts_by_round (x y : number) :
  Math_round x = Math_round y -> fmtYenParts x = fmtYenParts y.
Proof. intro H. unfold fmtYenParts. cbv zeta. rewrite H. reflexivity. Qed.

Lemma Qfloor_half_bounds (a : Q) (lo hi : Z) :
  (inject_Z lo - (1 # 2) <= a)%Q -> (a < inject_Z hi - (1 # 2))%Q ->
  lo <= Qfloor (a + (1 # 2)) < hi.
Proof.
  intros L U.
  pose proof (Qfloor_le (a + (1 # 2))) as F1.
  pose proof (Qlt_floor (a + (1 # 2))) as F2.
  assert (A : (inject_Z lo < inject_Z (Qfloor (a + (1 # 2)) + 1))%Q) by lra.
  assert (B : (inject_Z (Qfloor (a + (1 # 2))) < inject_Z hi)%Q) by lra.
  rewrite <- Zlt_Qlt in A, B. lia.
Qed.

(** X3: a non-negative amount below 4,999.5 yen is printed as "0万円". *)
Theorem fmtYen_small (a : Q) :
  (0 <= a)%Q -> (a < 9999 # 2)%Q -> fmtYen (Fin a) = "0万円".
Proof.
  intros H0 H1.
  apply (fmtYen_of_parts _ {| num := "0"; unit := "万円" |}).
  rewrite (fmtYenParts_by_round (Fin a) (of_Z (Qfloor (a + (1 # 2)))))
    by (rewrite Math_round_of_Z; apply Math_round_nonneg, H0).
  destruct (Qfloor_half_bounds a 0 5000) as [L U]; [unfold inject_Z; lra | unfold inject_Z; lra |].
  rewrite fmtYenParts_of_Z by exact L.
  replace (100000000 <=? Qfloor (a + (1 # 2))) with false
    by (symmetry; apply Z.leb_gt; lia).
  rewrite Z.div_small by lia. reflexivity.
Qed.

Lemma fmtYen_small_witness : fmtYen (Fin (9998 # 2)) = "0万円".
Proof. apply fmtYen_small; vm_compute; trivial; discriminate. Defined.

(** X4: a negative amount down to -5,000.5 yen is printed as "-0万円":
    both roundings give negative zero, and negative zero keeps its sign in
    print. *)
Theorem fmtYen_small_negative (a : Q) :
  (a < 0)%Q -> (- (10001 # 2) <= a)%Q -> fmtYen (Fin a) = "-0万円".
Proof.
  intros H0 H1.
  apply (fmtYen_of_parts _ {| num := "-0"; unit := "万円" |}).
  destruct (Qfloor_half_bounds a (-5000) 1) as [L U]; [unfold inject_Z; lra | unfold inject_Z; lra |].
  pose proof (Math_round_Fin a) as R. cbv zeta in R.
  replace (Qltb a 0) with true in R by (symmetry; apply Qltb_lt, H0).
  rewrite andb_true_r in R.
  destruct (Qfloor (a + (1 # 2)) =? 0) eqn:E.
  - rewrite (fmtYenParts_by_round (Fin a) NegZero) by exact R. reflexivity.
  - apply Z.eqb_neq in E. set (z := Qfloor (a + (1 # 2))) in *.
    rewrite (fmtYenParts_by_round (Fin a) (of_Z z))
      by (rewrite Math_round_of_Z; exact R).
    unfold fmtYenParts. cbv zeta. rewrite Math_round_of_Z, ge_of_Z.
    replace (100000000 <=? z) with false by (symmetry; apply Z.leb_gt; lia).
    rewrite div_of_Z by lia.
    replace (z <? 0) with true by (symmetry; apply Z.ltb_lt; lia).
    assert (N : (inject_Z z / inject_Z 10000 < 0)%Q).
    { apply Qlt_shift_div_r; [reflexivity|]. rewrite Qmult_0_l.
      change 0%Q with (inject_Z 0). rewrite <- Zlt_Qlt. lia. }
    assert (F : fin true (inject_Z z / inject_Z 10000)
                = Fin (inject_Z z / inject_Z 10000)).
    { unfold fin. destruct (Qeq_bool _ 0) eqn:Q0; [|reflexivity].
      apply Qeq_bool_iff in Q0. lra. }
    rewrite F, Math_round_Fin. cbv zeta.
    rewrite Qfloor_div_half by lia.
    rewrite Z.div_small by lia.
    replace (Qltb (inject_Z z / inject_Z 10000) 0) with true
      by (symmetry; apply Qltb_lt, N).
    reflexivity.
Qed.

Lemma fmtYen_small_negative_witness : fmtYen (Fin (- (401 # 2))) = "-0万円".
Proof. apply fmtYen_small_negative; vm_compute; trivial; discriminate. Defined.

(** ** The axis label at its edges *)

(** X5: the axis label does not carry into 億: every amount from
    99,995,000 up to (not including) 100,000,000 is labelled "10,000万". *)
Theorem fmtAxisYen_no_carry (exponent_notation : Q -> string) (a : Q) :
  (inject_Z 99995000 <= a)%Q -> (a < inject_Z 100000000)%Q ->
  fmtAxisYen exponent_notation (Fin a) = "10,000万".
Proof.
  intros L U. unfold fmtAxisYen. rewrite ge_Fin_of_Z.
  replace (Qle_bool (inject_Z 100000000) a) with false.
  2:{ symmetry. apply (Qltb_lt a) in U. unfold Qltb in U.
      now apply negb_true_iff in U. }
  assert (A0 : (0 <= a)%Q).
  { eapply Qle_trans; [|exact L]. discriminate. }
  rewrite div_Fin_of_Z by lia.
  replace (Qltb a 0) with false by (symmetry; apply Qltb_ge, A0).
  rewrite Math_round_fin_false by (apply Qnonneg_div_pos; [exact A0 | lia]).
  replace (Qfloor (a / inject_Z 10000 + (1 # 2))) with 10000; [reflexivity|].
  symmetry. apply Qfloor_unique.
  - assert (X : (inject_Z 99995000 / inject_Z 10000 <= a / inject_Z 10000)%Q).
    { unfold Qdiv. apply Qmult_le_compat_r; [exact L | discriminate]. }
    assert (Y : inject_Z 99995000 / inject_Z 10000 == inject_Z 10000 - (1 # 2))
      by reflexivity.
    lra.
  - assert (X : (a / inject_Z 10000 < inject_Z 10000)%Q).
    { apply Qlt_shift_div_r; [reflexivity|]. exact U. }
    assert (Y : inject_Z (10000 + 1) == inject_Z 10000 + 1) by reflexivity.
    lra.
Qed.

Lemma fmtAxisYen_no_carry_witness :
  fmtAxisYen (fun _ => "") (Fin (inject_Z 99999999)) = "10,000万".
Proof. apply fmtAxisYen_no_carry; vm_compute; trivial; discriminate. Defined.

(** X6: a whole number [k] of 億 (below 10^21) is labelled by its plain
    decimal digits and "億": no ".0" is left and no grouping is applied. *)
Theorem fmtAxisYen_whole_oku (exponent_notation : Q -> string) (k : Z) :
  1 <= k -> k < 10 ^ 21 ->
  fmtAxisYen exponent_notation (of_Z (k * 100000000)) = decimal k ++ "億".
Proof.
  intros H1 H2. unfold fmtAxisYen. rewrite ge_of_Z.
  replace (100000000 <=? k * 100000000) with true
    by (symmetry; apply Z.leb_le; lia).
  f_equal. rewrite div_of_Z by lia.
  replace (k * 100000000 <? 0) with false by (symmetry; apply Z.ltb_ge; lia).
  set (q := (inject_Z (k * 100000000) / inject_Z 100000000)%Q).
  assert (Hq : q == inject_Z k).
  { unfold q. rewrite inject_Z_mult. field; discriminate. }
  assert (K1 : (1 <= inject_Z k)%Q)
    by (change 1%Q with (inject_Z 1); rewrite <- Zle_Qle; lia).
  assert (F : fin false q = Fin q).
  { unfold fin. destruct (Qeq_bool q 0) eqn:Q0; [|reflexivity].
    apply Qeq_bool_iff in Q0. lra. }
  rewrite F. unfold toFixed1.
  assert (A : Qabs q == inject_Z k) by (rewrite Hq; apply Qabs_pos; lra).
  replace (Qle_bool (inject_Z (10 ^ 21)) (Qabs q)) with false.
  2:{ symmetry. rewrite A.
      destruct (Qle_bool (inject_Z (10 ^ 21)) (inject_Z k)) eqn:E;
        [|reflexivity].
      apply Qle_bool_iff in E. rewrite <- Zle_Qle in E. lia. }
  replace (Qltb q 0) with false by (symmetry; apply Qltb_ge; lra).
  replace (Qround_half_up (Qabs q * 10)) with (k * 10).
  2:{ symmetry. unfold Qround_half_up.
      rewrite <- (Qfloor_half_inject_Z (k * 10)). apply Qfloor_comp.
      rewrite A, inject_Z_mult. reflexivity. }
  rewrite Z.div_mul, Z.mod_mul by lia.
  change ("" ++ decimal k ++ "." ++ decimal 0)
    with (decimal k ++ String "." (String "0" "")).
  rewrite replace_dot0_end_point. reflexivity.
Qed.

Lemma fmtAxisYen_whole_oku_witness :
  fmtAxisYen (fun _ => "") (of_Z (123456 * 100000000)) = decimal 123456 ++ "億".
Proof. apply fmtAxisYen_whole_oku; vm_compute; trivial; discriminate. Defined.

(** ** clamp *)

(** X7: with bounds in order ([lo <= hi]) and [v] not NaN, the result of
    [clamp] lies between the bounds, and equals [v] when [v] already
    does.  Infinite values and bounds are included. *)
Theorem clamp_within (v lo hi : number) :
  v <> NaN -> le lo hi = true ->
  le lo (clamp v lo hi) = true /\
  le (clamp v lo hi) hi = true /\
  (le lo v = true -> le v hi = true -> strict_eq (clamp v lo hi) v = true).
Proof.
  intros Hv H. unfold clamp, le, ge, strict_eq, Math_min, Math_max in *.
  number_cases; unfold lt, val; simpl; repeat split; intros;
    Qltb_cases.
Qed.

Lemma clamp_within_witness :
  le (of_Z 0) (clamp (of_Z 50) (of_Z 0) (of_Z 100)) = true /\
  le (clamp (of_Z 50) (of_Z 0) (of_Z 100)) (of_Z 100) = true /\
  (le (of_Z 0) (of_Z 50) = true -> le (of_Z 50) (of_Z 100) = true ->
   strict_eq (clamp (of_Z 50) (of_Z 0) (of_Z 100)) (of_Z 50) = true).
Proof. apply clamp_within; [discriminate | reflexivity]. Defined.

(** X8: with the bounds out of order ([max < min]) the result is [max],
    whatever [v] is, as long as it is not NaN. *)
Theorem clamp_inverted_bounds (v lo hi : number) :
  v <> NaN -> lt hi lo = true -> clamp v lo hi = hi.
Proof.
  intros Hv H. unfold clamp, Math_min, Math_max in *.
  number_cases; unfold lt, val in *; simpl in *; Qltb_cases.
Qed.

Lemma clamp_inverted_bounds_witness :
  clamp (of_Z 50) (of_Z 100) (of_Z 0) = of_Z 0.
Proof. apply clamp_inverted_bounds; [discriminate | reflexivity]. Defined.

(** X9: NaN in any of the three arguments makes the result NaN. *)
Theorem clamp_NaN (v lo hi : number) :
  v = NaN \/ lo = NaN \/ hi = NaN -> clamp v lo hi = NaN.
Proof.
  intros [-> | [-> | ->]]; unfold clamp, Math_min, Math_max.
  - destruct lo, hi; reflexivity.
  - destruct hi; reflexivity.
  - reflexivity.
Qed.

Lemma clamp_NaN_witness : clamp (of_Z 5) NaN (of_Z 100) = NaN.
Proof. apply clamp_NaN. right. left. reflexivity. Defined.

(** ** The life of a run *)

Lemma animateNum_finite (f t m z : Q) (fmt : option (number -> string))
    (k id : nat) (r : run) (s : state) :
  animateNum (Fin f) (Fin t) (Some (Fin m)) fmt (Fin z) (initial k) = (id, r, s) ->
  r = finite_run f t m z fmt /\ callbacks s = [S k] /\ textContent s = [].
Proof.
  intro E.
  destruct (animateNum_initial (Fin f) (Fin t) (Some (Fin m)) fmt (Fin z) k)
    as (r' & s' & E' & Hr & Hc & Ht).
  rewrite E in E'. injection E' as _ <- <-. repeat split; assumption.
Qed.

(** X10: once a frame comes at or after [t0 + ms], the run is over: no
    callback is queued, and no later frame or cancellation changes the
    sink or anything else. *)
Theorem animateNum_ends :
  forall (f t m z : Q) (fmt : option (number -> string)) (k : nat)
         (before after : list event) (now : Q)
         (id : nat) (r : run) (s : state),
    animateNum (Fin f) (Fin t) (Some (Fin m)) fmt (Fin z) (initial k)
      = (id, r, s) ->
    (0 < m)%Q -> (m <= now - z)%Q ->
    callbacks (exec r s (before ++ [Frame (Fin now)])) = [] /\
    exec r (exec r s (before ++ [Frame (Fin now)])) after =
    exec r s (before ++ [Frame (Fin now)]).
Proof.
  intros f t m z fmt k before after now id r s E Hm Hnow.
  destruct (animateNum_finite _ _ _ _ _ _ _ _ _ E) as (Hr & Hc & _).
  assert (C : callbacks (exec r s (before ++ [Frame (Fin now)])) = []).
  { rewrite exec_app. simpl.
    assert (L : (List.length (callbacks s) <= 1)%nat)
      by (rewrite Hc; simpl; lia).
    pose proof (exec_at_most_one r before s L) as L'.
    destruct (callbacks (exec r s before)) as [|h [|h' l]] eqn:Q;
      simpl in L'; try lia.
    - rewrite frame_idle by exact Q. exact Q.
    - destruct (frame_pending r (Fin now) _ h Q) as [_ C]. rewrite C.
      subst r. rewrite lt_p by (apply positive_nonzero, Hm).
      replace (Qltb (progress_min z m now) 1) with false; [reflexivity|].
      symmetry. apply Qltb_ge.
      rewrite (progress_min_final z m now Hm Hnow). apply Qle_refl. }
  split; [exact C | apply exec_idle, C].
Qed.

Lemma animateNum_ends_witness :
  callbacks
    (exec (finite_run 0 1000 700 0 None)
       {| last_handle := 1; callbacks := [1%nat]; textContent := [];
          rafId := 1 |}
       ([Frame (Fin 16)] ++ [Frame (Fin 700)])) = [] /\
  exec (finite_run 0 1000 700 0 None)
    (exec (finite_run 0 1000 700 0 None)
       {| last_handle := 1; callbacks := [1%nat]; textContent := [];
          rafId := 1 |}
       ([Frame (Fin 16)] ++ [Frame (Fin 700)]))
    [Frame (Fin 800)] =
  exec (finite_run 0 1000 700 0 None)
    {| last_handle := 1; callbacks := [1%nat]; textContent := [];
       rafId := 1 |}
    ([Frame (Fin 16)] ++ [Frame (Fin 700)]).
Proof.
  apply (animateNum_ends 0%Q 1000%Q 700%Q 0%Q None 0%nat
           [Frame (Fin 16)] [Frame (Fin 800)] 700%Q 1%nat _ _ eq_refl).
  - reflexivity.
  - vm_compute. discriminate.
Defined.

Lemma min_below (x : number) :
  lt x (of_Z 1) = true -> Math_min x (of_Z 1) = x.
Proof.
  intro H. unfold Math_min.
  destruct x as [|[]| |a]; try discriminate H; try reflexivity.
  rewrite H. reflexivity.
Qed.

(** A proper fraction of integers rounds to less than 1. *)
Lemma rnd_fraction_below_one (a m : Z) :
  a < m -> 0 < m <= 2 ^ 53 ->
  lt (B64.rnd (inject_Z a / inject_Z m)) (of_Z 1) = true.
Proof.
  intros Ha Hm. set (q := (inject_Z a / inject_Z m)%Q).
  assert (M0 : (0 < inject_Z m)%Q)
    by (change 0%Q with (inject_Z 0); rewrite <- Zlt_Qlt; lia).
  assert (M1 : (inject_Z m <= 9007199254740992)%Q)
    by (change 9007199254740992%Q with (inject_Z (2 ^ 53));
        rewrite <- Zle_Qle; lia).
  assert (A : (inject_Z a + 1 <= inject_Z m)%Q).
  { change 1%Q with (inject_Z 1). rewrite <- inject_Z_plus, <- Zle_Qle. lia. }
  assert (Q1 : (q * inject_Z m == inject_Z a)%Q) by (unfold q; field; lra).
  assert (I : (1 # 9007199254740992 <= / inject_Z m)%Q).
  { apply Qle_shift_inv_l; [exact M0|]. lra. }
  assert (I2 : (/ inject_Z m * inject_Z m == 1)%Q) by (field; lra).
  assert (Q2 : (q <= 1 - / inject_Z m)%Q).
  { setoid_replace q with (inject_Z a * / inject_Z m)%Q by reflexivity.
    assert (0 < / inject_Z m)%Q by (apply Qinv_lt_0_compat, M0). nra. }
  destruct (Qlt_le_dec 0 q) as [P | NP].
  - assert (E : (B64.exponent q < 0)%Z).
    { apply exponent_upper; [exact P | | lia].
      change (B64.pow2 0) with 1%Q. lra. }
    assert (U : (B64.ulp q <= 1 # 9007199254740992)%Q).
    { assert (V : (B64.pow2 (-53) == 1 # 9007199254740992)%Q) by reflexivity.
      rewrite <- V. apply pow2_le. lia. }
    destruct (magnitude_error q P) as [M _].
    destruct (rnd_pos_cases q P) as [[O _] | [_ (x & -> & X)]].
    + exfalso. pose proof pow2_1024_above as T.
      change (inject_Z (2 ^ 54)) with 18014398509481984%Q in T. lra.
    + unfold lt, of_Z, val. change (inject_Z 1) with 1%Q. apply Qltb_lt. lra.
  - pose proof (rnd_nonpos q NP) as L.
    destruct (B64.rnd q) as [|[]| |x]; try discriminate L; try reflexivity.
    apply le_Fin in L. unfold lt, of_Z, val. change (inject_Z 1) with 1%Q.
    apply Qltb_lt. lra.
Qed.

(** X11: while the progress computed at every frame is below 1, each frame
    writes once, in order, and the run stays scheduled with exactly one
    callback.  With integer times of magnitude up to 2^52 the computed
    progress is below 1 exactly as long as [now - t0 < ms]. *)
Theorem animateNum_running :
  (forall (Math_pow : number -> positive -> number)
          (from to : number) (ms : option number)
          (fmt : option (number -> string)) (t0 : number) (k : nat)
          (schedule : list number) (id : nat) (r : run) (s : state),
     animateNum from to ms fmt t0 (initial k) = (id, r, s) ->
     Forall (fun now => lt (B64.p r now) (of_Z 1) = true) schedule ->
     textContent (B64.exec Math_pow r s (map Frame schedule)) =
       map (B64.text Math_pow r) schedule /\
     List.length (callbacks (B64.exec Math_pow r s (map Frame schedule)))
       = 1%nat) /\
  (forall (from to : number) (fmt : option (number -> string)) (z m now : Z),
     Z.abs z <= 2 ^ 52 -> Z.abs now <= 2 ^ 52 -> 0 < m <= 2 ^ 52 ->
     lt (B64.p {| Animation.from := from; Animation.to := to;
                  Animation.ms := of_Z m; Animation.fmt := fmt;
                  Animation.t0 := of_Z z |} (of_Z now)) (of_Z 1)
     = (now - z <? m)).
Proof.
  split.
  - intros Math_pow from to ms fmt t0 k schedule id r s E Hall.
    destruct (animateNum_initial from to ms fmt t0 k)
      as (r' & s' & E' & Hr & Hc & Ht).
    rewrite E in E'. injection E' as _ <- <-. clear Hr.
    assert (G : forall s0 id0,
               callbacks s0 = [id0] ->
               textContent (B64.exec Math_pow r s0 (map Frame schedule)) =
                 (textContent s0 ++ map (B64.text Math_pow r) schedule)%list /\
               exists id', callbacks (B64.exec Math_pow r s0 (map Frame schedule))
                           = [id']).
    { induction Hall as [|n rest Hn Hrest IH]; intros s0 id0 H0.
      - simpl. rewrite app_nil_r. split; [reflexivity | exists id0; exact H0].
      - simpl. destruct (frame64_pending Math_pow r n s0 id0 H0) as [T C].
        rewrite Hn in C. destruct (IH _ _ C) as [T' C'].
        split; [|exact C']. rewrite T', T, <- app_assoc. reflexivity. }
    destruct (G s (S k) Hc) as [T [id' C]].
    rewrite T, Ht, C. split; reflexivity.
  - intros from to fmt z m now Hz Hn Hm. unfold B64.p.
    cbn [Animation.t0 Animation.ms].
    rewrite sub64_of_Z by lia.
    unfold of_Z at 1. rewrite div64_Fin_of_Z by lia.
    destruct (now - z <? m) eqn:L.
    + apply Z.ltb_lt in L.
      pose proof (rnd_fraction_below_one (now - z) m L ltac:(lia)) as B.
      rewrite (min_below _ B). exact B.
    + apply Z.ltb_ge in L. rewrite min_one; [reflexivity|].
      rewrite <- (rnd_inject_Z 1) by (vm_compute; discriminate).
      apply rnd_le.
      assert (M0 : (0 < inject_Z m)%Q)
        by (change 0%Q with (inject_Z 0); rewrite <- Zlt_Qlt; lia).
      apply Qle_shift_div_l; [exact M0|].
      change (inject_Z 1) with 1%Q. rewrite Qmult_1_l, <- Zle_Qle. exact L.
Qed.

Lemma animateNum_running_witness :
  textContent
    (B64.exec B64.powi (finite_run 0 1000 700 0 None)
       {| last_handle := 1; callbacks := [1%nat]; textContent := [];
          rafId := 1 |}
       (map Frame [of_Z 16; of_Z 16; of_Z 699])) =
    map (B64.text B64.powi (finite_run 0 1000 700 0 None))
      [of_Z 16; of_Z 16; of_Z 699] /\
  List.length
    (callbacks
       (B64.exec B64.powi (finite_run 0 1000 700 0 None)
          {| last_handle := 1; callbacks := [1%nat]; textContent := [];
             rafId := 1 |}
          (map Frame [of_Z 16; of_Z 16; of_Z 699]))) = 1%nat.
Proof.
  apply (proj1 animateNum_running B64.powi (Fin 0) (Fin 1000) (Some (Fin 700))
           None (Fin 0) 0%nat [of_Z 16; of_Z 16; of_Z 699] 1%nat _ _ eq_refl).
  repeat constructor.
Defined.

(** ** The values a run writes *)

Lemma sub64_same (a b : Q) : (a == b)%Q -> B64.sub (Fin a) (Fin b) = Fin 0.
Proof.
  intro E. unfold B64.sub, B64.add, neg.
  destruct (Qeq_bool b 0) eqn:Z.
  - apply Qeq_bool_iff in Z. simpl. apply rnd_zero. lra.
  - simpl. apply rnd_zero. lra.
Qed.

Lemma div64_zero (m : Q) : (0 < m)%Q -> B64.div (Fin 0) (Fin m) = Fin 0.
Proof.
  intro Hm. unfold B64.div, div, is_zero, signbit, val.
  replace (Qeq_bool m 0) with false.
  2:{ symmetry. destruct (Qeq_bool m 0) eqn:E; [|reflexivity].
      apply Qeq_bool_iff in E. lra. }
  replace (Qltb m 0) with false by (symmetry; apply Qltb_ge; lra).
  reflexivity.
Qed.

(** [from + (to - from) * 0] is [from]. *)
Lemma value_start (f d : Z) :
  Z.abs f <= 2 ^ 53 ->
  Math_round (B64.add (of_Z f) (B64.mul (of_Z d) (Fin 0))) = of_Z f.
Proof.
  intro H.
  assert (M : B64.mul (of_Z d) (Fin 0) = zero (d <? 0)).
  { unfold B64.mul, mul, of_Z. cbn [val].
    change (signbit (Fin (inject_Z d))) with (signbit (of_Z d)).
    rewrite signbit_of_Z. cbn [signbit].
    change (Qltb 0 0) with false. rewrite xorb_false_r. unfold fin.
    replace (Qeq_bool (inject_Z d * 0) 0) with true
      by (symmetry; apply Qeq_bool_iff; ring).
    destruct (d <? 0); reflexivity. }
  rewrite M. destruct (d <? 0); unfold zero.
  - unfold B64.add. simpl. rewrite rnd_inject_Z by exact H.
    apply Math_round_of_Z.
  - change (Fin 0) with (of_Z 0). rewrite add64_of_Z by (rewrite Z.add_0_r; exact H).
    rewrite Z.add_0_r. apply Math_round_of_Z.
Qed.

(** [from + 0 * ease] is [from] for a finite [ease]. *)
Lemma value_constant (f : Z) (e : number) :
  Z.abs f <= 2 ^ 53 ->
  le (of_Z 0) e = true -> le e (of_Z 1) = true ->
  Math_round (B64.add (of_Z f) (B64.mul (of_Z 0) e)) = of_Z f.
Proof.
  intros H L0 L1.
  assert (M : exists s, B64.mul (of_Z 0) e = zero s).
  { destruct e as [|[]| |a]; try discriminate L0; try discriminate L1.
    - exists true. reflexivity.
    - exists (Qltb a 0). unfold B64.mul, mul, of_Z. cbn [val signbit].
      change (Qltb (inject_Z 0) 0) with false. rewrite xorb_false_l.
      unfold fin.
      replace (Qeq_bool (inject_Z 0 * a) 0) with true
        by (symmetry; apply Qeq_bool_iff; change (inject_Z 0) with 0%Q; ring).
      destruct (Qltb a 0); reflexivity. }
  destruct M as [s ->]. destruct s; unfold zero.
  - unfold B64.add. simpl. rewrite rnd_inject_Z by exact H.
    apply Math_round_of_Z.
  - change (Fin 0) with (of_Z 0). rewrite add64_of_Z by (rewrite Z.add_0_r; exact H).
    rewrite Z.add_0_r. apply Math_round_of_Z.
Qed.

Section Values64.

Variable Math_pow : number -> positive -> number.

Hypothesis pow_zero : Math_pow (Fin 0) 4 = Fin 0.
Hypothesis pow_one : Math_pow (of_Z 1) 4 = of_Z 1.
Hypothesis pow_mono :
  forall x y : number,
    le (of_Z 0) x = true -> le x y = true ->
    le (Math_pow x 4) (Math_pow y 4) = true.

Variables (f t m z : Q) (fmt : option (number -> string)).
Hypothesis m_positive : (0 < m)%Q.

Lemma p64_start (now : Q) :
  (now == z)%Q -> B64.p (finite_run f t m z fmt) (Fin now) = Fin 0.
Proof.
  intro E. unfold B64.p. cbn [Animation.t0 Animation.ms finite_run].
  rewrite (sub64_same now z E), (div64_zero m m_positive). reflexivity.
Qed.

Lemma ease64_start (now : Q) :
  (now == z)%Q ->
  B64.ease Math_pow (finite_run f t m z fmt) (Fin now) = Fin 0.
Proof.
  intro E. unfold B64.ease. rewrite (p64_start now E).
  rewrite sub64_one_zero, pow_one. reflexivity.
Qed.

(** From [t0] on the easing stays between 0 and 1. *)
Lemma ease64_range (now : Q) :
  (z <= now)%Q ->
  le (of_Z 0) (B64.ease Math_pow (finite_run f t m z fmt) (Fin now)) = true /\
  le (B64.ease Math_pow (finite_run f t m z fmt) (Fin now)) (of_Z 1) = true.
Proof.
  intro H. split.
  - change (of_Z 0) with (Fin 0).
    rewrite <- (ease64_start z (Qeq_refl z)).
    apply (ease64_le Math_pow pow_mono f t m z fmt m_positive), H.
  - unfold B64.ease.
    set (rest := B64.sub (of_Z 1) (B64.p (finite_run f t m z fmt) (Fin now))).
    assert (G : le (B64.sub (of_Z 1) (Math_pow rest 4))
                   (B64.sub (of_Z 1) (Math_pow (Fin 0) 4)) = true).
    { apply (sub64_ge_r (of_Z 1) (inject_Z 1)); [apply rep_of_Z|].
      apply pow_mono; [reflexivity|].
      apply (rest_nonneg f t m z fmt m_positive). }
    rewrite pow_zero, sub64_one_zero in G. exact G.
Qed.

End Values64.

Lemma value64_le (c d : Z) (e1 e2 : number) :
  0 < d -> le e1 e2 = true ->
  le (Math_round (B64.add (of_Z c) (B64.mul (of_Z d) e1)))
     (Math_round (B64.add (of_Z c) (B64.mul (of_Z d) e2))) = true.
Proof.
  intros Hd H.
  apply Math_round_le, (add64_le_r (of_Z c) (inject_Z c)); [apply rep_of_Z|].
  apply mul64_le; [|exact H].
  change 0%Q with (inject_Z 0). rewrite <- Zlt_Qlt. exact Hd.
Qed.

Lemma value64_ge (c d : Z) (e1 e2 : number) :
  d < 0 -> le e1 e2 = true ->
  le (Math_round (B64.add (of_Z c) (B64.mul (of_Z d) e2)))
     (Math_round (B64.add (of_Z c) (B64.mul (of_Z d) e1))) = true.
Proof.
  intros Hd H.
  apply Math_round_le, (add64_le_r (of_Z c) (inject_Z c)); [apply rep_of_Z|].
  apply mul64_ge; [|exact H].
  change 0%Q with (inject_Z 0). rewrite <- Zlt_Qlt. exact Hd.
Qed.

Lemma le_of_Z (a b : Z) : le (of_Z a) (of_Z b) = true <-> a <= b.
Proof. unfold of_Z. rewrite le_Fin, <- Zle_Qle. reflexivity. Qed.

(** X12: from [t0] on, a run between integers of magnitude up to 2^52
    never writes a value outside the interval from [from] to [to]: the
    easing does not overshoot, on a platform whose [Math.pow(x, 4)] is 0 at
    0, 1 at 1 and does not decrease as [x >= 0] grows. *)
Theorem animateNum_no_overshoot
    (Math_pow : number -> positive -> number)
    (f t : Z) (m z : Q) (fmt : option (number -> string)) (now : Q) :
  Math_pow (Fin 0) 4%positive = Fin 0 ->
  Math_pow (of_Z 1) 4%positive = of_Z 1 ->
  (forall x y : number,
     le (of_Z 0) x = true -> le x y = true ->
     le (Math_pow x 4%positive) (Math_pow y 4%positive) = true) ->
  Z.abs f <= 2 ^ 52 -> Z.abs t <= 2 ^ 52 ->
  (0 < m)%Q -> (z <= now)%Q ->
  let cur :=
    B64.cur Math_pow (finite_run (inject_Z f) (inject_Z t) m z fmt) (Fin now) in
  (f <= t -> le (of_Z f) cur = true /\ le cur (of_Z t) = true) /\
  (t <= f -> le (of_Z t) cur = true /\ le cur (of_Z f) = true).
Proof.
  intros P0 P1 PM Hf Ht Hm Hz cur.
  destruct (ease64_range Math_pow P0 P1 PM (inject_Z f) (inject_Z t) m z fmt
              Hm now Hz) as [E0 E1].
  assert (C : cur =
              Math_round
                (B64.add (of_Z f)
                   (B64.mul (of_Z (t - f))
                      (B64.ease Math_pow
                         (finite_run (inject_Z f) (inject_Z t) m z fmt)
                         (Fin now))))).
  { unfold cur, B64.cur. cbn [Animation.from Animation.to finite_run].
    change (Fin (inject_Z t)) with (of_Z t).
    change (Fin (inject_Z f)) with (of_Z f).
    rewrite sub64_of_Z by lia. reflexivity. }
  set (e := B64.ease Math_pow (finite_run (inject_Z f) (inject_Z t) m z fmt)
              (Fin now)) in *.
  assert (S : Math_round (B64.add (of_Z f) (B64.mul (of_Z (t - f)) (Fin 0)))
              = of_Z f) by (apply value_start; lia).
  assert (F : Math_round (B64.add (of_Z f) (B64.mul (of_Z (t - f)) (of_Z 1)))
              = of_Z t).
  { rewrite <- (final_value64 f t Hf Ht). rewrite sub64_of_Z by lia.
    reflexivity. }
  rewrite C.
  destruct (Z.lt_trichotomy f t) as [L | [EQ | G]].
  - split; [intros _ | intro; lia].
    pose proof (value64_le f (t - f) _ _ ltac:(lia) E0) as A.
    pose proof (value64_le f (t - f) _ _ ltac:(lia) E1) as B.
    change (of_Z 0) with (Fin 0) in A. rewrite S in A. rewrite F in B.
    split; assumption.
  - subst t. rewrite Z.sub_diag.
    rewrite (value_constant f e) by (assumption || lia).
    split; intros _; split; apply le_of_Z; lia.
  - split; [intro; lia | intros _].
    pose proof (value64_ge f (t - f) _ _ ltac:(lia) E0) as A.
    pose proof (value64_ge f (t - f) _ _ ltac:(lia) E1) as B.
    change (of_Z 0) with (Fin 0) in A. rewrite S in A. rewrite F in B.
    split; assumption.
Qed.

Lemma animateNum_no_overshoot_witness :
  le (of_Z 0) (B64.cur B64.powi (finite_run 0 1000 700 0 None) (Fin 350)) = true /\
  le (B64.cur B64.powi (finite_run 0 1000 700 0 None) (Fin 350)) (of_Z 1000) = true.
Proof.
  apply (proj1 (animateNum_no_overshoot B64.powi 0 1000 700 0 None 350
                  powi_zero powi_one powi_mono
                  ltac:(vm_compute; discriminate) ltac:(vm_compute; discriminate)
                  ltac:(reflexivity) ltac:(discriminate))).
  discriminate.
Defined.

(** X13: a tick exactly at [t0] of a run between integers of magnitude up
    to 2^52 writes the formatted [from] and asks for another frame. *)
Theorem animateNum_first_value
    (Math_pow : number -> positive -> number)
    (f t : Z) (m z : Q) (fmt : option (number -> string)) (now : Q) :
  Math_pow (of_Z 1) 4%positive = of_Z 1 ->
  Z.abs f <= 2 ^ 52 -> Z.abs t <= 2 ^ 52 ->
  (0 < m)%Q -> (now == z)%Q ->
  B64.text Math_pow (finite_run (inject_Z f) (inject_Z t) m z fmt) (Fin now) =
    Spec.written fmt (of_Z f) /\
  lt (B64.p (finite_run (inject_Z f) (inject_Z t) m z fmt) (Fin now)) (of_Z 1)
    = true.
Proof.
  intros P1 Hf Ht Hm Hz. split.
  - unfold B64.text, Spec.written, B64.cur.
    rewrite (ease64_start Math_pow P1 (inject_Z f) (inject_Z t) m z fmt Hm now Hz).
    cbn [Animation.from Animation.to Animation.fmt finite_run].
    change (Fin (inject_Z t)) with (of_Z t).
    change (Fin (inject_Z f)) with (of_Z f).
    rewrite sub64_of_Z, value_start by lia. reflexivity.
  - rewrite (p64_start (inject_Z f) (inject_Z t) m z fmt Hm now Hz).
    reflexivity.
Qed.

Lemma animateNum_first_value_witness :
  B64.text B64.powi (finite_run (inject_Z 12) (inject_Z 1000) 700 5 None) (Fin 5) =
    Spec.written None (of_Z 12) /\
  lt (B64.p (finite_run (inject_Z 12) (inject_Z 1000) 700 5 None) (Fin 5)) (of_Z 1)
    = true.
Proof.
  apply (animateNum_first_value B64.powi 12 1000 700 5 None 5 powi_one);
    try reflexivity; vm_compute; discriminate.
Defined.

(** X14: when [to] equals [from], an integer of magnitude up to 2^52,
    every tick from [t0] on writes the formatted [from]. *)
Theorem animateNum_constant
    (Math_pow : number -> positive -> number)
    (f : Z) (m z : Q) (fmt : option (number -> string)) (now : Q) :
  Math_pow (Fin 0) 4%positive = Fin 0 ->
  Math_pow (of_Z 1) 4%positive = of_Z 1 ->
  (forall x y : number,
     le (of_Z 0) x = true -> le x y = true ->
     le (Math_pow x 4%positive) (Math_pow y 4%positive) = true) ->
  Z.abs f <= 2 ^ 52 -> (0 < m)%Q -> (z <= now)%Q ->
  B64.text Math_pow (finite_run (inject_Z f) (inject_Z f) m z fmt) (Fin now) =
  Spec.written fmt (of_Z f).
Proof.
  intros P0 P1 PM Hf Hm Hz.
  destruct (ease64_range Math_pow P0 P1 PM (inject_Z f) (inject_Z f) m z fmt
              Hm now Hz) as [E0 E1].
  unfold B64.text, Spec.written, B64.cur.
  cbn [Animation.from Animation.to Animation.fmt finite_run].
  change (Fin (inject_Z f)) with (of_Z f).
  rewrite sub64_of_Z by lia. rewrite Z.sub_diag.
  rewrite value_constant by (assumption || lia). reflexivity.
Qed.

Lemma animateNum_constant_witness :
  B64.text B64.powi (finite_run (inject_Z 42) (inject_Z 42) 700 0 None) (Fin 123) =
  Spec.written None (of_Z 42).
Proof.
  apply (animateNum_constant B64.powi 42 700 0 None 123
           powi_zero powi_one powi_mono);
    try reflexivity; vm_compute; discriminate.
Defined.

(** ** A zero duration *)

Lemma sub_Fin (a b : Q) : exists q, sub (Fin a) (Fin b) = Fin q /\ q == a - b.
Proof.
  unfold sub. destruct (add_Fin_rep a _ _ (rep_neg _ _ (rep_refl b)))
    as [q [E H]].
  exists q. split; [exact E|]. rewrite H. ring.
Qed.

Lemma mul64_NaN_r (x : number) : B64.mul x NaN = NaN.
Proof. unfold B64.mul. destruct x; reflexivity. Qed.

Lemma div64_by_zero (e : number) :
  lt (of_Z 0) e = true -> B64.div e (Fin 0) = Infinity false.
Proof.
  intro H. destruct e as [|[]| |a]; try discriminate H; try reflexivity.
  unfold lt, of_Z, val in H. change (inject_Z 0) with 0%Q in H.
  apply Qltb_lt in H.
  unfold B64.div, div, is_zero, signbit.
  change (Qeq_bool 0 0) with true. cbv iota.
  replace (Qeq_bool a 0) with false.
  2:{ symmetry. destruct (Qeq_bool a 0) eqn:E; [|reflexivity].
      apply Qeq_bool_iff in E. lra. }
  replace (Qltb a 0) with false by (symmetry; apply Qltb_ge; lra).
  reflexivity.
Qed.

(** X15: with [ms = 0] and integer ends of magnitude up to 2^52, a tick
    whose elapsed time [now - t0] is computed positive writes the formatted
    [to] at once and ends the run; a tick exactly at [t0] divides 0 by 0:
    [cur] is NaN (printed "NaN" without a formatter) and the run ends as
    well. *)
Theorem animateNum_zero_duration
    (Math_pow : number -> positive -> number)
    (f t : Z) (z : Q) (fmt : option (number -> string)) (now : Q) :
  Math_pow (Fin 0) 4%positive = Fin 0 ->
  Math_pow NaN 4%positive = NaN ->
  Z.abs f <= 2 ^ 52 -> Z.abs t <= 2 ^ 52 ->
  (lt (of_Z 0) (B64.sub (Fin now) (Fin z)) = true ->
   B64.text Math_pow (finite_run (inject_Z f) (inject_Z t) 0 z fmt) (Fin now) =
     Spec.written fmt (of_Z t) /\
   lt (B64.p (finite_run (inject_Z f) (inject_Z t) 0 z fmt) (Fin now)) (of_Z 1)
     = false) /\
  ((now == z)%Q ->
   B64.cur Math_pow (finite_run (inject_Z f) (inject_Z t) 0 z fmt) (Fin now) = NaN /\
   B64.text Math_pow (finite_run (inject_Z f) (inject_Z t) 0 z None) (Fin now)
     = "NaN" /\
   lt (B64.p (finite_run (inject_Z f) (inject_Z t) 0 z fmt) (Fin now)) (of_Z 1)
     = false).
Proof.
  intros P0 PN Hf Ht. split; intro H.
  - assert (P : B64.p (finite_run (inject_Z f) (inject_Z t) 0 z fmt) (Fin now)
                = of_Z 1).
    { unfold B64.p. cbn [Animation.t0 Animation.ms finite_run].
      rewrite (div64_by_zero _ H). reflexivity. }
    split; [|rewrite P; reflexivity].
    rewrite (text64_done Math_pow P0 (inject_Z f) (inject_Z t) 0 z fmt now P).
    change (Fin (inject_Z t)) with (of_Z t).
    change (Fin (inject_Z f)) with (of_Z f).
    rewrite final_value64 by assumption. reflexivity.
  - assert (P : forall fmt',
               B64.p (finite_run (inject_Z f) (inject_Z t) 0 z fmt') (Fin now)
               = NaN).
    { intro fmt'. unfold B64.p. cbn [Animation.t0 Animation.ms finite_run].
      rewrite (sub64_same now z H). reflexivity. }
    assert (C : forall fmt',
               B64.cur Math_pow (finite_run (inject_Z f) (inject_Z t) 0 z fmt')
                 (Fin now) = NaN).
    { intro fmt'. unfold B64.cur, B64.ease. rewrite P.
      change (B64.sub (of_Z 1) NaN) with NaN. rewrite PN.
      change (B64.sub (of_Z 1) NaN) with NaN. rewrite mul64_NaN_r.
      reflexivity. }
    split; [apply C|]. split; [|rewrite P; reflexivity].
    unfold B64.text. rewrite C. reflexivity.
Qed.

Lemma animateNum_zero_duration_witness :
  B64.text B64.powi (finite_run (inject_Z 0) (inject_Z 1000) 0 10 None) (Fin 11) =
    Spec.written None (of_Z 1000) /\
  lt (B64.p (finite_run (inject_Z 0) (inject_Z 1000) 0 10 None) (Fin 11)) (of_Z 1)
    = false.
Proof.
  apply (proj1 (animateNum_zero_duration B64.powi 0 1000 10 None 11
                  powi_zero powi_NaN
                  ltac:(vm_compute; discriminate)
                  ltac:(vm_compute; discriminate))).
  reflexivity.
Defined.

(** ** The frame queue of a run *)

Lemma frame_writes_at_most_once (r : run) (now : number) (s : state) :
  (List.length (callbacks s) <= 1)%nat ->
  (List.length (textContent (frame r now s)) <=
   S (List.length (textContent s)))%nat.
Proof.
  intro H. destruct (callbacks s) as [|h [|h' l]] eqn:E; simpl in H; try lia.
  - rewrite frame_idle by exact E. lia.
  - destruct (frame_pending r now s h E) as [T _]. rewrite T.
    rewrite length_app. simpl. lia.
Qed.

Lemma exec_write_bound (r : run) (events : list event) (s : state) :
  (List.length (callbacks s) <= 1)%nat ->
  (List.length (textContent (exec r s events)) <=
   List.length (textContent s) +
   List.length (filter (fun e => match e with Frame _ => true | Cancel _ => false end)
                  events))%nat.
Proof.
  revert s. induction events as [|e events IH]; intros s H; simpl; [lia|].
  pose proof (react_at_most_one r s e H) as H'.
  specialize (IH _ H'). destruct e as [now | id]; simpl in *.
  - pose proof (frame_writes_at_most_once r now s H). lia.
  - exact IH.
Qed.

(** X16: whatever frames and cancellations follow a call of [animateNum],
    the run never has more than one callback queued, and the sink never
    holds more writes than frames have run. *)
Theorem animateNum_queue_bound :
  forall (from to : number) (ms : option number)
         (fmt : option (number -> string)) (t0 : number) (k : nat)
         (events : list event) (id : nat) (r : run) (s : state),
    animateNum from to ms fmt t0 (initial k) = (id, r, s) ->
    (List.length (callbacks (exec r s events)) <= 1)%nat /\
    (List.length (textContent (exec r s events)) <=
     List.length (filter (fun e => match e with Frame _ => true | Cancel _ => false end)
                    events))%nat.
Proof.
  intros from to ms fmt t0 k events id r s E.
  destruct (animateNum_initial from to ms fmt t0 k)
    as (r' & s' & E' & Hr & Hc & Ht).
  rewrite E in E'. injection E' as _ <- <-.
  assert (L : (List.length (callbacks s) <= 1)%nat) by (rewrite Hc; simpl; lia).
  split; [apply exec_at_most_one, L|].
  pose proof (exec_write_bound r events s L) as B. rewrite Ht in B. exact B.
Qed.

Lemma animateNum_queue_bound_witness :
  let '(id, r, s) :=
    animateNum (of_Z 0) (of_Z 1000) None None (of_Z 0) (initial 0) in
  (List.length (callbacks (exec r s [Frame (of_Z 16); Cancel 7; Frame (of_Z 20)]))
   <= 1)%nat /\
  (List.length (textContent (exec r s [Frame (of_Z 16); Cancel 7; Frame (of_Z 20)]))
   <= List.length
        (filter (fun e => match e with Frame _ => true | Cancel _ => false end)
           [Frame (of_Z 16); Cancel 7; Frame (of_Z 20)]))%nat.
Proof.
  apply (animateNum_queue_bound (of_Z 0) (of_Z 1000) None None (of_Z 0) 0%nat
           [Frame (of_Z 16); Cancel 7; Frame (of_Z 20)] _ _ _ eq_refl).
Defined.

(** ** The slider fill *)

Lemma getPropertyValue_setProperty (name v : string) (el : Slider.input) :
  Slider.getPropertyValue name (Slider.setProperty name v el) = Some v.
Proof.
  unfold Slider.getPropertyValue, Slider.setProperty. simpl.
  rewrite String.eqb_refl. reflexivity.
Qed.

(** X17: when the three attributes parse to finite numbers of magnitude
    up to 2^1022, so that no difference of two of them overflows, and [min]
    differs from [max], the percentage that [updateSliderBg] stores in
    [--pct] is a finite number between 0 and 100. *)
Theorem updateSliderBg_range
    (parseFloat : string -> number) (toString : number -> string)
    (sl : Slider.input) (a b c : Q) :
  parseFloat (Slider.value sl) = Fin a ->
  parseFloat (Slider.min sl) = Fin b ->
  parseFloat (Slider.max sl) = Fin c ->
  (Qabs a <= B64.pow2 1022)%Q ->
  (Qabs b <= B64.pow2 1022)%Q ->
  (Qabs c <= B64.pow2 1022)%Q ->
  ~ b == c ->
  exists (pct : number) (q : Q),
    Slider.getPropertyValue "--pct"
      (Slider.updateSliderBg parseFloat toString sl) = Some (toString pct ++ "%") /\
    rep pct q /\ (0 <= q)%Q /\ (q <= 100)%Q.
Proof.
  intros Ha Hb Hc _ _ _ Hbc. unfold Slider.updateSliderBg. cbv zeta.
  rewrite Ha, Hb, Hc.
  eexists. exists (Spec.clamp ((a - b) / (c - b) * 100) 0 100).
  split; [apply getPropertyValue_setProperty|].
  split.
  - apply rep_clamp; [|apply (rep_of_Z 0)|apply (rep_of_Z 100)].
    apply rep_mul; [|apply (rep_of_Z 100)].
    apply rep_div; [apply rep_sub; apply rep_refl
                   |apply rep_sub; apply rep_refl|].
    intro E. apply Hbc. lra.
  - unfold Spec.clamp. split.
    + apply Q.min_glb; [discriminate | apply Q.le_max_l].
    + apply Q.le_min_l.
Qed.

Lemma updateSliderBg_range_witness :
  exists (pct : number) (q : Q),
    Slider.getPropertyValue "--pct"
      (Slider.updateSliderBg (fun s => if String.eqb s "v" then Fin 30
                                       else if String.eqb s "lo" then Fin 10
                                       else Fin 50)
         (fun _ => "50")
         {| Slider.value := "v"; Slider.min := "lo"; Slider.max := "hi";
            Slider.style := [] |}) = Some ("50" ++ "%") /\
    rep pct q /\ (0 <= q)%Q /\ (q <= 100)%Q.
Proof.
  apply (updateSliderBg_range
           (fun s => if String.eqb s "v" then Fin 30
                     else if String.eqb s "lo" then Fin 10 else Fin 50)
           (fun _ => "50")
           {| Slider.value := "v"; Slider.min := "lo"; Slider.max := "hi";
              Slider.style := [] |} 30 10 50);
    try reflexivity; vm_compute; discriminate.
Defined.

(** X18: when [min] and [max] parse to the same finite number, the stored
    percentage is NaN for a value equal to them, 100 for a larger value
    and 0 for a smaller one. *)
Theorem updateSliderBg_degenerate
    (parseFloat : string -> number) (toString : number -> string)
    (sl : Slider.input) (a b c : Q) :
  parseFloat (Slider.value sl) = Fin a ->
  parseFloat (Slider.min sl) = Fin b ->
  parseFloat (Slider.max sl) = Fin c ->
  b == c ->
  Slider.getPropertyValue "--pct"
    (Slider.updateSliderBg parseFloat toString sl) =
  Some (toString (if Qeq_bool a b then NaN
                  else if Qltb b a then of_Z 100 else of_Z 0) ++ "%").
Proof.
  intros Ha Hb Hc Hbc. unfold Slider.updateSliderBg. cbv zeta.
  rewrite Ha, Hb, Hc, getPropertyValue_setProperty.
  do 2 f_equal.
  destruct (sub_Fin a b) as [q1 [E1 H1]].
  destruct (sub_Fin c b) as [q2 [E2 H2]].
  rewrite E1, E2.
  assert (Z2 : Qeq_bool q2 0 = true) by (apply Qeq_bool_iff; lra).
  assert (S2 : Qltb q2 0 = false) by (apply Qltb_ge; lra).
  unfold div. simpl is_zero. simpl signbit. rewrite Z2, S2.
  destruct (Qeq_bool a b) eqn:Eab.
  - apply Qeq_bool_iff in Eab.
    replace (Qeq_bool q1 0) with true by (symmetry; apply Qeq_bool_iff; lra).
    reflexivity.
  - assert (Nab : ~ a == b).
    { intro E. apply Qeq_bool_iff in E. congruence. }
    replace (Qeq_bool q1 0) with false.
    2:{ symmetry. destruct (Qeq_bool q1 0) eqn:Q0; [|reflexivity].
        apply Qeq_bool_iff in Q0. exfalso. apply Nab. lra. }
    destruct (Qltb b a) eqn:L.
    + apply Qltb_lt in L.
      replace (Qltb q1 0) with false by (symmetry; apply Qltb_ge; lra).
      reflexivity.
    + apply Qltb_ge in L.
      replace (Qltb q1 0) with true by (symmetry; apply Qltb_lt; lra).
      reflexivity.
Qed.

Lemma updateSliderBg_degenerate_witness :
  Slider.getPropertyValue "--pct"
    (Slider.updateSliderBg (fun _ => Fin 5) (fun _ => "NaN")
       {| Slider.value := "5"; Slider.min := "5"; Slider.max := "5";
          Slider.style := [] |}) =
  Some ((fun _ : number => "NaN")
          (if Qeq_bool 5 5 then NaN
           else if Qltb 5 5 then of_Z 100 else of_Z 0) ++ "%").
Proof.
  apply (updateSliderBg_degenerate (fun _ => Fin 5) (fun _ => "NaN")
           {| Slider.value := "5"; Slider.min := "5"; Slider.max := "5";
              Slider.style := [] |} 5 5 5); reflexivity.
Defined.

(** ** The chip scroller's fade *)

Lemma chips_tests (w c l : Q) (wm m : string) :
  Chips.updateChipsMask
    {| Chips.scrollWidth := Fin w; Chips.clientWidth := Fin c;
       Chips.scrollLeft := Fin l;
       Chips.webkitMaskImage := wm; Chips.maskImage := m |} =
  let mask := if Qltb (c + 2) w && Qltb (l + c) (w - 2)
              then Chips._CHIPS_FADE else "" in
  {| Chips.scrollWidth := Fin w; Chips.clientWidth := Fin c;
     Chips.scrollLeft := Fin l;
     Chips.webkitMaskImage := mask; Chips.maskImage := mask |}.
Proof.
  unfold Chips.updateChipsMask. cbv zeta.
  cbn [Chips.scrollWidth Chips.clientWidth Chips.scrollLeft].
  assert (O : Chips.gt (Fin w) (add (Fin c) (of_Z 2)) = Qltb (c + 2) w).
  { unfold Chips.gt.
    apply (lt_rep _ _ _ _ (rep_add _ _ _ _ (rep_refl c) (rep_of_Z 2))
                          (rep_refl w)). }
  assert (A : ge (add (Fin l) (Fin c)) (sub (Fin w) (of_Z 2))
              = negb (Qltb (l + c) (w - 2))).
  { destruct (sub_Fin w (inject_Z 2)) as [q [E Hq]].
    unfold of_Z. rewrite E. simpl.
    f_equal. apply Qltb_comp; [reflexivity | exact Hq]. }
  rewrite O, A, negb_involutive. reflexivity.
Qed.

(** X19: with whole-pixel metrics of magnitude up to 2^52, for which the
    two sums are exact, and [scrollLeft >= 0], the fade is set exactly when
    more than 2 pixels of content remain beyond the right edge
    ([scrollLeft + clientWidth < scrollWidth - 2]) and cleared to the empty
    string otherwise; both mask properties always receive the same
    value. *)
Theorem updateChipsMask_fade (w c l : Z) (wm m : string) :
  0 <= l <= 2 ^ 52 -> Z.abs w <= 2 ^ 52 -> Z.abs c <= 2 ^ 52 ->
  let el := Chips.updateChipsMask
              {| Chips.scrollWidth := of_Z w; Chips.clientWidth := of_Z c;
                 Chips.scrollLeft := of_Z l;
                 Chips.webkitMaskImage := wm; Chips.maskImage := m |} in
  Chips.webkitMaskImage el = Chips.maskImage el /\
  (l + c < w - 2 -> Chips.maskImage el = Chips._CHIPS_FADE) /\
  (w - 2 <= l + c -> Chips.maskImage el = "").
Proof.
  intros Hl _ _ el. subst el. unfold of_Z. rewrite chips_tests. cbv zeta.
  cbn [Chips.webkitMaskImage Chips.maskImage].
  assert (O : Qltb (inject_Z c + 2) (inject_Z w) = (c + 2 <? w)).
  { change 2%Q with (inject_Z 2). rewrite <- inject_Z_plus.
    apply Qltb_inject_Z. }
  assert (A : Qltb (inject_Z l + inject_Z c) (inject_Z w - 2) = (l + c <? w - 2)).
  { rewrite <- Qltb_inject_Z. apply Qltb_comp.
    - rewrite inject_Z_plus. reflexivity.
    - unfold Z.sub. rewrite inject_Z_plus. reflexivity. }
  rewrite O, A.
  split; [reflexivity|]. split; intro H.
  - replace (c + 2 <? w) with true by (symmetry; apply Z.ltb_lt; lia).
    replace (l + c <? w - 2) with true by (symmetry; apply Z.ltb_lt; lia).
    reflexivity.
  - replace (l + c <? w - 2) with false by (symmetry; apply Z.ltb_ge; lia).
    rewrite andb_false_r. reflexivity.
Qed.

Lemma updateChipsMask_fade_witness :
  let el := Chips.updateChipsMask
              {| Chips.scrollWidth := of_Z 500; Chips.clientWidth := of_Z 300;
                 Chips.scrollLeft := of_Z 120;
                 Chips.webkitMaskImage := ""; Chips.maskImage := "" |} in
  Chips.webkitMaskImage el = Chips.maskImage el /\
  (120 + 300 < 500 - 2 -> Chips.maskImage el = Chips._CHIPS_FADE) /\
  (500 - 2 <= 120 + 300 -> Chips.maskImage el = "").
Proof.
  apply (updateChipsMask_fade 500 300 120 "" ""); vm_compute;
    try (split; discriminate); discriminate.
Defined.

(** X20: with [scrollLeft <= 0], as in a right-to-left scroller, content
    wider than the box by more than 2 pixels keeps the fade at every
    scroll position: it is never cleared. *)
Theorem updateChipsMask_negative_scroll (w c l : Q) (wm m : string) :
  (l <= 0)%Q -> (c + 2 < w)%Q ->
  Chips.maskImage
    (Chips.updateChipsMask
       {| Chips.scrollWidth := Fin w; Chips.clientWidth := Fin c;
          Chips.scrollLeft := Fin l;
          Chips.webkitMaskImage := wm; Chips.maskImage := m |})
  = Chips._CHIPS_FADE.
Proof.
  intros Hl Ho. rewrite chips_tests. cbv zeta. cbn [Chips.maskImage].
  replace (Qltb (c + 2) w) with true by (symmetry; apply Qltb_lt; lra).
  replace (Qltb (l + c) (w - 2)) with true by (symmetry; apply Qltb_lt; lra).
  reflexivity.
Qed.

Lemma updateChipsMask_negative_scroll_witness :
  Chips.maskImage
    (Chips.updateChipsMask
       {| Chips.scrollWidth := Fin 500; Chips.clientWidth := Fin 300;
          Chips.scrollLeft := Fin (-200);
          Chips.webkitMaskImage := ""; Chips.maskImage := "" |})
  = Chips._CHIPS_FADE.
Proof.
  apply (updateChipsMask_negative_scroll 500 300 (-200) "" "");
    [discriminate | reflexivity].
Defined.

(** ** The toast and its timer *)

Lemma clearTimeout_single (s : Toast.state) :
  Toast.single_timer s ->
  Toast.timers (Toast.clearTimeout (Toast._toastTimer s) s) = [].
Proof.
  intros [E | (id & due & t & E & T)].
  - destruct (Toast._toastTimer s); simpl; [rewrite E|]; trivial.
  - rewrite T. simpl. rewrite E. simpl. rewrite Nat.eqb_refl. reflexivity.
Qed.

(** What a call with a target element leaves behind. *)
Lemma showToast_target (msg : string) (duration : option Z)
    (el : option Toast.element) (t : Toast.element) (s : Toast.state) :
  Toast.single_timer s ->
  match el with Some e => Some e | None => Toast.ds_toast s end = Some t ->
  let s' := Toast.showToast msg duration el s in
  Toast.timers s' =
    [(S (Toast.last_timer s),
      Toast.now s +
      Z.max 0 (Toast.to_long (match duration with Some d => d | None => 2600 end)),
      t)] /\
  Toast._toastTimer s' = Some (S (Toast.last_timer s)) /\
  Toast.now s' = Toast.now s /\
  (forall e, Toast.nodes s' e =
             if Nat.eqb e t then {| Toast.text := msg; Toast.show := true |}
             else Toast.nodes s e).
Proof.
  intros I Ht s'. subst s'. unfold Toast.showToast. cbv zeta. rewrite Ht.
  pose proof (clearTimeout_single (Toast.show_message t msg s)) as C.
  assert (I' : Toast.single_timer (Toast.show_message t msg s)) by exact I.
  specialize (C I').
  unfold Toast.setTimeout. cbn [Toast.timers Toast._toastTimer Toast.now Toast.nodes
                                Toast.last_timer].
  rewrite C.
  repeat split; destruct (Toast._toastTimer (Toast.show_message t msg s));
    reflexivity.
Qed.

Lemma due_single (tm : nat * Z * Toast.element) (to : Z) (s : Toast.state) :
  Toast.timers s = [tm] ->
  Toast.due_by to s = if snd (fst tm) <=? to then [tm] else [].
Proof.
  intro E. unfold Toast.due_by. rewrite E. simpl.
  destruct (snd (fst tm) <=? to); reflexivity.
Qed.

Lemma advance_single (id : nat) (due : Z) (t : Toast.element) (to : Z)
    (s : Toast.state) :
  Toast.timers s = [(id, due, t)] ->
  (to < due ->
   Toast.timers (Toast.advance to s) = [(id, due, t)] /\
   forall e, Toast.nodes (Toast.advance to s) e = Toast.nodes s e) /\
  (due <= to ->
   Toast.timers (Toast.advance to s) = [] /\
   forall e, Toast.nodes (Toast.advance to s) e =
             if Nat.eqb e t
             then {| Toast.text := Toast.text (Toast.nodes s e);
                     Toast.show := false |}
             else Toast.nodes s e).
Proof.
  intro E. unfold Toast.advance.
  rewrite (due_single _ to s E), E. simpl.
  split; intro H.
  - replace (due <=? to) with false by (symmetry; apply Z.leb_gt; lia).
    simpl. split; reflexivity.
  - replace (due <=? to) with true by (symmetry; apply Z.leb_le; lia).
    simpl. split; reflexivity.
Qed.

Lemma advance_none (to : Z) (s : Toast.state) :
  Toast.timers s = [] ->
  Toast.timers (Toast.advance to s) = [] /\
  forall e, Toast.nodes (Toast.advance to s) e = Toast.nodes s e.
Proof.
  intro E. unfold Toast.advance, Toast.due_by. rewrite E. simpl.
  split; reflexivity.
Qed.

Lemma advance_toastTimer (to : Z) (s : Toast.state) :
  Toast._toastTimer (Toast.advance to s) = Toast._toastTimer s.
Proof.
  unfold Toast.advance.
  set (s0 := {| Toast.now := Z.max (Toast.now s) to;
                Toast.last_timer := Toast.last_timer s;
                Toast.timers := _; Toast.nodes := Toast.nodes s;
                Toast.ds_toast := Toast.ds_toast s;
                Toast._toastTimer := Toast._toastTimer s |}).
  change (Toast._toastTimer s) with (Toast._toastTimer s0).
  generalize s0. induction (Toast.due_by to s) as [|tm l IH]; intro s1;
    [reflexivity|].
  simpl. rewrite IH. reflexivity.
Qed.

Lemma react_single_timer (s : Toast.state) (e : Toast.event) :
  Toast.single_timer s -> Toast.single_timer (Toast.react s e).
Proof.
  intro I. destruct e as [msg duration el | to]; simpl.
  - destruct (match el with Some e => Some e | None => Toast.ds_toast s end)
      as [t|] eqn:Ht.
    + destruct (showToast_target msg duration el t s I Ht) as (T & Tt & _).
      right. eexists. eexists. eexists. split; [exact T | exact Tt].
    + unfold Toast.showToast. cbv zeta. rewrite Ht. exact I.
  - destruct I as [E | (id & due & t & E & T)].
    + left. apply (advance_none to s E).
    + destruct (Z_lt_le_dec to due) as [L | L].
      * right. exists id, due, t. split.
        -- apply (proj1 (advance_single id due t to s E)), L.
        -- rewrite advance_toastTimer. exact T.
      * left. apply (proj2 (advance_single id due t to s E)), L.
Qed.

Lemma run_single_timer (events : list Toast.event) (s : Toast.state) :
  Toast.single_timer s -> Toast.single_timer (Toast.run s events).
Proof.
  revert s. induction events as [|e events IH]; intros s I; [exact I|].
  simpl. apply IH, react_single_timer, I.
Qed.

(** X21: starting from a page with no pending timeout, after any sequence
    of [showToast] calls and passages of time at most one timeout is
    pending, and it is the one [_toastTimer] holds. *)
Theorem showToast_single_timer (s : Toast.state) (events : list Toast.event) :
  Toast.timers s = [] ->
  (List.length (Toast.timers (Toast.run s events)) <= 1)%nat /\
  (forall id due t,
     In (id, due, t) (Toast.timers (Toast.run s events)) ->
     Toast._toastTimer (Toast.run s events) = Some id).
Proof.
  intro E.
  destruct (run_single_timer events s (or_introl E))
    as [E' | (id & due & t & E' & T)]; rewrite E'.
  - split; [simpl; lia | intros ? ? ? []].
  - split; [simpl; lia|].
    intros id' due' t' [H | []]. injection H as <- _ _. exact T.
Qed.

Lemma showToast_single_timer_witness :
  let s := {| Toast.now := 0; Toast.last_timer := 0; Toast.timers := [];
              Toast.nodes := fun _ => {| Toast.text := ""; Toast.show := false |};
              Toast.ds_toast := Some 1%nat; Toast._toastTimer := None |} in
  let events := [Toast.Show "a" None None; Toast.Advance 100;
                 Toast.Show "b" (Some 500) (Some 2%nat)] in
  (List.length (Toast.timers (Toast.run s events)) <= 1)%nat /\
  (forall id due t,
     In (id, due, t) (Toast.timers (Toast.run s events)) ->
     Toast._toastTimer (Toast.run s events) = Some id).
Proof.
  apply (showToast_single_timer
           {| Toast.now := 0; Toast.last_timer := 0; Toast.timers := [];
              Toast.nodes := fun _ => {| Toast.text := ""; Toast.show := false |};
              Toast.ds_toast := Some 1%nat; Toast._toastTimer := None |}).
  reflexivity.
Defined.

Lemma to_long_in_range (d : Z) : - 2 ^ 31 <= d < 2 ^ 31 -> Toast.to_long d = d.
Proof.
  intro H. unfold Toast.to_long. rewrite Z.mod_small by lia. lia.
Qed.

(** X22: after [showToast(msg, duration, el)] the element shows [msg]
    until the delay of the timeout has passed since that call, whatever
    toast was pending before, and is hidden, with its text kept, from then
    on.  The delay is [duration] as a 32-bit [long], or 0 if that is
    negative: it is [duration] itself (2600 by default) from 0 up to 2^31,
    and 0 for a duration from 2^31 up to 2^32. *)
Theorem showToast_restarts_timer
    (s : Toast.state) (msg : string) (duration : option Z)
    (t : Toast.element) (to : Z) :
  Toast.single_timer s ->
  let d := match duration with Some d => d | None => 2600 end in
  let delay := Z.max 0 (Toast.to_long d) in
  let shown := Toast.nodes
                 (Toast.advance to (Toast.showToast msg duration (Some t) s)) t in
  Toast.text shown = msg /\
  (to < Toast.now s + delay -> Toast.show shown = true) /\
  (Toast.now s + delay <= to -> Toast.show shown = false) /\
  (0 <= d < 2 ^ 31 -> delay = d) /\
  (2 ^ 31 <= d < 2 ^ 32 -> delay = 0).
Proof.
  intros I d delay shown. subst shown.
  destruct (showToast_target msg duration (Some t) t s I eq_refl)
    as (T & _ & _ & N).
  fold d in T. fold delay in T.
  destruct (advance_single _ _ _ to _ T) as [A1 A2].
  assert (R1 : 0 <= d < 2 ^ 31 -> delay = d).
  { intro H. unfold delay. rewrite to_long_in_range by lia. lia. }
  assert (R2 : 2 ^ 31 <= d < 2 ^ 32 -> delay = 0).
  { intro H. unfold delay, Toast.to_long.
    replace (d + 2 ^ 31) with (d - 2 ^ 31 + 1 * 2 ^ 32) by lia.
    rewrite Z.mod_add by lia. rewrite Z.mod_small by lia. lia. }
  destruct (Z_lt_le_dec to (Toast.now s + delay)) as [L | L].
  - destruct (A1 L) as [_ N']. rewrite N', N, Nat.eqb_refl. simpl.
    repeat split; try assumption; try reflexivity. lia.
  - destruct (A2 L) as [_ N']. rewrite N', N, Nat.eqb_refl. simpl.
    repeat split; try assumption; try reflexivity. lia.
Qed.

Lemma showToast_restarts_timer_witness :
  let s := {| Toast.now := 1000; Toast.last_timer := 4;
              Toast.timers := [(4%nat, 1200, 7%nat)];
              Toast.nodes := fun _ => {| Toast.text := "old"; Toast.show := true |};
              Toast.ds_toast := None; Toast._toastTimer := Some 4%nat |} in
  let shown := Toast.nodes
                 (Toast.advance 1300 (Toast.showToast "new" (Some 500) (Some 7%nat) s))
                 7%nat in
  Toast.text shown = "new" /\
  (1300 < Toast.now s + Z.max 0 (Toast.to_long 500) -> Toast.show shown = true) /\
  (Toast.now s + Z.max 0 (Toast.to_long 500) <= 1300 -> Toast.show shown = false) /\
  (0 <= 500 < 2 ^ 31 -> Z.max 0 (Toast.to_long 500) = 500) /\
  (2 ^ 31 <= 500 < 2 ^ 32 -> Z.max 0 (Toast.to_long 500) = 0).
Proof.
  apply (showToast_restarts_timer
           {| Toast.now := 1000; Toast.last_timer := 4;
              Toast.timers := [(4%nat, 1200, 7%nat)];
              Toast.nodes := fun _ => {| Toast.text := "old"; Toast.show := true |};
              Toast.ds_toast := None; Toast._toastTimer := Some 4%nat |}
           "new" (Some 500) 7%nat 1300).
  right. exists 4%nat, 1200, 7%nat. split; reflexivity.
Defined.

(** X23: the timer is shared by all elements.  If a toast is shown on [a]
    and, before the delay of its timeout (the duration as a 32-bit [long],
    0 if negative) has passed, another is shown on a different element
    [b], the pending hide of [a] is cancelled and never replaced: [a] keeps
    its 'show' class and its message however much time passes. *)
Theorem showToast_other_element_keeps_first
    (s : Toast.state) (msg_a msg_b : string) (dur_a dur_b : option Z)
    (a b : Toast.element) (t1 t2 : Z) :
  Toast.single_timer s ->
  a <> b ->
  t1 < Toast.now s +
       Z.max 0 (Toast.to_long (match dur_a with Some d => d | None => 2600 end)) ->
  let s1 := Toast.advance t1 (Toast.showToast msg_a dur_a (Some a) s) in
  let s2 := Toast.advance t2 (Toast.showToast msg_b dur_b (Some b) s1) in
  Toast.nodes s2 a = {| Toast.text := msg_a; Toast.show := true |}.
Proof.
  intros I Hab Ht1 s1 s2. subst s1 s2.
  destruct (showToast_target msg_a dur_a (Some a) a s I eq_refl)
    as (T & Tt & _ & N).
  destruct (proj1 (advance_single _ _ _ t1 _ T) Ht1) as [T1 N1].
  set (s1 := Toast.advance t1 (Toast.showToast msg_a dur_a (Some a) s)) in *.
  assert (I1 : Toast.single_timer s1).
  { right. eexists. eexists. eexists. split; [exact T1|].
    unfold s1. rewrite advance_toastTimer. exact Tt. }
  destruct (showToast_target msg_b dur_b (Some b) b s1 I1 eq_refl)
    as (T2 & _ & _ & N2).
  assert (Eab : Nat.eqb a b = false) by (apply Nat.eqb_neq, Hab).
  assert (A : Toast.nodes (Toast.showToast msg_b dur_b (Some b) s1) a
              = {| Toast.text := msg_a; Toast.show := true |}).
  { rewrite N2, Eab, N1, N, Nat.eqb_refl. reflexivity. }
  destruct (advance_single _ _ _ t2 _ T2) as [A1 A2].
  destruct (Z_lt_le_dec t2 (Toast.now s1 +
              Z.max 0 (Toast.to_long
                         (match dur_b with Some d => d | None => 2600 end))))
    as [L | L].
  - destruct (A1 L) as [_ N']. rewrite N'. exact A.
  - destruct (A2 L) as [_ N']. rewrite N', Eab. exact A.
Qed.

Lemma showToast_other_element_keeps_first_witness :
  let s := {| Toast.now := 0; Toast.last_timer := 0; Toast.timers := [];
              Toast.nodes := fun _ => {| Toast.text := ""; Toast.show := false |};
              Toast.ds_toast := None; Toast._toastTimer := None |} in
  let s1 := Toast.advance 1000 (Toast.showToast "saved" None (Some 1%nat) s) in
  let s2 := Toast.advance 100000 (Toast.showToast "copied" None (Some 2%nat) s1) in
  Toast.nodes s2 1%nat = {| Toast.text := "saved"; Toast.show := true |}.
Proof.
  apply (showToast_other_element_keeps_first
           {| Toast.now := 0; Toast.last_timer := 0; Toast.timers := [];
              Toast.nodes := fun _ => {| Toast.text := ""; Toast.show := false |};
              Toast.ds_toast := None; Toast._toastTimer := None |}
           "saved" "copied" None None 1%nat 2%nat 1000 100000).
  - left. reflexivity.
  - discriminate.
  - reflexivity.
Defined.

(** ** The confetti burst *)

Lemma Qltb_ceiling (i : Z) (q : Q) : Qltb (inject_Z i) q = (i <? Qceiling q).
Proof.
  pose proof (Qle_ceiling q) as C1. pose proof (Qceiling_lt q) as C2.
  destruct (i <? Qceiling q) eqn:E.
  - apply Z.ltb_lt in E. apply Qltb_lt.
    assert (inject_Z i <= inject_Z (Qceiling q - 1))%Q
      by (rewrite <- Zle_Qle; lia).
    lra.
  - apply Z.ltb_ge in E. apply Qltb_ge.
    assert (inject_Z (Qceiling q) <= inject_Z i)%Q by (rewrite <- Zle_Qle; lia).
    lra.
Qed.

Section Burst.

Variable random : nat -> number.
Variable toString : number -> string.

(** The state after [n] rounds of the loop body. *)
Lemma body_iter (n : nat) (s : Confetti.state) :
  let s' := Nat.iter n (Confetti.body random toString) s in
  Confetti.now s' = Confetti.now s /\
  Confetti.last_node s' = (Confetti.last_node s + n)%nat /\
  Confetti.last_timer s' = (Confetti.last_timer s + n)%nat /\
  Confetti.draws s' = (Confetti.draws s + 7 * n)%nat /\
  Confetti.children s' =
    (Confetti.children s ++
     map (fun j => (S (Confetti.last_node s + j),
                    {| Confetti.className := "ds-confetti-piece";
                       Confetti.cssText :=
                         Confetti.css random toString (Confetti.draws s + 7 * j) |}))
       (seq 0 n))%list /\
  Confetti.timers s' =
    (Confetti.timers s ++
     map (fun j => (S (Confetti.last_timer s + j), Confetti.now s + 3000,
                    S (Confetti.last_node s + j)))
       (seq 0 n))%list.
Proof.
  induction n as [|n IH]; cbv zeta.
  - simpl. rewrite !Nat.add_0_r, !app_nil_r. repeat split; reflexivity.
  - cbv zeta in IH. destruct IH as (N & L & T & D & C & M).
    simpl Nat.iter.
    set (it := Nat.iter n (Confetti.body random toString) s) in *.
    unfold Confetti.body.
    cbn [Confetti.now Confetti.last_node Confetti.last_timer Confetti.draws
         Confetti.children Confetti.timers].
    rewrite N, L, T, D, C, M, !seq_S, !map_app, <- !app_assoc. simpl.
    repeat split; try lia; reflexivity.
Qed.

Lemma loop_runs (n fuel : nat) (i : Z) (q : Q) (s : Confetti.state) :
  (n <= fuel)%nat -> 0 <= i -> (q <= inject_Z (2 ^ 53))%Q ->
  Z.of_nat n = Z.max 0 (Qceiling q - i) ->
  Confetti.loop random toString fuel (of_Z i) (Fin q) s =
  Some (Nat.iter n (Confetti.body random toString) s).
Proof.
  revert fuel i s. induction n as [|n IH]; intros fuel i s Hf Hi Hq Hn.
  - assert (T : lt (of_Z i) (Fin q) = false).
    { change (lt (of_Z i) (Fin q)) with (Qltb (inject_Z i) q).
      rewrite Qltb_ceiling. apply Z.ltb_ge. lia. }
    destruct fuel; cbn [Confetti.loop]; rewrite T; reflexivity.
  - assert (T : lt (of_Z i) (Fin q) = true).
    { change (lt (of_Z i) (Fin q)) with (Qltb (inject_Z i) q).
      rewrite Qltb_ceiling. apply Z.ltb_lt. lia. }
    assert (B : i < 2 ^ 53).
    { change (lt (of_Z i) (Fin q)) with (Qltb (inject_Z i) q) in T.
      apply Qltb_lt in T. rewrite Zlt_Qlt. lra. }
    destruct fuel as [|fuel]; [lia|]. cbn [Confetti.loop]. rewrite T.
    rewrite add64_of_Z by lia.
    rewrite IH by (try exact Hq; lia). rewrite Nat.iter_succ_r. reflexivity.
Qed.

(** What the loop returns is the state after some number of rounds. *)
Lemma loop_result (fuel : nat) (i count : number) (s s' : Confetti.state) :
  Confetti.loop random toString fuel i count s = Some s' ->
  exists n, s' = Nat.iter n (Confetti.body random toString) s.
Proof.
  revert i s. induction fuel as [|fuel IH]; intros i s; cbn [Confetti.loop];
    destruct (lt i count); intro H; try discriminate H;
    try (injection H as <-; exists 0%nat; reflexivity).
  destruct (IH _ _ H) as [n ->]. exists (S n).
  rewrite Nat.iter_succ_r. reflexivity.
Qed.

Lemma le_lt_transitive (x y z : number) :
  le x y = true -> lt y z = true -> lt x z = true.
Proof.
  unfold le, ge, lt.
  destruct x as [| [] | |a], y as [| [] | |b], z as [| [] | |c];
    simpl; try reflexivity; try discriminate;
    rewrite ?negb_true_iff; intros H1 H2;
    try apply Qltb_ge in H1; try apply Qltb_lt in H2;
    try apply Qltb_lt; lra.
Qed.

(** The counter never passes 2^53: there [i + 1] rounds back to [i]. *)
Lemma counter_bounded (i : number) :
  le i (of_Z (2 ^ 53)) = true ->
  le (B64.add i (of_Z 1)) (of_Z (2 ^ 53)) = true.
Proof.
  intro H.
  assert (E : B64.add (of_Z (2 ^ 53)) (of_Z 1) = of_Z (2 ^ 53))
    by (vm_compute; reflexivity).
  assert (G : le (B64.add i (of_Z 1)) (B64.add (of_Z (2 ^ 53)) (of_Z 1)) = true).
  { unfold B64.add.
    apply le_round, (add_le_l (of_Z 1) (inject_Z 1)); [apply rep_of_Z | exact H]. }
  rewrite E in G. exact G.
Qed.

Lemma loop_stalls (fuel : nat) (i count : number) (s : Confetti.state) :
  le i (of_Z (2 ^ 53)) = true -> lt (of_Z (2 ^ 53)) count = true ->
  Confetti.loop random toString fuel i count s = None.
Proof.
  revert i s. induction fuel as [|fuel IH]; intros i s Hi Hc;
    cbn [Confetti.loop]; rewrite (le_lt_transitive _ _ _ Hi Hc);
    [reflexivity|].
  apply IH; [apply counter_bounded, Hi | exact Hc].
Qed.

(** X24: with the container present and a finite [count] up to 2^53, the
    call returns as soon as the bound allows [ceil(count)] iterations,
    having appended exactly that many pieces of class "ds-confetti-piece"
    after the children already there (none when [count <= 0]); with a
    [count] above 2^53, Infinity included, it does not return within any
    bound, because the counter stops growing at 2^53. *)
Theorem fireConfetti_count (fuel : nat) (q : Q) (s : Confetti.state) :
  (q <= inject_Z (2 ^ 53))%Q ->
  (Z.max 0 (Qceiling q) <= Z.of_nat fuel) ->
  (exists s' added,
     Confetti.fireConfetti random toString fuel (Some (Fin q)) true s = Some s' /\
     Confetti.children s' = (Confetti.children s ++ added)%list /\
     Z.of_nat (List.length added) = Z.max 0 (Qceiling q) /\
     Forall (fun c => Confetti.className (snd c) = "ds-confetti-piece") added) /\
  (forall count : number,
     lt (of_Z (2 ^ 53)) count = true ->
     Confetti.fireConfetti random toString fuel (Some count) true s = None).
Proof.
  intros Hq Hf. split.
  - unfold Confetti.fireConfetti. simpl negb. cbv iota.
    set (n := Z.to_nat (Z.max 0 (Qceiling q))).
    rewrite (loop_runs n) by (try exact Hq; unfold n; lia).
    destruct (body_iter n s) as (_ & _ & _ & _ & C & _).
    eexists. eexists. split; [reflexivity|]. split; [exact C|].
    rewrite length_map, length_seq. split; [unfold n; lia|].
    apply Forall_map, Forall_forall. intros j _. reflexivity.
  - intros count Hc. unfold Confetti.fireConfetti. simpl negb. cbv iota.
    apply loop_stalls; [reflexivity | exact Hc].
Qed.

Lemma filter_twice {A : Type} (f g : A -> bool) (l : list A) :
  filter f (filter g l) = filter (fun x => g x && f x) l.
Proof.
  induction l as [|x l IH]; [reflexivity|]. simpl.
  destruct (g x); simpl; [destruct (f x)|]; rewrite IH; reflexivity.
Qed.

Lemma filter_none {A : Type} (f : A -> bool) (l : list A) :
  (forall x, In x l -> f x = false) -> filter f l = [].
Proof.
  induction l as [|x l IH]; intro H; [reflexivity|]. simpl.
  rewrite (H x (or_introl eq_refl)). apply IH. intros y Hy. apply H. now right.
Qed.

Lemma fireConfetti_removed_aux (l : list (nat * Z * nat)) (s : Confetti.state) :
  Confetti.children (fold_left (fun s tm => Confetti.remove (snd tm) s) l s) =
  filter (fun c => negb (existsb (fun tm => Nat.eqb (fst c) (snd tm)) l))
    (Confetti.children s).
Proof.
  revert s. induction l as [|tm l IH]; intro s; simpl.
  - symmetry. apply forallb_filter_id. apply forallb_forall. reflexivity.
  - rewrite IH. simpl. rewrite filter_twice. apply filter_ext.
    intro c. rewrite negb_orb. reflexivity.
Qed.

(** X25: on a page with no pending timeout, every piece of a burst is
    removed again 3000 ms after the call: until then all of them are
    children of the container, and from then on the container holds just
    the children it had before. *)
Theorem fireConfetti_removed
    (fuel : nat) (q : Q) (s s' : Confetti.state) (to : Z) :
  Confetti.timers s = [] ->
  Forall (fun c => (fst c <= Confetti.last_node s)%nat) (Confetti.children s) ->
  Confetti.fireConfetti random toString fuel (Some (Fin q)) true s = Some s' ->
  (to < Confetti.now s + 3000 ->
   Confetti.children (Confetti.advance to s') = Confetti.children s') /\
  (Confetti.now s + 3000 <= to ->
   Confetti.children (Confetti.advance to s') = Confetti.children s).
Proof.
  intros Ht Hold Hfire.
  unfold Confetti.fireConfetti in Hfire. simpl negb in Hfire. cbv iota in Hfire.
  assert (exists n, s' = Nat.iter n (Confetti.body random toString) s)
    as [n ->].
  { apply (loop_result fuel (of_Z 0) (Fin q)), Hfire. }
  destruct (body_iter n s) as (N & _ & _ & _ & C & M).
  rewrite Ht in M. simpl in M.
  unfold Confetti.advance. rewrite fireConfetti_removed_aux.
  cbn [Confetti.children]. rewrite M.
  set (T := map (fun j => (S (Confetti.last_timer s + j), Confetti.now s + 3000,
                           S (Confetti.last_node s + j))) (seq 0 n)).
  assert (Due : forall tm, In tm T -> snd (fst tm) = Confetti.now s + 3000).
  { intros tm Hin. apply in_map_iff in Hin. destruct Hin as (j & <- & _).
    reflexivity. }
  split; intro H.
  - assert (D : filter (fun tm : nat * Z * nat => snd (fst tm) <=? to) T = []).
    { apply filter_none. intros tm Hin. rewrite (Due tm Hin).
      apply Z.leb_gt. exact H. }
    rewrite D. simpl. apply forallb_filter_id. apply forallb_forall. reflexivity.
  - assert (D : filter (fun tm : nat * Z * nat => snd (fst tm) <=? to) T = T).
    { apply forallb_filter_id. apply forallb_forall. intros tm Hin.
      rewrite (Due tm Hin). apply Z.leb_le. exact H. }
    rewrite D, C, filter_app.
    rewrite (forallb_filter_id _ (Confetti.children s)).
    2:{ apply forallb_forall. intros c Hc.
        rewrite Forall_forall in Hold. specialize (Hold c Hc).
        apply negb_true_iff. apply not_true_is_false. intro Ex.
        apply existsb_exists in Ex. destruct Ex as (tm & Hin & Eq).
        apply in_map_iff in Hin. destruct Hin as (j & <- & _). simpl in Eq.
        apply Nat.eqb_eq in Eq. lia. }
    rewrite filter_none; [apply app_nil_r|].
    intros c Hc.
    apply in_map_iff in Hc. destruct Hc as (j & <- & Hj). simpl fst.
    apply negb_false_iff. apply existsb_exists.
    exists (S (Confetti.last_timer s + j), Confetti.now s + 3000,
            S (Confetti.last_node s + j)).
    split; [|simpl; apply Nat.eqb_refl].
    apply in_map_iff. exists j. split; [reflexivity | exact Hj].
Qed.

End Burst.

Lemma fireConfetti_count_witness :
  let s := {| Confetti.now := 0; Confetti.last_timer := 0; Confetti.timers := [];
              Confetti.children := []; Confetti.last_node := 0;
              Confetti.draws := 0 |} in
  (exists s' added,
     Confetti.fireConfetti (fun _ => Fin (1 # 2)) (fun _ => "5") 3
       (Some (Fin (5 # 2))) true s = Some s' /\
     Confetti.children s' = (Confetti.children s ++ added)%list /\
     Z.of_nat (List.length added) = Z.max 0 (Qceiling (5 # 2)) /\
     Forall (fun c => Confetti.className (snd c) = "ds-confetti-piece") added) /\
  (forall count : number,
     lt (of_Z (2 ^ 53)) count = true ->
     Confetti.fireConfetti (fun _ => Fin (1 # 2)) (fun _ => "5") 3
       (Some count) true s = None).
Proof.
  apply (fireConfetti_count (fun _ => Fin (1 # 2)) (fun _ => "5") 3 (5 # 2));
    vm_compute; discriminate.
Defined.

Lemma fireConfetti_removed_witness :
  let s := {| Confetti.now := 100; Confetti.last_timer := 0; Confetti.timers := [];
              Confetti.children := []; Confetti.last_node := 0;
              Confetti.draws := 0 |} in
  let s' := Nat.iter 2 (Confetti.body (fun _ => Fin (1 # 2)) (fun _ => "5")) s in
  (3200 < Confetti.now s + 3000 ->
   Confetti.children (Confetti.advance 3200 s') = Confetti.children s') /\
  (Confetti.now s + 3000 <= 3200 ->
   Confetti.children (Confetti.advance 3200 s') = Confetti.children s).
Proof.
  apply (fireConfetti_removed (fun _ => Fin (1 # 2)) (fun _ => "5") 3 2).
  - reflexivity.
  - constructor.
  - vm_compute. reflexivity.
Defined.

(** X26: a draw in [0, 1) always selects one of the six palette colours:
    the index [Math.floor(draw * colors.length)] is never out of range, so
    the background is never "undefined". *)
Theorem confetti_colour_in_palette (r : number) (q : Q) :
  rep r q -> (0 <= q)%Q -> (q < 1)%Q ->
  exists c : string,
    Confetti.at_index
      (Math_floor (mul r (of_Z (Z.of_nat (List.length Confetti.colors)))))
      = Some c /\
    In c Confetti.colors.
Proof.
  intros Hr H0 H1.
  change (of_Z (Z.of_nat (List.length Confetti.colors))) with (of_Z 6).
  assert (F : exists z : Z,
             0 <= z < 6 /\
             (Math_floor (mul r (of_Z 6)) = NegZero \/
              Math_floor (mul r (of_Z 6)) = of_Z z)).
  { pose proof (rep_mul _ _ _ _ Hr (rep_of_Z 6)) as M.
    change (inject_Z 6) with 6%Q in M.
    destruct (rep_cases _ _ M) as [[Ex _] | (x' & Ex & Ha)]; rewrite Ex.
    - exists 0. split; [lia | left; reflexivity].
    - exists (Qfloor x'). split; [|right; reflexivity].
      assert (B : 0 <= Qfloor x' /\ Qfloor x' <= 5).
      { split.
        - change 0 with (Qfloor 0). apply Qfloor_resp_le. lra.
        - assert (L : (inject_Z (Qfloor x') < inject_Z 6)%Q).
          { eapply Qle_lt_trans; [apply Qfloor_le|].
            change (inject_Z 6) with 6%Q. lra. }
          rewrite <- Zlt_Qlt in L. lia. }
      lia. }
  destruct F as (z & Hz & [E | E]); rewrite E.
  - exists "#a8d5ba". split; [reflexivity | left; reflexivity].
  - assert (C : z = 0 \/ z = 1 \/ z = 2 \/ z = 3 \/ z = 4 \/ z = 5) by lia.
    destruct C as [-> | [-> | [-> | [-> | [-> | ->]]]]];
      eexists; (split; [reflexivity | simpl; tauto]).
Qed.

Lemma confetti_colour_in_palette_witness :
  exists c : string,
    Confetti.at_index
      (Math_floor (mul (Fin (9 # 10)) (of_Z (Z.of_nat (List.length Confetti.colors)))))
      = Some c /\
    In c Confetti.colors.
Proof.
  apply (confetti_colour_in_palette (Fin (9 # 10)) (9 # 10)).
  - apply rep_refl.
  - discriminate.
  - reflexivity.
Defined.
